(** * ARGOS: a shallow embedding of the retrieval / verification pipeline

    The development follows the layout of the repository:

    - [PyStr], [PyList], [Py]  the Python operations the code relies on:
                   [str.lower], [split], [strip], [find], [in], slices, the
                   stable [sort], list indexing, exceptions;
    - [StrFacts]   facts about the string operations;
    - [Http], [Json]  what an endpoint answers and what a JSON body holds;
    - [Verifier]      [services/verifier/main.py], the [/v1/verify] handler;
    - [Retriever]     [services/retriever/retriever.py], [SimpleRetriever];
    - [Metrics]       [eval/metrics.py];
    - [Schemas]       [shared/schemas.py];
    - [AnswerApi]     [services/answer-api/main.py], the [/v1/answer] handler;
    - [NightlyReport] [eval/nightly_report.py].

    The second part holds further properties of the same code.

    Conventions.  A Python [str] is a [string] whose characters are read as
    the code points U+0000..U+00FF (Latin-1); on that range [lower] and
    [isspace] below agree with CPython.  A Python [float] is idealised as an
    exact rational ([Q]); literals such as [0.9] are the rationals they
    denote, and equality of computed floats is [Qeq].  A [dict] with string
    keys is a [gmap string _] or, for decoded JSON, the list of its items;
    a [set] is a [gset].  Code that can raise returns in [Py.result]; a
    [try ... except Exception] is a function to [option].  A body that a
    handler takes as [Dict[str, Any]] keeps its values as JSON, whatever
    they are, and an exception that escapes a handler is the 500 of
    [Http.InternalServerError].  Calls to other
    services are answered by the surroundings ([AnswerApi.World]); what the
    third-party libraries decide (pydantic's coercions, URL validation) is
    left open ([Json.Library]). *)

From Stdlib Require Import ZArith QArith Qabs Ascii String List Lia Lqa Sorted Permutation.
From stdpp Require Import base option list gmap sets strings pretty.

Local Open Scope Z_scope.

(** ** Python strings *)
Module PyStr.

Definition code (c : ascii) : N := N_of_ascii c.

Definition between (lo hi n : N) : bool := ((lo <=? n) && (n <=? hi))%N.

(** [str.isspace] on one character: TAB..CR, FS..US, SPACE, NEL, NBSP. *)
Definition isspace (c : ascii) : bool :=
  let n := code c in
  between 9 13 n || between 28 32 n || (n =? 133)%N || (n =? 160)%N.

(** [str.lower] on one character: A..Z and the Latin-1 capitals
    U+00C0..U+00DE (the multiplication sign U+00D7 apart) move up by 32. *)
Definition lower_char (c : ascii) : ascii :=
  let n := code c in
  if between 65 90 n || (between 192 222 n && negb (n =? 215)%N)
  then ascii_of_N (n + 32) else c.

Fixpoint lower (s : string) : string :=
  match s with
  | EmptyString => EmptyString
  | String c s' => String (lower_char c) (lower s')
  end.

(** [len(s)] *)
Definition len (s : string) : Z := Z.of_nat (String.length s).

Definition is_empty (s : string) : bool :=
  match s with EmptyString => true | _ => false end.

(** The token under construction is kept reversed in [cur]. *)
Definition flush (cur : string) : list string :=
  if is_empty cur then [] else [String.rev cur].

Fixpoint split_go (cur : string) (s : string) : list string :=
  match s with
  | EmptyString => flush cur
  | String c s' =>
      if isspace c then flush cur ++ split_go EmptyString s'
      else split_go (String c cur) s'
  end.

(** [s.split()]: the maximal runs of non-whitespace characters, in order. *)
Definition split (s : string) : list string := split_go EmptyString s.

Fixpoint lstrip (s : string) : string :=
  match s with
  | String c s' => if isspace c then lstrip s' else s
  | EmptyString => EmptyString
  end.

Fixpoint rstrip (s : string) : string :=
  match s with
  | EmptyString => EmptyString
  | String c s' =>
      let r := rstrip s' in
      if is_empty r && isspace c then EmptyString else String c r
  end.

(** [s.strip()] *)
Definition strip (s : string) : string := rstrip (lstrip s).

(** Index of the first occurrence of [sub] in [s]. *)
Fixpoint index_of (sub s : string) : option nat :=
  if String.prefix sub s then Some 0%nat
  else match s with
       | EmptyString => None
       | String _ s' => S <$> index_of sub s'
       end.

(** [sub in s] *)
Definition contains (sub s : string) : bool :=
  match index_of sub s with Some _ => true | None => false end.

Fixpoint drop_chars (n : nat) (s : string) : string :=
  match n, s with
  | O, _ => s
  | S k, String _ s' => drop_chars k s'
  | S _, EmptyString => EmptyString
  end.

(** [s.find(sub, start)]: the lowest index [>= start] at which [sub] occurs,
    or [-1].  A negative [start] counts from the end, as slices do. *)
Definition find (s sub : string) (start : Z) : Z :=
  let start := if start <? 0 then Z.max 0 (len s + start) else start in
  if len s <? start then -1
  else match index_of sub (drop_chars (Z.to_nat start) s) with
       | Some i => start + Z.of_nat i
       | None => -1
       end.

(** [s.split(sep)[0]] for a one-character separator: the text before the
    first [sep] (all of [s] when there is none). *)
Fixpoint before_sep (sep : ascii) (s : string) : string :=
  match s with
  | EmptyString => EmptyString
  | String c s' => if Ascii.eqb c sep then EmptyString else String c (before_sep sep s')
  end.

(** [s] without its whitespace characters. *)
Fixpoint remove_ws (s : string) : string :=
  match s with
  | EmptyString => EmptyString
  | String c s' => if isspace c then remove_ws s' else String c (remove_ws s')
  end.

(** [set(s.split())] *)
Definition token_set (s : string) : gset string := list_to_set (split s).

Lemma append_nil_l (s : string) : ("" ++ s)%string = s.
Proof. reflexivity. Qed.

Lemma append_cons (c : ascii) (a b : string) :
  (String c a ++ b)%string = String c (a ++ b)%string.
Proof. reflexivity. Qed.

Lemma append_nil_r (s : string) : (s ++ "")%string = s.
Proof.
  induction s as [|c s IH]; [reflexivity|]. by rewrite append_cons, IH.
Qed.

Lemma append_assoc (a b c : string) : ((a ++ b) ++ c)%string = (a ++ b ++ c)%string.
Proof.
  induction a as [|x a IH]; [reflexivity|]. by rewrite !append_cons, IH.
Qed.

Lemma rev_app_spec (a b : string) : String.rev_app a b = (String.rev a ++ b)%string.
Proof.
  unfold String.rev. revert b. induction a as [|c a IH]; intros b; cbn [String.rev_app].
  - reflexivity.
  - rewrite IH, (IH (String c "")), append_assoc. reflexivity.
Qed.

Lemma rev_cons (c : ascii) (s : string) :
  String.rev (String c s) = (String.rev s ++ String c "")%string.
Proof. unfold String.rev at 1. cbn [String.rev_app]. apply rev_app_spec. Qed.

Lemma concat_cons (x : string) (l : list string) :
  String.concat "" (x :: l) = (x ++ String.concat "" l)%string.
Proof.
  destruct l as [|y l]; cbn [String.concat]; [by rewrite append_nil_r|reflexivity].
Qed.

Lemma concat_app (l1 l2 : list string) :
  String.concat "" (l1 ++ l2) = (String.concat "" l1 ++ String.concat "" l2)%string.
Proof.
  induction l1 as [|x l1 IH]; [reflexivity|].
  cbn [app]. rewrite !concat_cons, IH, append_assoc. reflexivity.
Qed.

Lemma concat_flush (cur : string) : String.concat "" (flush cur) = String.rev cur.
Proof. unfold flush. destruct cur; reflexivity. Qed.

Lemma concat_split_go (cur s : string) :
  String.concat "" (split_go cur s) = (String.rev cur ++ remove_ws s)%string.
Proof.
  revert cur. induction s as [|c s IH]; intros cur; cbn [split_go remove_ws].
  - by rewrite concat_flush, append_nil_r.
  - destruct (isspace c).
    + rewrite concat_app, concat_flush, IH. reflexivity.
    + rewrite IH, rev_cons, append_assoc, append_cons. reflexivity.
Qed.

Lemma remove_ws_lstrip (s : string) : remove_ws (lstrip s) = remove_ws s.
Proof.
  induction s as [|c s IH]; cbn [lstrip remove_ws]; [reflexivity|].
  destruct (isspace c) eqn:E; [exact IH|]. cbn [remove_ws]. by rewrite E.
Qed.

Lemma remove_ws_rstrip (s : string) : remove_ws (rstrip s) = remove_ws s.
Proof.
  induction s as [|c s IH]; cbn [rstrip remove_ws]; [reflexivity|].
  destruct (isspace c) eqn:E.
  - destruct (rstrip s) eqn:R; cbn [is_empty andb remove_ws] in *; [exact IH|].
    rewrite E. exact IH.
  - rewrite andb_false_r. cbn [remove_ws]. by rewrite E, IH.
Qed.

(** Splitting after stripping loses nothing but whitespace: the tokens, put
    end to end, are the text without its whitespace characters. *)
Lemma concat_split_strip (s : string) :
  String.concat "" (split (strip s)) = remove_ws s.
Proof.
  unfold split, strip. rewrite concat_split_go, append_nil_l.
  by rewrite remove_ws_rstrip, remove_ws_lstrip.
Qed.

End PyStr.

(** ** Facts about the string operations *)
Module StrFacts.
Import PyStr.

(** [sub] occurs in [s]. *)
Definition infix (sub s : string) : Prop :=
  ∃ pre post, s = (pre ++ sub ++ post)%string.

Lemma lower_app (a b : string) : lower (a ++ b) = (lower a ++ lower b)%string.
Proof.
  induction a as [|c a IH]; [reflexivity|].
  rewrite append_cons. cbn [lower]. by rewrite append_cons, IH.
Qed.

Lemma prefix_spec (a s : string) :
  String.prefix a s = true ↔ ∃ post, s = (a ++ post)%string.
Proof.
  revert s. induction a as [|c a IH]; intros s.
  - split; [intros _; by exists s|intros _; by destruct s].
  - destruct s as [|d s]; simpl.
    + split; [discriminate|]. intros (post & Hp). rewrite append_cons in Hp. discriminate.
    + destruct (ascii_dec c d) as [->|Hne].
      * rewrite IH. split; intros (post & Hp); exists post.
        -- by rewrite append_cons, Hp.
        -- rewrite append_cons in Hp. by injection Hp.
      * split; [discriminate|]. intros (post & Hp). rewrite append_cons in Hp.
        injection Hp as Hc _. congruence.
Qed.

Lemma index_of_prefix (sub s : string) :
  String.prefix sub s = true → index_of sub s = Some 0%nat.
Proof. intros Hp. destruct s; cbn [index_of]; by rewrite Hp. Qed.

Lemma index_of_app (sub pre s : string) :
  is_Some (index_of sub s) → is_Some (index_of sub (pre ++ s)).
Proof.
  intros Hs. induction pre as [|c pre IH]; [exact Hs|].
  rewrite append_cons. cbn [index_of].
  destruct (String.prefix sub _); [by eexists|].
  destruct IH as [i ->]. by eexists.
Qed.

Lemma contains_spec (sub s : string) : contains sub s = true ↔ infix sub s.
Proof.
  unfold contains, infix. split.
  - revert sub. induction s as [|c s IH]; intros sub; cbn [index_of].
    + destruct (String.prefix sub "") eqn:E; [|discriminate].
      intros _. apply prefix_spec in E as [post E]. by exists ""%string, post.
    + destruct (String.prefix sub (String c s)) eqn:E.
      * intros _. apply prefix_spec in E as [post E]. by exists ""%string, post.
      * destruct (index_of sub s) eqn:Hi; [|discriminate]. intros _.
        destruct (IH sub) as (pre & post & ->); [by rewrite Hi|].
        by exists (String c pre), post.
  - intros (pre & post & ->).
    assert (is_Some (index_of sub (pre ++ sub ++ post))) as [i ->]; [|reflexivity].
    apply index_of_app.
    assert (String.prefix sub (sub ++ post) = true) as Hp
      by (apply prefix_spec; by exists post).
    rewrite (index_of_prefix _ _ Hp). by eexists.
Qed.

Lemma infix_refl (s : string) : infix s s.
Proof. exists ""%string, ""%string. by rewrite append_nil_l, append_nil_r. Qed.

Lemma infix_trans (a b c : string) : infix a b → infix b c → infix a c.
Proof.
  intros (p1 & q1 & ->) (p2 & q2 & ->). exists (p2 ++ p1)%string, (q1 ++ q2)%string.
  by rewrite !append_assoc.
Qed.

Lemma infix_cons (c : ascii) (a s : string) : infix a s → infix a (String c s).
Proof. intros (p & q & ->). by exists (String c p), q. Qed.

Lemma infix_lower (a s : string) : infix a s → infix (lower a) (lower s).
Proof.
  intros (p & q & ->). exists (lower p), (lower q). by rewrite !lower_app.
Qed.

Lemma infix_lstrip (s : string) : infix (lstrip s) s.
Proof.
  induction s as [|c s IH]; cbn [lstrip]; [apply infix_refl|].
  destruct (isspace c); [by apply infix_cons|apply infix_refl].
Qed.

Lemma prefix_rstrip (s : string) : ∃ post, s = (rstrip s ++ post)%string.
Proof.
  induction s as [|c s [post IH]]; cbn [rstrip]; [by exists ""%string|].
  destruct (is_empty (rstrip s) && isspace c).
  - by exists (String c s).
  - exists post. by rewrite append_cons, <- IH.
Qed.

Lemma infix_strip (s : string) : infix (strip s) s.
Proof.
  unfold strip. eapply infix_trans; [|apply infix_lstrip].
  destruct (prefix_rstrip (lstrip s)) as [post Hp].
  exists ""%string, post. by rewrite append_nil_l.
Qed.

Lemma prefix_before_sep (sep : ascii) (s : string) :
  ∃ post, s = (before_sep sep s ++ post)%string.
Proof.
  induction s as [|c s [post IH]]; cbn [before_sep]; [by exists ""%string|].
  destruct (Ascii.eqb c sep).
  - by exists (String c s).
  - exists post. by rewrite append_cons, <- IH.
Qed.

Lemma infix_before_sep (sep : ascii) (s : string) : infix (before_sep sep s) s.
Proof.
  destruct (prefix_before_sep sep s) as [post Hp].
  exists ""%string, post. by rewrite append_nil_l.
Qed.

End StrFacts.

(** ** What an endpoint answers *)
Module Http.

(** The outcome of a request handler: the returned value (status 200), an
    [HTTPException] raised by the handler, the 422 the framework answers when
    the body does not validate against the declared model, or the 500 it
    answers when the handler lets another exception escape. *)
Inductive response (A : Type) : Type :=
| Ok (a : A)
| HTTPException (status_code : Z) (detail : string)
| RequestValidationError
| InternalServerError.
Arguments Ok {A} a.
Arguments HTTPException {A} status_code detail.
Arguments RequestValidationError {A}.
Arguments InternalServerError {A}.

End Http.

(** ** JSON values, as [json.loads] / [Response.json()] hand them over *)
Module Json.

#[warnings="-register-all"]
Inductive json :=
| JNull
| JBool (b : bool)
| JInt (z : Z)
| JFloat (q : Q)
| JStr (s : string)
| JArr (items : list json)
| JObj (items : list (string * json)).

(** Lookup in the items of an object (keys are distinct in a [dict]). *)
Fixpoint assoc (key : string) (items : list (string * json)) : option json :=
  match items with
  | [] => None
  | (k, v) :: rest => if String.eqb k key then Some v else assoc key rest
  end.

(** The items of a [dict]; anything else has no [.get] and no [[key]]. *)
Definition as_dict (j : json) : option (list (string * json)) :=
  match j with JObj items => Some items | _ => None end.

Definition as_str (j : json) : option string :=
  match j with JStr s => Some s | _ => None end.

(** What the libraries under the services do with a JSON value: Python's
    [float(...)] of a string, pydantic's coercion of a value to [int], and
    pydantic's [HttpUrl] (the normalised URL, or [None] when it is refused).
    They are external to the repository and are left open. *)
Class Library := {
  float_of_str : string → option Q;
  pydantic_int : json → option Z;
  http_url : string → option string;
}.

(** [float(x)] for a decoded JSON value [x]; [None] when it raises. *)
Definition py_float `{Library} (j : json) : option Q :=
  match j with
  | JInt z => Some (inject_Z z)
  | JFloat q => Some q
  | JBool b => Some (if b then 1 else 0)%Q
  | JStr s => float_of_str s
  | JNull | JArr _ | JObj _ => None
  end.

End Json.

(** ** The verifier service: [services/verifier/main.py] *)
Module Verifier.
Import PyStr StrFacts Json Http.

(** The body of [POST /v1/verify], a [Dict[str, Any]]: what stands under the
    two keys the handler reads, whatever JSON it is; an absent key is
    [None]. *)
Record VerifyBody := {
  sentence : option json;
  evidence : option json;
}.

(** The JSON object the handler returns. *)
Record VerifyResult := {
  label : string;
  confidence : Q;
  unsupported_spans : list (Z * Z);
}.

(** The truth value of a decoded JSON value, as [not x] reads it. *)
Definition truthy (j : json) : bool :=
  match j with
  | JNull => false
  | JBool b => b
  | JInt z => negb (z =? 0)
  | JFloat q => negb (Qeq_bool q 0)
  | JStr s => negb (is_empty s)
  | JArr items => match items with [] => false | _ => true end
  | JObj items => match items with [] => false | _ => true end
  end.

(** [for e in evidence_list]: a list gives its items, a dict its keys, a
    string its characters; the other values are not iterable ([None]). *)
Definition elements (j : json) : option (list json) :=
  match j with
  | JArr items => Some items
  | JObj items => Some (map (λ kv, JStr kv.1) items)
  | JStr s => Some (map (λ c, JStr (String c EmptyString)) (list_ascii_of_string s))
  | JNull | JBool _ | JInt _ | JFloat _ => None
  end.

(** [e.get("text", "").lower()]; [None] is the [AttributeError] of an item
    that has no [get], or of a text that has no [lower]. *)
Definition evidence_text (e : json) : option string :=
  match e with
  | JObj items =>
      match default (JStr EmptyString) (assoc "text" items) with
      | JStr text => Some (lower text)
      | _ => None
      end
  | _ => None
  end.

(** The [for e in evidence_list] loop; the state is [(label, confidence)].
    The first branch is the [break]; [None] is an exception that escapes. *)
Fixpoint scan (sentence_lower : string) (words : gset string) (evs : list json)
    (st : string * Q) : option (string * Q) :=
  match evs with
  | [] => Some st
  | e :: rest =>
      match evidence_text e with
      | None => None
      | Some text =>
          if contains sentence_lower text then Some ("entailed"%string, 9 # 10)
          else if bool_decide (words ∩ token_set text ≠ ∅)
               then scan sentence_lower words rest ("weak"%string, 1 # 2)
               else scan sentence_lower words rest st
      end
  end.

Definition verify (body : VerifyBody) : response VerifyResult :=
  let sentence := default (JStr EmptyString) (sentence body) in
  let evidence_list := default (JArr []) (evidence body) in
  if negb (truthy sentence) || negb (truthy evidence_list)
  then HTTPException 400 "Sentence and evidence must be provided"
  else
    match sentence with
    | JStr s =>
        let sentence_lower := lower s in
        let words := token_set sentence_lower in
        match elements evidence_list
              ≫= λ evs, scan sentence_lower words evs ("unsupported"%string, 1 # 10) with
        | Some (label, confidence) =>
            let unsupported_spans :=
              if bool_decide (label = "entailed"%string) then [] else [(0, len s)] in
            Ok {| label := label; confidence := confidence;
                  unsupported_spans := unsupported_spans |}
        | None => InternalServerError
        end
    | _ => InternalServerError
    end.

(** *** Properties of the loop *)

(** The two tests of the loop on one item; an item the loop cannot read
    passes neither. *)
Definition item_verbatim (sentence_lower : string) (e : json) : bool :=
  match evidence_text e with Some text => contains sentence_lower text | None => false end.

Definition item_shares (words : gset string) (e : json) : bool :=
  match evidence_text e with
  | Some text => bool_decide (words ∩ token_set text ≠ ∅)
  | None => false
  end.

(** The loop can read the item. *)
Definition readable (e : json) : Prop := is_Some (evidence_text e).

Lemma existsb_elem_of {A} (f : A → bool) (l : list A) :
  existsb f l = true ↔ ∃ x, x ∈ l ∧ f x = true.
Proof.
  rewrite existsb_exists. split; intros (x & Hx & Hf); exists x; split; auto;
    by apply list_elem_of_In.
Qed.

(** Over items it can read, the loop ends in [entailed] when some item holds
    the sentence, else in [weak] when some item shares a word, else where it
    started. *)
Lemma scan_readable sl words evs st :
  Forall readable evs →
  scan sl words evs st =
    Some (if existsb (item_verbatim sl) evs then ("entailed"%string, 9 # 10)
          else if existsb (item_shares words) evs then ("weak"%string, 1 # 2)
          else st).
Proof.
  intros Hall. revert st. induction Hall as [|e rest [text He] _ IH]; intros st;
    cbn [scan existsb]; [reflexivity|].
  unfold item_verbatim at 1, item_shares at 1. rewrite He.
  destruct (contains sl text); cbn [orb]; [reflexivity|].
  destruct (bool_decide _); cbn [orb]; rewrite IH; [|reflexivity].
  by destruct (existsb (item_verbatim sl) rest), (existsb (item_shares words) rest).
Qed.

(** The [break]: nothing after the first item that holds the sentence is
    looked at. *)
Lemma scan_break sl words pre e post st :
  Forall readable pre → item_verbatim sl e = true →
  scan sl words (pre ++ e :: post) st = Some ("entailed"%string, 9 # 10).
Proof.
  intros Hpre He. revert st. induction Hpre as [|p pre [text Hp] _ IH]; intros st;
    cbn [app scan].
  - unfold item_verbatim in He. destruct (evidence_text e) as [t|]; [|discriminate].
    by rewrite He.
  - rewrite Hp. destruct (contains sl text); [reflexivity|].
    destruct (bool_decide _); apply IH.
Qed.

(** When the loop ends, it has either stopped at an item that holds the
    sentence, or read every item and found none. *)
Lemma scan_some sl words evs st st' :
  scan sl words evs st = Some st' →
  (st' = ("entailed"%string, 9 # 10) ∧
   ∃ pre e post, evs = pre ++ e :: post ∧ Forall readable pre ∧ item_verbatim sl e = true) ∨
  (Forall readable evs ∧ existsb (item_verbatim sl) evs = false ∧
   st' = if existsb (item_shares words) evs then ("weak"%string, 1 # 2) else st).
Proof.
  revert st. induction evs as [|e rest IH]; intros st; cbn [scan].
  - intros [= <-]. right. by repeat split.
  - destruct (evidence_text e) as [text|] eqn:He; [|discriminate].
    assert (Hr : readable e) by (by exists text).
    destruct (contains sl text) eqn:Hv.
    + intros [= <-]. left. split; [reflexivity|]. exists [], e, rest.
      repeat split; [constructor|]. unfold item_verbatim. by rewrite He.
    + assert (Hve : item_verbatim sl e = false) by (unfold item_verbatim; by rewrite He).
      assert (Hsh : item_shares words e = bool_decide (words ∩ token_set text ≠ ∅))
        by (unfold item_shares; by rewrite He).
      intros Hs. cbn [existsb]. rewrite Hve, Hsh. cbn [orb].
      destruct (bool_decide (words ∩ token_set text ≠ ∅)); cbn [orb];
        apply IH in Hs as [(-> & pre & x & post & -> & Hpre & Hx)|(Hall & Hnv & ->)].
      * left. split; [reflexivity|]. exists (e :: pre), x, post.
        repeat split; [by constructor|exact Hx].
      * right. split; [by constructor|]. split; [exact Hnv|].
        by destruct (existsb (item_shares words) rest).
      * left. split; [reflexivity|]. exists (e :: pre), x, post.
        repeat split; [by constructor|exact Hx].
      * right. split; [by constructor|]. by split.
Qed.

Lemma is_empty_false s : s ≠ EmptyString → is_empty s = false.
Proof. destruct s; [congruence|reflexivity]. Qed.

(** A request with a non-empty sentence and a non-empty evidence list gets
    past the 400. *)
Lemma verify_accepted s evs :
  s ≠ EmptyString → evs ≠ [] →
  verify {| sentence := Some (JStr s); evidence := Some (JArr evs) |} =
    match scan (lower s) (token_set (lower s)) evs ("unsupported"%string, 1 # 10) with
    | Some (l, c) =>
        Ok {| label := l; confidence := c;
              unsupported_spans :=
                if bool_decide (l = "entailed"%string) then [] else [(0, len s)] |}
    | None => InternalServerError
    end.
Proof.
  intros Hs He. unfold verify. cbn [sentence evidence from_option id truthy].
  rewrite (is_empty_false s Hs). destruct evs as [|e evs]; [done|]. reflexivity.
Qed.

(** What an accepted request looks like, and what its answer is made of. *)
Lemma verify_ok body r :
  verify body = Ok r →
  ∃ s evs l c,
    sentence body = Some (JStr s) ∧ s ≠ EmptyString ∧
    elements (default (JArr []) (evidence body)) = Some evs ∧
    scan (lower s) (token_set (lower s)) evs ("unsupported"%string, 1 # 10) = Some (l, c) ∧
    r = {| label := l; confidence := c;
           unsupported_spans :=
             if bool_decide (l = "entailed"%string) then [] else [(0, len s)] |}.
Proof.
  unfold verify. destruct (sentence body) as [j|]; cbn [from_option id];
    [|cbn; discriminate].
  destruct (negb (truthy j) || _) eqn:Ht; [discriminate|].
  destruct j as [| | | |s| |]; try discriminate.
  apply orb_false_iff in Ht as [Hs _]. cbn [truthy] in Hs.
  destruct (elements _) as [evs|]; cbn [mbind option_bind]; [|discriminate].
  destruct (scan _ _ evs _) as [[l c]|] eqn:Hscan; [|discriminate].
  intros [= <-]. exists s, evs, l, c. repeat split; try done.
  intros ->. discriminate.
Qed.

(** The sentence occurs in a text, and shares a token with it, in the words
    of the specification. *)
Definition occurs_in (s t : string) : Prop :=
  ∃ pre post, lower t = (pre ++ lower s ++ post)%string.

Definition shares_token (s t : string) : Prop :=
  ∃ w, w ∈ split (lower s) ∧ w ∈ split (lower t).

(** The item is an object whose [text] is the string [t] (the empty string
    when it has none). *)
Definition has_text (e : json) (t : string) : Prop :=
  ∃ items, e = JObj items ∧
    (assoc "text" items = Some (JStr t) ∨ (assoc "text" items = None ∧ t = EmptyString)).

Lemma has_text_evidence_text e t : has_text e t → evidence_text e = Some (lower t).
Proof. by intros (items & -> & [H|[H ->]]); cbn [evidence_text]; rewrite H. Qed.

Lemma occurs_in_decide (s t : string) : occurs_in s t ↔ contains (lower s) (lower t) = true.
Proof. symmetry. apply contains_spec. Qed.

Lemma shares_token_decide (s t : string) :
  shares_token s t ↔
  bool_decide (token_set (lower s) ∩ token_set (lower t) ≠ ∅) = true.
Proof.
  rewrite bool_decide_eq_true. unfold shares_token, token_set. split.
  - intros (w & Hs & Ht) Hempty.
    assert (w ∈ (list_to_set (split (lower s)) ∩ list_to_set (split (lower t)) : gset string))
      as Hin by (apply elem_of_intersection; by rewrite !elem_of_list_to_set).
    rewrite Hempty in Hin. by apply not_elem_of_empty in Hin.
  - intros Hne. apply set_choose_L in Hne as [w Hw].
    apply elem_of_intersection in Hw as [Hs Ht]. rewrite !elem_of_list_to_set in Hs, Ht.
    by exists w.
Qed.

Lemma has_text_verbatim s e t :
  has_text e t → item_verbatim (lower s) e = true ↔ occurs_in s t.
Proof.
  intros He. unfold item_verbatim. rewrite (has_text_evidence_text e t He).
  symmetry. apply occurs_in_decide.
Qed.

Lemma has_text_shares s e t :
  has_text e t → item_shares (token_set (lower s)) e = true ↔ shares_token s t.
Proof.
  intros He. unfold item_shares. rewrite (has_text_evidence_text e t He).
  symmetry. apply shares_token_decide.
Qed.

Lemma has_text_readable evs texts : Forall2 has_text evs texts → Forall readable evs.
Proof.
  intros Hall. induction Hall as [|e t evs texts He _ IH]; constructor; [|exact IH].
  exists (lower t). by apply has_text_evidence_text.
Qed.

Lemma existsb_has_text (f : json → bool) (P : string → Prop) evs texts :
  Forall2 has_text evs texts →
  (∀ e t, has_text e t → f e = true ↔ P t) →
  existsb f evs = true ↔ ∃ t, t ∈ texts ∧ P t.
Proof.
  intros Hall Hf. induction Hall as [|e t evs texts He _ IH]; cbn [existsb].
  - split; [discriminate|]. intros (t & Hin & _). by apply elem_of_nil in Hin.
  - rewrite orb_true_iff, IH, (Hf e t He). split.
    + intros [Ht|(t' & Hin & Ht')]; [exists t; split; [by left|exact Ht]|].
      exists t'. split; [by right|exact Ht'].
    + intros (t' & Hin & Ht'). apply elem_of_cons in Hin as [->|Hin]; [by left|].
      right. by exists t'.
Qed.

(** C1.  The decision rule of [POST /v1/verify].  Take a non-empty sentence
    [s] and a non-empty evidence list whose items are objects with the
    string texts [texts].  The handler answers, and its answer is
    [entailed] / 0.9 / no unsupported span as soon as the lowercased sentence
    is a substring of some lowercased text; otherwise [weak] / 0.5 when some
    word of the lowercased sentence is a word of some lowercased text;
    otherwise [unsupported] / 0.1; the last two with the single span
    [(0, len s)].  The loop stops at the first item that holds the sentence:
    whatever was found before it, and whatever follows it in the list (be it
    an item the loop could not read), the answer is the same. *)
Theorem verify_decision_rule (s : string) (evs : list json) (texts : list string) :
  s ≠ EmptyString → evs ≠ [] → Forall2 has_text evs texts →
  let occurs t := ∃ pre post, lower t = (pre ++ lower s ++ post)%string in
  let shares t := ∃ w, w ∈ split (lower s) ∧ w ∈ split (lower t) in
  ∃ r, verify {| sentence := Some (JStr s); evidence := Some (JArr evs) |} = Ok r ∧
    ((∃ t, t ∈ texts ∧ occurs t) →
       label r = "entailed"%string ∧ confidence r = 9 # 10 ∧ unsupported_spans r = []) ∧
    ((∀ t, t ∈ texts → ¬ occurs t) → (∃ t, t ∈ texts ∧ shares t) →
       label r = "weak"%string ∧ confidence r = 1 # 2 ∧
       unsupported_spans r = [(0, len s)]) ∧
    ((∀ t, t ∈ texts → ¬ occurs t) → (∀ t, t ∈ texts → ¬ shares t) →
       label r = "unsupported"%string ∧ confidence r = 1 # 10 ∧
       unsupported_spans r = [(0, len s)]) ∧
    (∀ pre e t post rest, evs = pre ++ e :: post → has_text e t → occurs t →
       verify {| sentence := Some (JStr s); evidence := Some (JArr (pre ++ e :: rest)) |}
         = Ok r).
Proof.
  intros Hs He Htexts occurs shares.
  pose proof (has_text_readable evs texts Htexts) as Hread.
  pose proof (existsb_has_text (item_verbatim (lower s)) occurs evs texts Htexts
                (has_text_verbatim s)) as Hv.
  pose proof (existsb_has_text (item_shares (token_set (lower s))) shares evs texts Htexts
                (has_text_shares s)) as Hw.
  rewrite (verify_accepted s evs Hs He), (scan_readable _ _ evs _ Hread).
  destruct (existsb (item_verbatim (lower s)) evs) eqn:Ev.
  - eexists. split; [reflexivity|]. cbn [label confidence unsupported_spans].
    pose proof (proj1 Hv eq_refl) as (t0 & Hin0 & Ht0).
    split; [by intros _|]. split; [intros Hno; by destruct (Hno t0 Hin0)|].
    split; [intros Hno; by destruct (Hno t0 Hin0)|].
    intros pre e t post rest -> Het Ht.
    rewrite verify_accepted by (try done; by destruct pre).
    rewrite scan_break; [reflexivity| |by apply (has_text_verbatim s e t)].
    apply Forall_app in Hread as [Hpre _]. exact Hpre.
  - assert (Hnone : ∀ t, t ∈ texts → ¬ occurs t).
    { intros t Hin Ht. assert (false = true) by (apply Hv; by exists t). discriminate. }
    destruct (existsb (item_shares (token_set (lower s))) evs) eqn:Ew;
      (eexists; split; [reflexivity|]); cbn [label confidence unsupported_spans];
      (split; [intros (t & Hin & Ht); by destruct (Hnone t Hin)|]).
    + split; [by intros _ _|].
      split.
      * intros _ Hno. pose proof (proj1 Hw eq_refl) as (t0 & Hin0 & Ht0).
        by destruct (Hno t0 Hin0).
      * intros pre e t post rest -> Het Ht. destruct (Hnone t); [|exact Ht].
        apply Forall2_app_inv_l in Htexts as (t1 & t2 & _ & H2 & ->).
        apply Forall2_cons_inv_l in H2 as (t' & t3 & Het' & _ & ->).
        assert (t' = t) as ->.
        { destruct Het as (items & -> & Hi), Het' as (items' & [= <-] & Hi').
          destruct Hi as [Hi|[Hi ->]], Hi' as [Hi'|[Hi' ->]]; congruence. }
        apply elem_of_app. right. by left.
    + split.
      * intros _ (t0 & Hin0 & Ht0).
        assert (false = true) by (apply Hw; by exists t0). discriminate.
      * split; [by intros _ _|].
        intros pre e t post rest -> Het Ht. destruct (Hnone t); [|exact Ht].
        apply Forall2_app_inv_l in Htexts as (t1 & t2 & _ & H2 & ->).
        apply Forall2_cons_inv_l in H2 as (t' & t3 & Het' & _ & ->).
        assert (t' = t) as ->.
        { destruct Het as (items & -> & Hi), Het' as (items' & [= <-] & Hi').
          destruct Hi as [Hi|[Hi ->]], Hi' as [Hi'|[Hi' ->]]; congruence. }
        apply elem_of_app. right. by left.
Qed.

(** The three outcomes of the rule: a sentence that only shares a word with
    the first passage and occurs verbatim in the second one is [entailed]; a
    sentence that shares the word "the" with its one passage is [weak]; a
    sentence foreign to its passage is [unsupported]. *)
Lemma verify_decision_rule_witness :
  let item t := JObj [("text", JStr t); ("url", JStr "http://a")]%string in
  let ask s texts :=
    verify {| sentence := Some (JStr s); evidence := Some (JArr (map item texts)) |} in
  (∃ r, ask "Paris is big" ["Paris  was small"; "They say PARIS IS BIG."]%string = Ok r ∧
        label r = "entailed"%string ∧ confidence r = 9 # 10 ∧ unsupported_spans r = []) ∧
  (∃ r, ask "The moon is purple." ["The sky is blue."]%string = Ok r ∧
        label r = "weak"%string ∧ confidence r = 1 # 2 ∧
        unsupported_spans r = [(0, 19)]) ∧
  (∃ r, ask "Lima" ["Paris is big"; "the capital"]%string = Ok r ∧
        label r = "unsupported"%string ∧ confidence r = 1 # 10 ∧
        unsupported_spans r = [(0, 4)]).
Proof.
  intros item ask.
  assert (Htyped : ∀ texts, Forall2 has_text (map item texts) texts).
  { intros texts. induction texts as [|t texts IH]; constructor; [|exact IH].
    eexists. split; [reflexivity|]. by left. }
  assert (Hno : ∀ s texts, forallb (λ t, negb (contains (lower s) (lower t))) texts = true →
            ∀ t, t ∈ texts → ¬ ∃ pre post, lower t = (pre ++ lower s ++ post)%string).
  { intros s texts Hall t Hin%list_elem_of_In Ht.
    apply (proj1 (forallb_forall _ _) Hall) in Hin.
    apply (occurs_in_decide s t) in Ht. by rewrite Ht in Hin. }
  split; [|split].
  - destruct (verify_decision_rule "Paris is big"
                (map item ["Paris  was small"; "They say PARIS IS BIG."]%string) _
                ltac:(discriminate) ltac:(discriminate) (Htyped _))
      as (r & Hr & Hent & _).
    exists r. split; [exact Hr|]. apply Hent.
    exists "They say PARIS IS BIG."%string. split; [by right; left|].
    by exists "they say "%string, "."%string.
  - destruct (verify_decision_rule "The moon is purple."
                (map item ["The sky is blue."]%string) _
                ltac:(discriminate) ltac:(discriminate) (Htyped _))
      as (r & Hr & _ & Hweak & _).
    exists r. split; [exact Hr|]. apply Hweak.
    + apply Hno. reflexivity.
    + exists "The sky is blue."%string. split; [by left|].
      exists "the"%string. split; by left.
  - destruct (verify_decision_rule "Lima"
                (map item ["Paris is big"; "the capital"]%string) _
                ltac:(discriminate) ltac:(discriminate) (Htyped _))
      as (r & Hr & _ & _ & Huns & _).
    exists r. split; [exact Hr|]. apply Huns.
    + apply Hno. reflexivity.
    + intros t Hin Ht. apply (shares_token_decide "Lima" t) in Ht.
      apply elem_of_cons in Hin as [->|Hin]; [by vm_compute in Ht|].
      apply elem_of_cons in Hin as [->|Hin]; [by vm_compute in Ht|].
      by apply elem_of_nil in Hin.
Defined.

(** The loop only ever leaves one of three labels. *)
Lemma scan_label sl words evs st st' :
  scan sl words evs st = Some st' →
  (st.1 = "entailed" ∨ st.1 = "weak" ∨ st.1 = "unsupported")%string →
  (st'.1 = "entailed" ∨ st'.1 = "weak" ∨ st'.1 = "unsupported")%string.
Proof.
  intros Hs Hst. apply scan_some in Hs as [[-> _]|(_ & _ & ->)]; [by left|].
  destruct (existsb _ evs); [right; by left|exact Hst].
Qed.

(** C10.  Whenever [POST /v1/verify] accepts a request, the returned
    [unsupported_spans] is empty exactly when the label is [entailed]; a
    [weak] result carries the same single full-sentence span
    [(0, len sentence)] as an [unsupported] one. *)
Theorem verify_spans_empty_iff_entailed (body : VerifyBody) (r : VerifyResult) :
  verify body = Ok r →
  (unsupported_spans r = [] ↔ label r = "entailed"%string) ∧
  (label r = "weak"%string ∨ label r = "unsupported"%string →
     ∃ s, sentence body = Some (JStr s) ∧ unsupported_spans r = [(0, len s)]) ∧
  (label r = "entailed"%string ∨ label r = "weak"%string ∨ label r = "unsupported"%string).
Proof.
  intros Hr. destruct (verify_ok body r Hr) as (s & evs & l & c & Hs & _ & _ & Hscan & ->).
  pose proof (scan_label _ _ _ _ _ Hscan ltac:(right; right; reflexivity)) as Hlab.
  cbn [fst label unsupported_spans] in *.
  destruct Hlab as [-> | [-> | ->]]; cbn; (split; [|split]).
  - by split.
  - intros [H | H]; discriminate.
  - by left.
  - split; discriminate.
  - intros _. by exists s.
  - right. by left.
  - split; discriminate.
  - intros _. by exists s.
  - right. by right.
Qed.

(** A request whose sentence merely shares the word "the" with the evidence
    is [weak], and still has its whole text marked unsupported. *)
Lemma verify_spans_empty_iff_entailed_witness :
  let body := {| sentence := Some (JStr "The moon is purple.");
                 evidence := Some (JArr [ JObj [("text", JStr "The sky is blue.");
                                                ("url", JStr "http://a")] ]) |}%string in
  let r := {| label := "weak"; confidence := 1 # 2; unsupported_spans := [(0, 19)] |} in
  verify body = Ok r ∧
  (unsupported_spans r = [] ↔ label r = "entailed"%string) ∧
  (label r = "weak"%string ∨ label r = "unsupported"%string →
     ∃ s, sentence body = Some (JStr s) ∧ unsupported_spans r = [(0, len s)]) ∧
  (label r = "entailed"%string ∨ label r = "weak"%string ∨ label r = "unsupported"%string).
Proof.
  intros body r.
  assert (H : verify body = Ok r) by (vm_compute; reflexivity).
  split; [exact H|]. exact (verify_spans_empty_iff_entailed body r H).
Defined.

End Verifier.

(** ** Python lists: slices and the stable sort *)
Module PyList.

(** [l[:k]]: the first [k] items, or all but the last [-k] when [k < 0]. *)
Definition slice_to {A} (l : list A) (k : Z) : list A :=
  if k <? 0 then firstn (Z.to_nat (Z.of_nat (length l) + k)) l
  else firstn (Z.to_nat k) l.

Definition Qltb (a b : Q) : bool := negb (Qle_bool b a).

(** One step of a stable descending insertion: [x], which stood before every
    item of [l], passes only the items whose key is strictly greater. *)
Fixpoint insert_desc {A} (key : A → Q) (x : A) (l : list A) : list A :=
  match l with
  | [] => [x]
  | y :: ys => if Qltb (key x) (key y) then y :: insert_desc key x ys else x :: l
  end.

(** [l.sort(key=key, reverse=True)]: Python's sort is stable, also when
    reversed, so the outcome is the one of this insertion sort. *)
Fixpoint sort_desc {A} (key : A → Q) (l : list A) : list A :=
  match l with
  | [] => []
  | x :: xs => insert_desc key x (sort_desc key xs)
  end.

Definition descending {A} (key : A → Q) (l : list A) : Prop :=
  StronglySorted (λ a b, (key b <= key a)%Q) l.

(** Items of equal key stand in [l'] in the order they have in [l]. *)
Definition ties_keep_order {A} (key : A → Q) (l l' : list A) : Prop :=
  ∀ v : Q, List.filter (λ x, Qeq_bool (key x) v) l' = List.filter (λ x, Qeq_bool (key x) v) l.

Lemma Qltb_lt a b : Qltb a b = true ↔ (a < b)%Q.
Proof.
  unfold Qltb. rewrite negb_true_iff. split.
  - intros H. apply Qnot_le_lt. intros Hle. apply Qle_bool_iff in Hle. congruence.
  - intros H. destruct (Qle_bool b a) eqn:E; [|reflexivity].
    apply Qle_bool_iff in E. exfalso. exact (Qlt_not_le _ _ H E).
Qed.

Lemma Qltb_ge a b : Qltb a b = false ↔ (b <= a)%Q.
Proof.
  unfold Qltb. rewrite negb_false_iff. apply Qle_bool_iff.
Qed.

Lemma insert_desc_split {A} (key : A → Q) x l :
  ∃ l1 l2, l = l1 ++ l2 ∧ insert_desc key x l = l1 ++ x :: l2 ∧
           Forall (λ y, (key x < key y)%Q) l1 ∧
           (match l2 with [] => True | y :: _ => (key y <= key x)%Q end).
Proof.
  induction l as [|y ys IH]; cbn [insert_desc].
  - exists [], []. repeat split; constructor.
  - destruct (Qltb (key x) (key y)) eqn:E.
    + destruct IH as (l1 & l2 & -> & -> & Hall & Hhd).
      exists (y :: l1), l2. repeat split; auto.
      constructor; [by apply Qltb_lt|exact Hall].
    + exists [], (y :: ys). repeat split; [constructor|by apply Qltb_ge].
Qed.

Lemma insert_desc_perm {A} (key : A → Q) x l :
  Permutation (insert_desc key x l) (x :: l).
Proof.
  destruct (insert_desc_split key x l) as (l1 & l2 & -> & -> & _).
  symmetry. apply Permutation_middle.
Qed.

Lemma sort_desc_perm {A} (key : A → Q) l : Permutation (sort_desc key l) l.
Proof.
  induction l as [|x xs IH]; cbn [sort_desc]; [constructor|].
  rewrite insert_desc_perm. by constructor.
Qed.

Lemma insert_desc_descending {A} (key : A → Q) x l :
  descending key l → descending key (insert_desc key x l).
Proof.
  unfold descending. intros Hs.
  destruct (insert_desc_split key x l) as (l1 & l2 & -> & -> & Hgt & Hhd).
  induction l1 as [|y l1 IH]; cbn [app] in *.
  - constructor; [exact Hs|].
    destruct l2 as [|z l2]; constructor; [exact Hhd|].
    apply StronglySorted_inv in Hs as [_ Hz].
    eapply Forall_impl; [exact Hz|]. cbn. intros a Ha.
    exact (Qle_trans _ _ _ Ha Hhd).
  - apply StronglySorted_inv in Hs as [Hs Hy]. inversion Hgt; subst.
    constructor; [by apply IH|].
    apply Forall_app in Hy as [Hy1 Hy2].
    apply Forall_app. split; [exact Hy1|].
    constructor; [by apply Qlt_le_weak|exact Hy2].
Qed.

Lemma sort_desc_descending {A} (key : A → Q) l : descending key (sort_desc key l).
Proof.
  induction l as [|x xs IH]; cbn [sort_desc]; [constructor|].
  by apply insert_desc_descending.
Qed.

Lemma insert_desc_ties {A} (key : A → Q) x l :
  ties_keep_order key (x :: l) (insert_desc key x l).
Proof.
  intros v.
  destruct (insert_desc_split key x l) as (l1 & l2 & -> & -> & Hgt & _).
  rewrite !List.filter_app. cbn [List.filter]. rewrite ?List.filter_app.
  destruct (Qeq_bool (key x) v) eqn:E; [|reflexivity].
  apply Qeq_bool_iff in E.
  assert (List.filter (λ y, Qeq_bool (key y) v) l1 = []) as ->; [|reflexivity].
  induction Hgt as [|y l1 Hy _ IH]; [reflexivity|]. cbn [List.filter].
  destruct (Qeq_bool (key y) v) eqn:E'; [|exact IH].
  apply Qeq_bool_iff in E'. rewrite E, E' in Hy. by apply Qlt_irrefl in Hy.
Qed.

Lemma sort_desc_ties {A} (key : A → Q) l : ties_keep_order key l (sort_desc key l).
Proof.
  induction l as [|x xs IH]; intros v; cbn [sort_desc]; [reflexivity|].
  rewrite insert_desc_ties. cbn [List.filter]. by rewrite IH.
Qed.

Lemma slice_to_length {A} (l : list A) k : 0 ≤ k → Z.of_nat (length (slice_to l k)) ≤ k.
Proof.
  intros Hk. unfold slice_to. destruct (Z.ltb_spec k 0); [lia|].
  rewrite length_firstn. lia.
Qed.

Lemma slice_to_nonempty {A} (l : list A) k : 1 ≤ k → l ≠ [] → slice_to l k ≠ [].
Proof.
  intros Hk Hl. unfold slice_to. destruct (Z.ltb_spec k 0); [lia|].
  destruct l as [|x l]; [congruence|].
  destruct (Z.to_nat k) eqn:E; [lia|]. discriminate.
Qed.

End PyList.

(** ** The retrieval engine: [services/retriever/retriever.py] *)
Module Retriever.
Import PyStr PyList.

Record Document := {
  source_id : string;
  title : string;
  url : string;
  content : string;
}.

(** The [tokens] property: [set(self.content.lower().split())]. *)
Definition tokens (d : Document) : gset string := token_set (lower (content d)).

(** [SimpleRetriever._score] *)
Definition _score (doc_tokens query_tokens : gset string) : Q :=
  if bool_decide (query_tokens = ∅) then 0%Q
  else (inject_Z (Z.of_nat (size (query_tokens ∩ doc_tokens)))
        / inject_Z (Z.of_nat (size query_tokens)))%Q.

(** The [for doc in self.documents] loop; [scores] is the list being
    appended to. *)
Fixpoint collect (documents : list Document) (query_tokens : gset string)
    (scores : list (Document * Q)) : list (Document * Q) :=
  match documents with
  | [] => scores
  | doc :: rest =>
      let score := _score (tokens doc) query_tokens in
      if Qltb 0 score then collect rest query_tokens (scores ++ [(doc, score)])
      else collect rest query_tokens scores
  end.

(** [SimpleRetriever.search]; [documents] is [self.documents]. *)
Definition search (documents : list Document) (query : string) (top_k : Z)
    : list (Document * Q) :=
  let query_tokens := token_set (lower query) in
  let scores := collect documents query_tokens [] in
  match scores with
  | [] => map (λ doc, (doc, 0%Q)) (slice_to documents top_k)
  | _ => slice_to (sort_desc snd scores) top_k
  end.

(** The candidates, in corpus load order: every document whose score is
    above 0, paired with that score. *)
Definition candidates (documents : list Document) (query : string) : list (Document * Q) :=
  let q := token_set (lower query) in
  map (λ d, (d, _score (tokens d) q))
      (List.filter (λ d, Qltb 0 (_score (tokens d) q)) documents).

Lemma collect_candidates documents q scores :
  collect documents q scores =
    scores ++ map (λ d, (d, _score (tokens d) q))
                  (List.filter (λ d, Qltb 0 (_score (tokens d) q)) documents).
Proof.
  revert scores. induction documents as [|d rest IH]; intros scores; cbn [collect List.filter].
  - by rewrite app_nil_r.
  - destruct (Qltb 0 (_score (tokens d) q)); [|apply IH].
    rewrite IH, <- app_assoc. reflexivity.
Qed.

Lemma search_unfold documents query top_k :
  search documents query top_k =
    match candidates documents query with
    | [] => map (λ doc, (doc, 0%Q)) (slice_to documents top_k)
    | _ => slice_to (sort_desc snd (candidates documents query)) top_k
    end.
Proof. unfold search. rewrite collect_candidates. reflexivity. Qed.

Lemma _score_eq (d q : gset string) :
  q ≠ ∅ →
  (_score d q == Z.of_nat (size (q ∩ d)) # Pos.of_nat (size q))%Q.
Proof.
  intros Hq. unfold _score. rewrite bool_decide_eq_false_2 by exact Hq.
  rewrite Qmake_Qdiv.
  assert (size q ≠ 0%nat) as Hn.
  { intros H. apply size_empty_iff in H. apply Hq. by apply leibniz_equiv. }
  replace (Z.pos (Pos.of_nat (size q))) with (Z.of_nat (size q)) by lia.
  reflexivity.
Qed.

(** A document is kept exactly when it shares a token with the query. *)
Lemma _score_positive (d q : gset string) :
  Qltb 0 (_score d q) = true ↔ q ∩ d ≠ ∅.
Proof.
  rewrite Qltb_lt. destruct (decide (q = ∅)) as [->|Hq].
  - unfold _score. rewrite bool_decide_eq_true_2 by reflexivity.
    split; [intros H; by apply Qlt_irrefl in H|].
    intros H. exfalso. apply H. apply intersection_empty_l_L.
  - rewrite (_score_eq d q Hq). unfold Qlt. cbn [Qnum Qden].
    rewrite Z.mul_1_r, Z.mul_0_l.
    split.
    + intros H Hempty. rewrite Hempty, size_empty in H. lia.
    + intros H. assert (size (q ∩ d) ≠ 0%nat); [|lia].
      intros Hz. apply size_empty_iff in Hz. apply H. by apply leibniz_equiv.
Qed.

Lemma _score_range (d q : gset string) : (0 <= _score d q <= 1)%Q.
Proof.
  destruct (decide (q = ∅)) as [->|Hq].
  - unfold _score. rewrite bool_decide_eq_true_2 by reflexivity. split; discriminate.
  - rewrite (_score_eq d q Hq). unfold Qle. cbn [Qnum Qden].
    assert (size (q ∩ d) ≤ size q)%nat by apply subseteq_size, intersection_subseteq_l.
    assert (size q ≠ 0%nat) as Hn.
    { intros Hz. apply size_empty_iff in Hz. apply Hq. by apply leibniz_equiv. }
    split; lia.
Qed.

(** C2.  [search] pairs every document with the overlap score
    [|query_tokens ∩ doc_tokens| / |query_tokens|] ([0] for a query without
    tokens), keeps the documents scoring above 0 (those sharing a token with
    the query), ranks them by score descending with ties in corpus load
    order, and returns the slice [[:top_k]] of the ranking; when no document
    scores above 0 it returns the slice [[:top_k]] of the corpus in load
    order, each with score 0.  The slice holds at most [top_k] items when
    [top_k >= 0], and for [top_k >= 1] a non-empty corpus never yields an
    empty result. *)
Theorem search_ranks_by_overlap (documents : list Document) (query : string) (top_k : Z) :
  let q := token_set (lower query) in
  let cands := candidates documents query in
  (∀ d, (q = ∅ → _score (tokens d) q = 0%Q) ∧
        (q ≠ ∅ → (_score (tokens d) q ==
                   Z.of_nat (size (q ∩ tokens d)) # Pos.of_nat (size q))%Q)) ∧
  (∀ d sc, (d, sc) ∈ cands ↔
           d ∈ documents ∧ sc = _score (tokens d) q ∧ (0 < sc)%Q) ∧
  ∃ ranked,
    Permutation ranked cands ∧ descending snd ranked ∧ ties_keep_order snd cands ranked ∧
    search documents query top_k =
      (match cands with
       | [] => map (λ d, (d, 0%Q)) (slice_to documents top_k)
       | _ => slice_to ranked top_k
       end) ∧
    (0 ≤ top_k → Z.of_nat (length (search documents query top_k)) ≤ top_k) ∧
    (1 ≤ top_k → documents ≠ [] → search documents query top_k ≠ []).
Proof.
  intros q cands. split; [|split].
  - intros d. split.
    + intros Hq. unfold _score. by rewrite bool_decide_eq_true_2.
    + apply _score_eq.
  - intros d sc. unfold cands, candidates. fold q.
    rewrite list_elem_of_In, in_map_iff. split.
    + intros (d' & [= <- <-] & Hin). apply filter_In in Hin as [Hin Hpos].
      split; [by apply list_elem_of_In|]. split; [reflexivity|by apply Qltb_lt].
    + intros (Hin & -> & Hpos). exists d. split; [reflexivity|].
      apply filter_In. split; [by apply list_elem_of_In|by apply Qltb_lt].
  - exists (sort_desc snd cands).
    split; [apply sort_desc_perm|]. split; [apply sort_desc_descending|].
    split; [apply sort_desc_ties|].
    assert (Hsearch : search documents query top_k =
      match cands with
      | [] => map (λ d, (d, 0%Q)) (slice_to documents top_k)
      | _ => slice_to (sort_desc snd cands) top_k
      end) by apply search_unfold.
    split; [exact Hsearch|]. rewrite Hsearch. split.
    + intros Hk. destruct cands; [rewrite length_map|]; by apply slice_to_length.
    + intros Hk Hdocs. destruct cands as [|c cs] eqn:Hc.
      * intros Hmap. apply map_eq_nil in Hmap. by apply (slice_to_nonempty documents top_k).
      * apply slice_to_nonempty; [exact Hk|]. intros Hnil.
        pose proof (sort_desc_perm snd (c :: cs)) as Hp. rewrite Hnil in Hp.
        by apply Permutation_nil_cons in Hp.
Qed.

(** With [top_k = 0] a corpus of one document yields no result at all, for a
    query that misses it as for one that matches it. *)
Lemma search_top_k_zero_is_empty :
  let documents := [ {| source_id := "fr"; title := "France"; url := "http://fr";
                        content := "Paris is the capital of France" |} ] in
  documents ≠ [] ∧
  search documents "lima" 0 = [] ∧
  search documents "paris" 0 = [].
Proof. intros documents. split; [discriminate|]. split; vm_compute; reflexivity. Qed.

End Retriever.

(** ** Exceptions: a small error monad for the code that can raise *)
Module Py.

Inductive exn :=
| ZeroDivisionError
| IndexError
| AttributeError
| TypeError
| OverflowError.

Inductive result (A : Type) : Type :=
| Return (a : A)
| Raise (e : exn).
Arguments Return {A} a.
Arguments Raise {A} e.

Global Instance result_ret : MRet result := λ A a, Return a.
Global Instance result_bind : MBind result := λ A B f m,
  match m with Return a => f a | Raise e => Raise e end.

(** [l[i]] addresses position [i], or [len(l) + i] when [i] is negative. *)
Definition position (n : nat) (i : Z) : option nat :=
  if (0 <=? i) && (i <? Z.of_nat n) then Some (Z.to_nat i)
  else if (- Z.of_nat n <=? i) && (i <? 0) then Some (Z.to_nat (Z.of_nat n + i))
  else None.

(** [l[i]] *)
Definition getitem {A} (l : list A) (i : Z) : result A :=
  match position (length l) i ≫= (l !!.) with
  | Some x => Return x
  | None => Raise IndexError
  end.

(** [l[i] = f(l[i])], as [l[i] += d] does. *)
Definition updateitem {A} (f : A → A) (l : list A) (i : Z) : result (list A) :=
  match position (length l) i with
  | Some k => Return (alter f k l)
  | None => Raise IndexError
  end.

(** [int(x)] of a float: truncation toward zero. *)
Definition int (x : Q) : Z := Z.quot (Qnum x) (Z.pos (Qden x)).

(** [sum] of a list of numbers, left to right from [0]. *)
Definition Qsum (l : list Q) : Q := fold_left Qplus l 0%Q.

End Py.

(** ** The metrics library: [eval/metrics.py] *)
Module Metrics.
Import PyStr Py.

(** The [verifier] entry of a sentence dictionary. *)
Record VerifierDict := {
  confidence : option Q;
  unsupported_spans : option (list (Z * Z));
}.

(** A sentence as [Sentence.dict()] gives it; an absent key is [None]. *)
Record SentenceDict := {
  text : option string;
  weight : option Q;
  verifier : option VerifierDict;
}.

(** [s.get("text", "")] *)
Definition get_text (s : SentenceDict) : string := default EmptyString (text s).

(** [s.get("weight", 1.0)] *)
Definition get_weight (s : SentenceDict) : Q := default 1%Q (weight s).

(** [s.get("verifier", {}).get("unsupported_spans", [])] *)
Definition get_spans (s : SentenceDict) : list (Z * Z) :=
  default [] (verifier s ≫= unsupported_spans).

(** [s.get("verifier", {}).get("confidence", 0.5)] *)
Definition get_confidence (s : SentenceDict) : Q :=
  default (1 # 2)%Q (verifier s ≫= confidence).

Definition _tokenize (text : string) : list string := split (strip text).

(** The test [start < span[1] and end > span[0]] on a token's
    [(start, end)]. *)
Definition overlaps (tok span : Z * Z) : bool :=
  (tok.1 <? span.2) && (tok.2 >? span.1).

(** The [for idx, token in enumerate(tokens)] loop of [_span_token_indices];
    the state is [(offset, positions)]. *)
Fixpoint span_loop (text : string) (span : Z * Z) (tokens : list string)
    (idx : nat) (offset : Z) (positions : list nat) : list nat :=
  match tokens with
  | [] => positions
  | token :: rest =>
      let start := find text token offset in
      let end_ := start + len token in
      let positions := if overlaps (start, end_) span then positions ++ [idx] else positions in
      span_loop text span rest (S idx) end_ positions
  end.

Definition _span_token_indices (text : string) (span : Z * Z) : list nat :=
  span_loop text span (_tokenize text) 0 0 [].

(** The two nested loops that fill [unsupported_token_idxs]. *)
Definition unsupported_token_idxs (text : string) (spans : list (Z * Z)) : gset nat :=
  fold_left (λ acc span,
               fold_left (λ acc idx, {[idx]} ∪ acc) (_span_token_indices text span) acc)
            spans ∅.

(** [total - len(unsupported_token_idxs)] *)
Definition supported_count (s : SentenceDict) : Z :=
  Z.of_nat (length (_tokenize (get_text s)))
  - Z.of_nat (size (unsupported_token_idxs (get_text s) (get_spans s))).

Definition total_count (s : SentenceDict) : Z :=
  Z.of_nat (length (_tokenize (get_text s))).

(** One turn of the loop of [support_weighted_accuracy] on [(num, den)]. *)
Definition swa_step (acc : Q * Q) (s : SentenceDict) : Q * Q :=
  ((acc.1 + get_weight s * inject_Z (supported_count s))%Q,
   (acc.2 + get_weight s * inject_Z (total_count s))%Q).

Definition support_weighted_accuracy (sentences : list SentenceDict) : Q :=
  let '(num, den) := fold_left swa_step sentences (0%Q, 0%Q) in
  if Qeq_bool den 0 then 0%Q else (num / den)%Q.

(** One turn of the loop of [no_evidence_rate] on [(unsupported, total)]. *)
Definition ner_step (acc : Z * Z) (s : SentenceDict) : Z * Z :=
  (acc.1 + Z.of_nat (size (unsupported_token_idxs (get_text s) (get_spans s))),
   acc.2 + total_count s).

Definition no_evidence_rate (sentences : list SentenceDict) : Q :=
  let '(unsupported, total) := fold_left ner_step sentences (0, 0) in
  if total =? 0 then 0%Q else (inject_Z unsupported / inject_Z total)%Q.

Definition contradiction_rate (sentences : list SentenceDict) : Q := 0%Q.

(** The three bucket lists of [calibration_error]. *)
Record buckets := {
  bucket_totals : list Z;
  bucket_supports : list Q;
  bucket_confidences : list Q;
}.

(** One turn of the first loop of [calibration_error]. *)
Definition ece_step (num_buckets : Z) (b : buckets) (s : SentenceDict) : result buckets :=
  let conf := get_confidence s in
  let idx := Z.min (int (conf * inject_Z num_buckets)) (num_buckets - 1) in
  let total_tokens := total_count s in
  if total_tokens =? 0 then Return b
  else
    let support_fraction := (inject_Z (supported_count s) / inject_Z total_tokens)%Q in
    totals ← updateitem (λ n, n + 1) (bucket_totals b) idx;
    supports ← updateitem (λ x, x + support_fraction)%Q (bucket_supports b) idx;
    confidences ← updateitem (λ x, x + conf)%Q (bucket_confidences b) idx;
    Return {| bucket_totals := totals; bucket_supports := supports;
              bucket_confidences := confidences |}.

Fixpoint ece_fill (num_buckets : Z) (b : buckets) (sentences : list SentenceDict)
    : result buckets :=
  match sentences with
  | [] => Return b
  | s :: rest => b' ← ece_step num_buckets b s; ece_fill num_buckets b' rest
  end.

(** One turn of the second loop, [for i in range(num_buckets)]. *)
Definition ece_term (b : buckets) (total_sentences : Z) (ece : Q) (i : nat) : result Q :=
  n ← getitem (bucket_totals b) (Z.of_nat i);
  if n =? 0 then Return ece
  else
    c ← getitem (bucket_confidences b) (Z.of_nat i);
    p ← getitem (bucket_supports b) (Z.of_nat i);
    let avg_conf := (c / inject_Z n)%Q in
    let avg_support := (p / inject_Z n)%Q in
    Return (ece + (inject_Z n / inject_Z total_sentences) * Qabs (avg_conf - avg_support))%Q.

Fixpoint ece_sum (b : buckets) (total_sentences : Z) (ece : Q) (range : list nat) : result Q :=
  match range with
  | [] => Return ece
  | i :: rest => ece' ← ece_term b total_sentences ece i; ece_sum b total_sentences ece' rest
  end.

Definition calibration_error (sentences : list SentenceDict) (num_buckets : Z) : result Q :=
  (* bucket_bounds = [i / num_buckets for i in range(num_buckets + 1)] *)
  if num_buckets =? 0 then Raise ZeroDivisionError
  else
    let n := Z.to_nat num_buckets in
    let b0 := {| bucket_totals := replicate n 0;
                 bucket_supports := replicate n 0%Q;
                 bucket_confidences := replicate n 0%Q |} in
    b ← ece_fill num_buckets b0 sentences;
    let total_sentences := fold_left Z.add (bucket_totals b) 0 in
    if total_sentences =? 0 then Return 0%Q
    else ece_sum b total_sentences 0%Q (seq 0 n).

(** *** The token spans, as the specification words them *)

(** Each token is looked up at its next occurrence from the end of the
    previous token's match on; the result is its [(start, end)]. *)
Fixpoint locate (text : string) (tokens : list string) (offset : Z) : list (Z * Z) :=
  match tokens with
  | [] => []
  | token :: rest =>
      let start := find text token offset in
      let end_ := start + len token in
      (start, end_) :: locate text rest end_
  end.

Definition token_spans (text : string) : list (Z * Z) :=
  locate text (_tokenize text) 0.

(** The tokens of a sentence that overlap some unsupported span, each
    counted once. *)
Definition unsupported_tokens (s : SentenceDict) : nat :=
  length (List.filter (λ tok, existsb (overlaps tok) (get_spans s))
                      (token_spans (get_text s))).

Fixpoint sumQ {A} (f : A → Q) (l : list A) : Q :=
  match l with
  | [] => 0%Q
  | x :: xs => (f x + sumQ f xs)%Q
  end.

(** Positions, counted from [idx], of the items of [ts] that satisfy [P]. *)
Fixpoint idxs_where {A} (P : A → bool) (ts : list A) (idx : nat) : list nat :=
  match ts with
  | [] => []
  | t :: rest => (if P t then [idx] else []) ++ idxs_where P rest (S idx)
  end.

Lemma span_loop_spec text span tokens idx offset positions :
  span_loop text span tokens idx offset positions =
    positions ++ idxs_where (λ tok, overlaps tok span) (locate text tokens offset) idx.
Proof.
  revert idx offset positions.
  induction tokens as [|token rest IH]; intros idx offset positions;
    cbn [span_loop locate idxs_where].
  - by rewrite app_nil_r.
  - rewrite IH. destruct (overlaps _ span); [by rewrite <- app_assoc|reflexivity].
Qed.

Lemma elem_of_idxs_where {A} (P : A → bool) ts idx i :
  i ∈ idxs_where P ts idx ↔ (idx ≤ i)%nat ∧ ∃ t, ts !! (i - idx)%nat = Some t ∧ P t = true.
Proof.
  revert idx. induction ts as [|t rest IH]; intros idx; cbn [idxs_where].
  - split; [by intros ?%elem_of_nil|]. intros (_ & t & Ht & _). discriminate.
  - rewrite elem_of_app, IH. split.
    + intros [Hhd | (Hle & t' & Ht' & HP)].
      * destruct (P t) eqn:HP; [|by apply elem_of_nil in Hhd].
        apply list_elem_of_singleton in Hhd as ->. split; [lia|].
        exists t. by rewrite Nat.sub_diag.
      * split; [lia|]. exists t'. split; [|exact HP].
        replace (i - idx)%nat with (S (i - S idx)) by lia. exact Ht'.
    + intros (Hle & t' & Ht' & HP).
      destruct (decide (i = idx)) as [->|Hne].
      * left. rewrite Nat.sub_diag in Ht'. injection Ht' as ->. rewrite HP.
        by apply list_elem_of_singleton.
      * right. split; [lia|]. exists t'. split; [|exact HP].
        replace (i - idx)%nat with (S (i - S idx)) in Ht' by lia. exact Ht'.
Qed.

Lemma NoDup_idxs_where {A} (P : A → bool) ts idx : NoDup (idxs_where P ts idx).
Proof.
  revert idx. induction ts as [|t rest IH]; intros idx; cbn [idxs_where].
  - constructor.
  - destruct (P t); [|apply IH]. cbn [app]. constructor; [|apply IH].
    rewrite elem_of_idxs_where. lia.
Qed.

Lemma length_idxs_where {A} (P : A → bool) ts idx :
  length (idxs_where P ts idx) = length (List.filter P ts).
Proof.
  revert idx. induction ts as [|t rest IH]; intros idx; cbn [idxs_where List.filter].
  - reflexivity.
  - destruct (P t); cbn [app length]; by rewrite IH.
Qed.

Lemma fold_add_idxs (l : list nat) (acc : gset nat) :
  fold_left (λ acc idx, {[idx]} ∪ acc) l acc = list_to_set l ∪ acc.
Proof.
  revert acc. induction l as [|i l IH]; intros acc; cbn [fold_left list_to_set].
  - by rewrite (left_id_L ∅ (∪)).
  - rewrite IH. apply set_eq. intros x. rewrite !elem_of_union. tauto.
Qed.

Lemma elem_of_fold_spans text spans (acc : gset nat) i :
  i ∈ fold_left (λ acc span,
         fold_left (λ acc idx, {[idx]} ∪ acc) (_span_token_indices text span) acc)
       spans acc
  ↔ i ∈ acc ∨ ∃ span, span ∈ spans ∧ i ∈ _span_token_indices text span.
Proof.
  revert acc. induction spans as [|sp spans IH]; intros acc; cbn [fold_left].
  - split; [by left|]. intros [H | (sp & Hsp & _)]; [exact H|by apply elem_of_nil in Hsp].
  - rewrite IH, fold_add_idxs, elem_of_union, elem_of_list_to_set. split.
    + intros [[H | H] | (sp' & Hin & H)].
      * right. exists sp. split; [by left|exact H].
      * by left.
      * right. exists sp'. split; [by right|exact H].
    + intros [H | (sp' & Hin & H)]; [left; by right|].
      apply elem_of_cons in Hin as [-> | Hin]; [left; by left|].
      right. exists sp'. by split.
Qed.

(** The set built by the nested loops holds exactly the positions of the
    tokens that overlap some span. *)
Lemma unsupported_token_idxs_spec text spans :
  unsupported_token_idxs text spans =
    list_to_set (idxs_where (λ tok, existsb (overlaps tok) spans) (token_spans text) 0).
Proof.
  apply set_eq. intros i. unfold unsupported_token_idxs.
  rewrite elem_of_fold_spans, elem_of_list_to_set, elem_of_idxs_where.
  unfold _span_token_indices. split.
  - intros [H | (sp & Hsp & H)]; [by apply not_elem_of_empty in H|].
    rewrite span_loop_spec in H. cbn [app] in H.
    apply elem_of_idxs_where in H as (Hle & t & Ht & HP).
    split; [exact Hle|]. exists t. split; [exact Ht|].
    apply existsb_exists. exists sp. split; [by apply list_elem_of_In|exact HP].
  - intros (Hle & t & Ht & HP). right.
    apply existsb_exists in HP as (sp & Hsp & HP).
    exists sp. split; [by apply list_elem_of_In|].
    rewrite span_loop_spec. cbn [app].
    apply elem_of_idxs_where. split; [exact Hle|]. by exists t.
Qed.

Lemma size_unsupported_token_idxs s :
  size (unsupported_token_idxs (get_text s) (get_spans s)) = unsupported_tokens s.
Proof.
  rewrite unsupported_token_idxs_spec.
  rewrite size_list_to_set by apply NoDup_idxs_where.
  apply length_idxs_where.
Qed.

Lemma length_locate text tokens offset : length (locate text tokens offset) = length tokens.
Proof.
  revert offset. induction tokens as [|t r IH]; intros offset; cbn [locate length];
    [reflexivity|by rewrite IH].
Qed.

Lemma swa_fold sentences (acc : Q * Q) :
  let r := fold_left swa_step sentences acc in
  (r.1 == acc.1 + sumQ (λ s, get_weight s * inject_Z (supported_count s)) sentences)%Q ∧
  (r.2 == acc.2 + sumQ (λ s, get_weight s * inject_Z (total_count s)) sentences)%Q.
Proof.
  revert acc. induction sentences as [|s rest IH]; intros acc; cbn [fold_left sumQ].
  - cbn. split; ring.
  - destruct (IH (swa_step acc s)) as [H1 H2]. cbn zeta. rewrite H1, H2.
    cbn [swa_step fst snd]. split; ring.
Qed.

Lemma sumQ_ext {A} (f g : A → Q) l : (∀ x, f x = g x) → sumQ f l = sumQ g l.
Proof. intros H. induction l as [|x l IH]; cbn [sumQ]; [reflexivity|by rewrite H, IH]. Qed.

(** *** Calibration error with a single bucket *)


(** Supported tokens over total tokens, by the overlap rule of SWA. *)
Definition support_fraction (s : SentenceDict) : Q :=
  (inject_Z (total_count s - Z.of_nat (unsupported_tokens s)) / inject_Z (total_count s))%Q.

Definition mean (l : list Q) : Q := (Qsum l / inject_Z (Z.of_nat (length l)))%Q.









(** *** Totality and range, as the answer service needs them *)

Lemma unsupported_tokens_le s :
  (unsupported_tokens s ≤ length (_tokenize (get_text s)))%nat.
Proof.
  unfold unsupported_tokens.
  etrans; [apply filter_length_le|]. unfold token_spans. by rewrite length_locate.
Qed.

Lemma sumQ_bounds {A} (f g : A → Q) l :
  Forall (λ x, 0 <= f x <= g x)%Q l → (0 <= sumQ f l <= sumQ g l)%Q.
Proof.
  intros Hfg. induction Hfg as [|x l [H0 H1] _ [IH0 IH1]]; cbn [sumQ].
  - split; apply Qle_refl.
  - split.
    + rewrite <- (Qplus_0_l 0). by apply Qplus_le_compat.
    + by apply Qplus_le_compat.
Qed.

Lemma swa_value (sentences : list SentenceDict) :
  let total s := Z.of_nat (length (_tokenize (get_text s))) in
  let supported s := total s - Z.of_nat (unsupported_tokens s) in
  let num := sumQ (λ s, get_weight s * inject_Z (supported s))%Q sentences in
  let den := sumQ (λ s, get_weight s * inject_Z (total s))%Q sentences in
  (support_weighted_accuracy sentences == if Qeq_bool den 0 then 0 else num / den)%Q.
Proof.
  intros total supported num den. unfold support_weighted_accuracy.
  destruct (swa_fold sentences (0%Q, 0%Q)) as [Hn Hd].
  destruct (fold_left swa_step sentences (0%Q, 0%Q)) as [n d].
  cbn [fst snd] in Hn, Hd. rewrite Qplus_0_l in Hn, Hd.
  assert (Hnum : (n == num)%Q).
  { rewrite Hn. unfold num. erewrite sumQ_ext; [reflexivity|].
    intros s. cbn beta. unfold supported_count, supported, total.
    by rewrite size_unsupported_token_idxs. }
  assert (Hden : (d == den)%Q) by exact Hd.
  destruct (Qeq_bool d 0) eqn:E, (Qeq_bool den 0) eqn:E'.
  - reflexivity.
  - apply Qeq_bool_iff in E. rewrite Hden in E. apply Qeq_bool_iff in E. congruence.
  - apply Qeq_bool_iff in E'. rewrite <- Hden in E'. apply Qeq_bool_iff in E'. congruence.
  - by rewrite Hnum, Hden.
Qed.

Lemma support_weighted_accuracy_range (sentences : list SentenceDict) :
  Forall (λ s, 0 <= get_weight s)%Q sentences →
  (0 <= support_weighted_accuracy sentences <= 1)%Q.
Proof.
  intros Hw.
  pose proof (swa_value sentences) as Heq. cbn zeta in Heq.
  rewrite Heq. clear Heq.
  set (den := sumQ _ sentences). set (num := sumQ _ sentences).
  assert (Hb : (0 <= num <= den)%Q).
  { apply sumQ_bounds. eapply Forall_impl; [exact Hw|]. intros s Hs. cbn beta in *.
    pose proof (unsupported_tokens_le s). split.
    - apply Qmult_le_0_compat; [exact Hs|].
      change 0%Q with (inject_Z 0). rewrite <- Zle_Qle. lia.
    - rewrite !(Qmult_comm (get_weight s)).
      apply Qmult_le_compat_r; [|exact Hs]. rewrite <- Zle_Qle. lia. }
  destruct Hb as [H0 H1].
  destruct (Qeq_bool den 0) eqn:E; [split; discriminate|].
  assert (Hpos : (0 < den)%Q).
  { assert (0 <= den)%Q as Hd by exact (Qle_trans _ _ _ H0 H1).
    apply Qle_lteq in Hd as [Hd | Hd]; [exact Hd|].
    symmetry in Hd. apply Qeq_bool_iff in Hd. congruence. }
  split.
  - apply Qle_shift_div_l; [exact Hpos|]. by rewrite Qmult_0_l.
  - apply Qle_shift_div_r; [exact Hpos|]. by rewrite Qmult_1_l.
Qed.

Definition well_sized (n : nat) (b : buckets) : Prop :=
  length (bucket_totals b) = n ∧ length (bucket_supports b) = n ∧
  length (bucket_confidences b) = n.

Lemma position_in_range (n : nat) (i : Z) :
  0 ≤ i < Z.of_nat n → position n i = Some (Z.to_nat i).
Proof.
  intros Hi. unfold position.
  destruct (Z.leb_spec 0 i); [|lia]. destruct (Z.ltb_spec i (Z.of_nat n)); [|lia].
  reflexivity.
Qed.

Lemma int_nonneg (x : Q) : (0 <= x)%Q → 0 ≤ int x.
Proof.
  destruct x as [a d]. unfold Qle, int. cbn [Qnum Qden]. intros H.
  apply Z.quot_pos; lia.
Qed.

Lemma ece_step_returns (num_buckets : Z) (b : buckets) (s : SentenceDict) :
  0 < num_buckets → (0 <= get_confidence s)%Q →
  well_sized (Z.to_nat num_buckets) b →
  ∃ b', ece_step num_buckets b s = Return b' ∧ well_sized (Z.to_nat num_buckets) b'.
Proof.
  intros Hn Hc (Ht & Hs & Hcf). unfold ece_step.
  destruct (total_count s =? 0); [by exists b|].
  set (idx := Z.min _ _).
  assert (Hidx : 0 ≤ idx < Z.of_nat (Z.to_nat num_buckets)).
  { unfold idx. assert (0 ≤ int (get_confidence s * inject_Z num_buckets)).
    { apply int_nonneg. apply Qmult_le_0_compat; [exact Hc|].
      change 0%Q with (inject_Z 0). rewrite <- Zle_Qle. lia. }
    lia. }
  unfold updateitem. rewrite Ht, Hs, Hcf, (position_in_range _ _ Hidx).
  cbn [mbind result_bind]. eexists. split; [reflexivity|].
  unfold well_sized. cbn [bucket_totals bucket_supports bucket_confidences].
  by rewrite !length_alter.
Qed.

Lemma ece_fill_returns (num_buckets : Z) (sentences : list SentenceDict) (b : buckets) :
  0 < num_buckets → Forall (λ s, (0 <= get_confidence s)%Q) sentences →
  well_sized (Z.to_nat num_buckets) b →
  ∃ b', ece_fill num_buckets b sentences = Return b' ∧
        well_sized (Z.to_nat num_buckets) b'.
Proof.
  intros Hn Hall. revert b.
  induction Hall as [|s rest Hs _ IH]; intros b Hb; cbn [ece_fill]; [by exists b|].
  destruct (ece_step_returns num_buckets b s Hn Hs Hb) as (b' & -> & Hb').
  cbn [mbind result_bind]. by apply IH.
Qed.

Lemma getitem_in_range {A} (l : list A) (i : nat) :
  (i < length l)%nat → ∃ x, getitem l (Z.of_nat i) = Return x.
Proof.
  intros Hi. unfold getitem. rewrite position_in_range by lia.
  cbn [mbind option_bind]. rewrite Nat2Z.id.
  destruct (lookup_lt_is_Some_2 l i Hi) as [x ->]. by exists x.
Qed.

Lemma ece_sum_returns (n : nat) (b : buckets) (total : Z) (range : list nat) (ece : Q) :
  well_sized n b → Forall (λ i, i < n)%nat range →
  ∃ v, ece_sum b total ece range = Return v.
Proof.
  intros (Ht & Hs & Hc) Hrange. revert ece.
  induction Hrange as [|i rest Hi _ IH]; intros ece; cbn [ece_sum]; [by exists ece|].
  unfold ece_term.
  destruct (getitem_in_range (bucket_totals b) i ltac:(lia)) as [x ->].
  destruct (getitem_in_range (bucket_confidences b) i ltac:(lia)) as [c ->].
  destruct (getitem_in_range (bucket_supports b) i ltac:(lia)) as [p ->].
  cbn [mbind result_bind]. destruct (x =? 0); cbn [mbind result_bind]; apply IH.
Qed.

(** With a positive number of buckets and no negative confidence,
    [calibration_error] raises nothing. *)
Lemma calibration_error_returns (sentences : list SentenceDict) (num_buckets : Z) :
  0 < num_buckets → Forall (λ s, (0 <= get_confidence s)%Q) sentences →
  ∃ ece, calibration_error sentences num_buckets = Return ece.
Proof.
  intros Hn Hall. unfold calibration_error.
  destruct (Z.eqb_spec num_buckets 0); [lia|].
  edestruct (ece_fill_returns num_buckets sentences) as (b & -> & Hb); [done..| |].
  { unfold well_sized. cbn. by rewrite !length_replicate. }
  cbn [mbind result_bind]. destruct (_ =? 0); [by eexists|].
  eapply ece_sum_returns; [exact Hb|].
  apply Forall_forall. intros i Hi%elem_of_seq. lia.
Qed.

End Metrics.


(** ** The shared contracts: [shared/schemas.py] *)
Module Schemas.
Import PyStr Json.

(** A [pattern="^(a|b|...)$"] constraint: the value is one of the
    alternatives. *)
Definition fullmatch (alternatives : list string) (s : string) : bool :=
  existsb (String.eqb s) alternatives.

(** [ge=lo, le=hi] on a float field. *)
Definition in_range (lo hi x : Q) : bool := Qle_bool lo x && Qle_bool x hi.

(** [List[Tuple[int, int]]] from a decoded value. *)
Definition validate_span `{Library} (j : json) : option (Z * Z) :=
  match j with
  | JArr [a; b] => x ← pydantic_int a; y ← pydantic_int b; Some (x, y)
  | _ => None
  end.

Definition validate_spans `{Library} (j : json) : option (list (Z * Z)) :=
  match j with
  | JArr items => mapM validate_span items
  | _ => None
  end.

Inductive Mode := fast | strict.

Module Citation.
Record t := { source_id : string; start : Z; end_ : Z }.
End Citation.

Module SentenceVerifierResult.
Record t := {
  label : string;
  confidence : Q;
  unsupported_spans : list (Z * Z);
}.

Definition label_pattern : list string :=
  ["entailed"; "weak"; "unsupported"; "contradicted"]%string.

(** [SentenceVerifierResult(label=..., confidence=..., unsupported_spans=...)];
    [None] is a [ValidationError]. *)
Definition validate `{Library} (label : json) (confidence : Q) (unsupported_spans : json)
    : option t :=
  l ← as_str label;
  if fullmatch label_pattern l && in_range 0 1 confidence then
    spans ← validate_spans unsupported_spans;
    Some {| label := l; confidence := confidence; unsupported_spans := spans |}
  else None.
End SentenceVerifierResult.

Module VerifierResponse.
Record t := {
  label : string;
  confidence : Q;
  unsupported_spans : list (Z * Z);
}.

Definition label_pattern : list string :=
  ["entailed"; "unsupported"; "contradicted"]%string.

Definition validate `{Library} (label : json) (confidence : Q) (unsupported_spans : json)
    : option t :=
  l ← as_str label;
  if fullmatch label_pattern l && in_range 0 1 confidence then
    spans ← validate_spans unsupported_spans;
    Some {| label := l; confidence := confidence; unsupported_spans := spans |}
  else None.
End VerifierResponse.

Module Sentence.
Record t := {
  text : string;
  citations : list Citation.t;
  verifier : SentenceVerifierResult.t;
  weight : Q;
}.

(** [Sentence(text=..., citations=..., verifier=...)]: the weight takes its
    default. *)
Definition make (text : string) (citations : list Citation.t)
    (verifier : SentenceVerifierResult.t) : t :=
  {| text := text; citations := citations; verifier := verifier; weight := 1 |}.
End Sentence.

Module Source.
Record t := { source_id : string; title : string; url : string; snippet : string }.

(** [Source(source_id=..., title=..., url=..., snippet=...)] on decoded
    values: the four fields are strings and the URL is a well-formed one. *)
Definition validate `{Library} (source_id title url snippet : json) : option t :=
  i ← as_str source_id; t ← as_str title; u ← as_str url ≫= http_url; s ← as_str snippet;
  Some {| source_id := i; title := t; url := u; snippet := s |}.
End Source.

Module AnswerRequest.
Record t := { query : string; mode : Mode; top_k : Z; trace_id : string }.

Definition validate_mode (j : option json) : option Mode :=
  match j with
  | None => Some fast
  | Some (JStr "fast") => Some fast
  | Some (JStr "strict") => Some strict
  | Some _ => None
  end.

Definition validate_top_k `{Library} (j : option json) : option Z :=
  match j with
  | None => Some 6
  | Some v => k ← pydantic_int v; if (1 <=? k) && (k <=? 10) then Some k else None
  end.

(** The request body against the model: [query] and [trace_id] are required
    strings, [mode] and [top_k] have defaults; [None] is a validation
    error. *)
Definition validate `{Library} (body : json) : option t :=
  items ← as_dict body;
  q ← assoc "query" items ≫= as_str;
  m ← validate_mode (assoc "mode" items);
  k ← validate_top_k (assoc "top_k" items);
  i ← assoc "trace_id" items ≫= as_str;
  Some {| query := q; mode := m; top_k := k; trace_id := i |}.
End AnswerRequest.

Module AnswerResponse.
Record t := {
  trace_id : string;
  answer_html : string;
  sentences : list Sentence.t;
  sources : list Source.t;
  confidence_overall : Q;
  metrics_snapshot : option (list (string * Q));
}.

(** The one constraint of the model, [confidence_overall] in [[0, 1]]. *)
Definition validate (r : t) : option t :=
  if in_range 0 1 (confidence_overall r) then Some r else None.
End AnswerResponse.

(** *** The two label patterns *)

Lemma fullmatch_elem_of alternatives s :
  fullmatch alternatives s = true ↔ s ∈ alternatives.
Proof.
  unfold fullmatch. rewrite existsb_exists. split.
  - intros (x & Hx & Heq). apply String.eqb_eq in Heq as ->. by apply list_elem_of_In.
  - intros H. exists s. split; [by apply list_elem_of_In|apply String.eqb_refl].
Qed.

(** C9.  The label [weak], which the verifier service
    emits, validates as a [SentenceVerifierResult] and is refused as a
    [VerifierResponse]; on every other string the two patterns agree. *)
Theorem verifier_response_refuses_weak `{Library} :
  (∀ c spans, in_range 0 1 c = true → is_Some (validate_spans spans) →
     is_Some (SentenceVerifierResult.validate (JStr "weak") c spans) ∧
     VerifierResponse.validate (JStr "weak") c spans = None) ∧
  (∀ l : string, l ≠ "weak"%string →
     fullmatch VerifierResponse.label_pattern l =
     fullmatch SentenceVerifierResult.label_pattern l).
Proof.
  split.
  - intros c spans Hc [sp Hsp]. split.
    + unfold SentenceVerifierResult.validate. cbn [as_str mbind option_bind].
      change (fullmatch _ "weak") with true. rewrite Hc, Hsp. cbn. eauto.
    + unfold VerifierResponse.validate. cbn [as_str mbind option_bind].
      change (fullmatch _ "weak") with false. reflexivity.
  - intros l Hl. unfold fullmatch, VerifierResponse.label_pattern,
      SentenceVerifierResult.label_pattern. cbn [existsb].
    destruct (String.eqb_spec l "weak"); [contradiction|]. reflexivity.
Qed.

End Schemas.

(** ** The answer service: [services/answer-api/main.py] *)
Module AnswerApi.
Import PyStr Py Json Http Schemas.

(** What [requests.post] does: it raises ([RequestException]: no connection,
    timeout, ...) or hands back a response with a status and a body, which
    may or may not be JSON. *)
Inductive reply :=
| RequestException
| Response (status_code : Z) (body : option json).

(** [raise_for_status()] raises on the 4xx and 5xx statuses. *)
Definition raises_for_status (status_code : Z) : bool :=
  (400 <=? status_code) && (status_code <? 600).

(** The JSON sent to the retriever. *)
Record SearchBody := {
  query : string;
  top_k : Z;
  trace_id : string;
  mode : Mode;
}.

(** The surroundings of one request: the identifier [uuid.uuid4()] draws, the
    retriever's reply, and the verifier's reply to the [n]-th call. *)
Class World := {
  uuid4 : string;
  retriever_post : SearchBody → reply;
  verifier_post : nat → Verifier.VerifyBody → reply;
}.

Record compose_state := {
  sentences : list Sentence.t;
  citations_map : gmap string Z;
  citation_counter : Z;
  answer_html_parts : list string;
}.

(** [Sentence.dict()], as the metrics read it. *)
Definition sentence_dict (s : Sentence.t) : Metrics.SentenceDict :=
  {| Metrics.text := Some (Sentence.text s);
     Metrics.weight := Some (Sentence.weight s);
     Metrics.verifier :=
       Some {| Metrics.confidence :=
                 Some (SentenceVerifierResult.confidence (Sentence.verifier s));
               Metrics.unsupported_spans :=
                 Some (SentenceVerifierResult.unsupported_spans (Sentence.verifier s)) |} |}.

(** [for s in sources_raw]: a list gives its items, a dict its keys, a string
    its characters; the other values are not iterable. *)
Definition iterate (j : json) : option (list json) :=
  match j with
  | JArr items => Some items
  | JObj items => Some (map (λ kv, JStr kv.1) items)
  | JStr s => Some (map (λ c, JStr (String c EmptyString)) (list_ascii_of_string s))
  | JNull | JBool _ | JInt _ | JFloat _ => None
  end.

(** *** Citation indices, as the specification words them *)

(** The distinct identifiers of [ids], in the order of their first use. *)
Fixpoint first_uses (ids : list string) : list string :=
  match ids with
  | [] => []
  | x :: rest => x :: List.filter (λ y, negb (String.eqb y x)) (first_uses rest)
  end.

(** The position of the first [x] in [l] (the length of [l] without one). *)
Fixpoint position_of (x : string) (l : list string) : nat :=
  match l with
  | [] => 0%nat
  | y :: rest => if String.eqb y x then 0%nat else S (position_of x rest)
  end.

(** Indices count from 1 along the order of first use. *)
Definition citation_index (order : list string) (sid : string) : Z :=
  Z.of_nat (position_of sid order) + 1.

(** The identifiers seen so far, extended along [ids]; this is what the
    loop's dictionary grows by. *)
Fixpoint first_uses_go (seen ids : list string) : list string :=
  match ids with
  | [] => seen
  | x :: rest =>
      first_uses_go (if bool_decide (x ∈ seen) then seen else seen ++ [x]) rest
  end.

Lemma filter_filter_andb {A} (f g : A → bool) (l : list A) :
  List.filter f (List.filter g l) = List.filter (λ x, g x && f x) l.
Proof.
  induction l as [|x l IH]; [reflexivity|]. cbn [List.filter].
  destruct (g x); cbn [List.filter andb]; [destruct (f x)|]; by rewrite IH.
Qed.

Lemma eqb_decide (x y : string) : String.eqb x y = bool_decide (x = y).
Proof.
  destruct (String.eqb_spec x y) as [->|Hne];
    [by rewrite bool_decide_eq_true_2|by rewrite bool_decide_eq_false_2].
Qed.

Lemma elem_of_app_bool (y : string) (l1 l2 : list string) :
  bool_decide (y ∈ l1 ++ l2) = bool_decide (y ∈ l1) || bool_decide (y ∈ l2).
Proof.
  destruct (decide (y ∈ l1)) as [H1|H1], (decide (y ∈ l2)) as [H2|H2];
    rewrite ?(bool_decide_eq_true_2 _ H1), ?(bool_decide_eq_true_2 _ H2),
            ?(bool_decide_eq_false_2 _ H1), ?(bool_decide_eq_false_2 _ H2); cbn [orb];
    [apply bool_decide_eq_true_2..|apply bool_decide_eq_false_2];
    rewrite elem_of_app; tauto.
Qed.

Lemma first_uses_go_spec (seen ids : list string) :
  first_uses_go seen ids =
    seen ++ List.filter (λ y, negb (bool_decide (y ∈ seen))) (first_uses ids).
Proof.
  revert seen. induction ids as [|x rest IH]; intros seen; cbn [first_uses_go first_uses].
  - by rewrite app_nil_r.
  - rewrite IH. cbn [List.filter]. case_bool_decide as Hx; cbn [negb].
    + f_equal. rewrite filter_filter_andb. apply List.filter_ext. intros y.
      rewrite eqb_decide. destruct (decide (y = x)) as [->|Hne].
      * rewrite (bool_decide_eq_true_2 (x ∈ seen)) by exact Hx.
        cbn [negb]. by rewrite andb_false_r.
      * rewrite (bool_decide_eq_false_2 (y = x)) by exact Hne. reflexivity.
    + rewrite <- app_assoc. cbn [app]. do 2 f_equal.
      rewrite filter_filter_andb. apply List.filter_ext. intros y.
      rewrite eqb_decide, elem_of_app_bool. destruct (decide (y = x)) as [->|Hne].
      * rewrite (bool_decide_eq_true_2 (x = x)) by reflexivity.
        rewrite (bool_decide_eq_true_2 (x ∈ [x])) by apply list_elem_of_here.
        by rewrite orb_true_r.
      * rewrite (bool_decide_eq_false_2 (y = x)) by exact Hne.
        rewrite (bool_decide_eq_false_2 (y ∈ [x])) by (by intros ?%list_elem_of_singleton).
        by rewrite orb_false_r.
Qed.

Lemma first_uses_go_nil (ids : list string) : first_uses_go [] ids = first_uses ids.
Proof.
  rewrite first_uses_go_spec. cbn [app].
  rewrite (List.filter_ext _ (λ _, true)).
  - induction (first_uses ids) as [|x l IH]; [reflexivity|]. cbn [List.filter]. by rewrite IH.
  - intros y. rewrite bool_decide_eq_false_2; [reflexivity|]. apply not_elem_of_nil.
Qed.

Lemma elem_of_first_uses (x : string) (ids : list string) :
  x ∈ first_uses ids ↔ x ∈ ids.
Proof.
  induction ids as [|y rest IH]; cbn [first_uses]; [reflexivity|].
  rewrite !elem_of_cons, list_elem_of_In, filter_In, <- list_elem_of_In, IH.
  rewrite negb_true_iff, eqb_decide. split.
  - intros [-> | [Hin _]]; [by left|by right].
  - intros [-> | Hin]; [by left|].
    destruct (decide (x = y)) as [->|Hne]; [by left|].
    right. split; [exact Hin|]. by apply bool_decide_eq_false_2.
Qed.

Lemma NoDup_first_uses (ids : list string) : NoDup (first_uses ids).
Proof.
  induction ids as [|y rest IH]; cbn [first_uses]; constructor.
  - rewrite list_elem_of_In, filter_In, String.eqb_refl. intros [_ Hf]. discriminate.
  - apply NoDup_ListNoDup, List.NoDup_filter, NoDup_ListNoDup, IH.
Qed.

Lemma position_of_app (x : string) (l ext : list string) :
  x ∈ l → position_of x (l ++ ext) = position_of x l.
Proof.
  induction l as [|y l IH]; cbn [app position_of]; [by intros ?%elem_of_nil|].
  intros Hin. destruct (String.eqb_spec y x) as [->|Hne]; [reflexivity|].
  apply elem_of_cons in Hin as [-> | Hin]; [congruence|]. by rewrite IH.
Qed.

Lemma position_of_fresh (x : string) (l ext : list string) :
  x ∉ l → position_of x (l ++ x :: ext) = length l.
Proof.
  induction l as [|y l IH]; cbn [app position_of length]; intros Hnin.
  - by rewrite String.eqb_refl.
  - apply not_elem_of_cons in Hnin as [Hne Hnin].
    destruct (String.eqb_spec y x) as [->|_]; [congruence|]. by rewrite IH.
Qed.

Lemma position_of_lookup (l : list string) (k : nat) (x : string) :
  NoDup l → l !! k = Some x → position_of x l = k.
Proof.
  intros Hnd Hk. apply list_elem_of_split_length in Hk as (l1 & l2 & -> & ->).
  apply position_of_fresh. apply NoDup_app in Hnd as (_ & Hdisj & _).
  intros Hin. apply (Hdisj x Hin). by left.
Qed.

Section Service.
Context `{Library} `{World}.

(** The body of the [try] that turns one raw result into a [Source]; [None]
    when it raises. *)
Definition parse_source (s : json) : option Source.t :=
  items ← as_dict s;
  i ← assoc "source_id" items;
  t ← assoc "title" items;
  u ← assoc "url" items;
  Source.validate i t u (default (JStr "") (assoc "snippet" items)).

(** Steps 1 and 2 of the handler: the retriever call and the conversion of
    its results. *)
Definition fetch_sources (request : AnswerRequest.t) (trace_id : string)
    : response (list Source.t) :=
  match retriever_post {| query := AnswerRequest.query request;
                          top_k := AnswerRequest.top_k request;
                          trace_id := trace_id;
                          mode := AnswerRequest.mode request |} with
  | RequestException => HTTPException 502 "Retriever error"
  | Response status_code body =>
      if raises_for_status status_code then HTTPException 502 "Retriever error"
      else
        match body ≫= as_dict with
        | None => InternalServerError
        | Some data =>
            match iterate (default (JArr []) (assoc "results" data)) with
            | None => InternalServerError
            | Some sources_raw =>
                match omap parse_source sources_raw with
                | [] => HTTPException 404 "No sources found"
                | sources => Ok sources
                end
            end
        end
  end.

(** [content.split(".")[0].strip()] *)
Definition first_sentence (src : Source.t) : string :=
  strip (before_sep "." (Source.snippet src)).

(** [f"{first_sent} <sup>[{citation_idx}]</sup>."] *)
Definition sent_html (first_sent : string) (citation_idx : Z) : string :=
  (first_sent ++ " <sup>[" ++ pretty citation_idx ++ "]</sup>.")%string.

(** The body of the [try] around the verifier call; [None] when it raises. *)
Definition build_result (ver_json : json) : option SentenceVerifierResult.t :=
  items ← as_dict ver_json;
  confidence ← py_float (default (JFloat (1 # 2)) (assoc "confidence" items));
  SentenceVerifierResult.validate
    (default (JStr "unsupported") (assoc "label" items))
    confidence
    (default (JArr []) (assoc "unsupported_spans" items)).

(** The JSON sent to the verifier: the sentence and one evidence item. *)
Definition verifier_body (first_sent : string) (src : Source.t) : Verifier.VerifyBody :=
  {| Verifier.sentence := Some (JStr first_sent);
     Verifier.evidence :=
       Some (JArr [ JObj [("text", JStr (Source.snippet src));
                          ("url", JStr (Source.url src))]%string ]) |}.

Definition try_verify (n : nat) (first_sent : string) (src : Source.t)
    : option SentenceVerifierResult.t :=
  match verifier_post n (verifier_body first_sent src) with
  | RequestException => None
  | Response status_code body =>
      if raises_for_status status_code then None else body ≫= build_result
  end.

(** The result of the [except] branch. *)
Definition default_unsupported (first_sent : string) : SentenceVerifierResult.t :=
  {| SentenceVerifierResult.label := "unsupported";
     SentenceVerifierResult.confidence := 0;
     SentenceVerifierResult.unsupported_spans := [(0, len first_sent)] |}.

(** One turn of [for idx, src in enumerate(sources)]. *)
Definition step (st : compose_state) (src : Source.t) : compose_state :=
  let first_sent := first_sentence src in
  if is_empty first_sent then st
  else
    let sid := Source.source_id src in
    let '(cmap, counter) :=
      match citations_map st !! sid with
      | None => (<[sid := citation_counter st]> (citations_map st), citation_counter st + 1)
      | Some _ => (citations_map st, citation_counter st)
      end in
    let citation_idx := cmap !!! sid in
    let citation := {| Citation.source_id := sid; Citation.start := 0;
                       Citation.end_ := len first_sent |} in
    let verifier_result :=
      default (default_unsupported first_sent)
              (try_verify (length (sentences st)) first_sent src) in
    {| sentences :=
         sentences st ++ [Sentence.make (first_sent ++ ".") [citation] verifier_result];
       citations_map := cmap;
       citation_counter := counter;
       answer_html_parts := answer_html_parts st ++ [sent_html first_sent citation_idx] |}.

Definition initial : compose_state :=
  {| sentences := []; citations_map := ∅; citation_counter := 1; answer_html_parts := [] |}.

(** Steps 3 to 6: the answer built from the validated sources. *)
Definition compose (trace_id : string) (sources : list Source.t)
    : response AnswerResponse.t :=
  let st := fold_left step sources initial in
  let answer_html := String.concat " " (answer_html_parts st) in
  let dicts := map sentence_dict (sentences st) in
  let swa := Metrics.support_weighted_accuracy dicts in
  let ner := Metrics.no_evidence_rate dicts in
  let cr := Metrics.contradiction_rate dicts in
  match Metrics.calibration_error dicts 10 with
  | Raise _ => InternalServerError
  | Return ece =>
      match AnswerResponse.validate
              {| AnswerResponse.trace_id := trace_id;
                 AnswerResponse.answer_html := ("<p>" ++ answer_html ++ "</p>")%string;
                 AnswerResponse.sentences := sentences st;
                 AnswerResponse.sources := sources;
                 AnswerResponse.confidence_overall := swa;
                 AnswerResponse.metrics_snapshot :=
                   Some [("support_rate", swa); ("ner", ner); ("cr", cr);
                         ("ece", ece)]%string |} with
      | None => InternalServerError
      | Some r => Ok r
      end
  end.

(** [request.trace_id or str(uuid.uuid4())] *)
Definition effective_trace_id (request : AnswerRequest.t) : string :=
  if is_empty (AnswerRequest.trace_id request) then uuid4
  else AnswerRequest.trace_id request.

(** The handler of [POST /v1/answer]. *)
Definition answer (request : AnswerRequest.t) : response AnswerResponse.t :=
  let trace_id := effective_trace_id request in
  match fetch_sources request trace_id with
  | Ok sources => compose trace_id sources
  | HTTPException status_code detail => HTTPException status_code detail
  | RequestValidationError => RequestValidationError
  | InternalServerError => InternalServerError
  end.

(** The endpoint: the body is validated against [AnswerRequest] before the
    handler runs. *)
Definition post_answer (body : json) : response AnswerResponse.t :=
  match AnswerRequest.validate body with
  | None => RequestValidationError
  | Some request => answer request
  end.

(** *** The sentences of the answer *)

(** The sources that yield a sentence. *)
Definition kept (sources : list Source.t) : list Source.t :=
  List.filter (λ src, negb (is_empty (first_sentence src))) sources.

(** The sentence the loop appends for a kept source, when [n] sentences
    stand before it. *)
Definition verified (n : nat) (src : Source.t) : Sentence.t :=
  let first_sent := first_sentence src in
  Sentence.make (first_sent ++ ".")
    [ {| Citation.source_id := Source.source_id src; Citation.start := 0;
         Citation.end_ := len first_sent |} ]
    (default (default_unsupported first_sent) (try_verify n first_sent src)).

Fixpoint verified_from (n : nat) (srcs : list Source.t) : list Sentence.t :=
  match srcs with
  | [] => []
  | src :: rest => verified n src :: verified_from (S n) rest
  end.

Lemma step_sentences st src :
  sentences (step st src) =
    sentences st ++ (if is_empty (first_sentence src) then []
                     else [verified (length (sentences st)) src]).
Proof.
  unfold step. destruct (is_empty (first_sentence src)); [by rewrite app_nil_r|].
  destruct (citations_map st !! Source.source_id src); reflexivity.
Qed.

Lemma sentences_fold sources st :
  sentences (fold_left step sources st) =
    sentences st ++ verified_from (length (sentences st)) (kept sources).
Proof.
  revert st. induction sources as [|src rest IH]; intros st; cbn [fold_left kept List.filter].
  - by rewrite app_nil_r.
  - rewrite IH, step_sentences. fold (kept rest).
    destruct (is_empty (first_sentence src)); cbn [negb verified_from].
    + by rewrite app_nil_r.
    + rewrite length_app, <- app_assoc. cbn [length app].
      by rewrite Nat.add_1_r.
Qed.

Lemma length_verified_from n srcs : length (verified_from n srcs) = length srcs.
Proof.
  revert n. induction srcs as [|src rest IH]; intros n; cbn [verified_from length];
    [reflexivity|by rewrite IH].
Qed.

Lemma lookup_verified_from n srcs i src :
  srcs !! i = Some src → verified_from n srcs !! i = Some (verified (n + i) src).
Proof.
  revert n i. induction srcs as [|s0 rest IH]; intros n i Hi; [discriminate|].
  destruct i as [|i]; cbn [verified_from].
  - injection Hi as ->. by rewrite Nat.add_0_r.
  - change (verified_from (S n) rest !! i = Some (verified (n + S i) src)).
    rewrite (IH (S n) i Hi). do 2 f_equal. lia.
Qed.

Lemma validate_in_range label confidence spans (r : SentenceVerifierResult.t) :
  SentenceVerifierResult.validate label confidence spans = Some r →
  in_range 0 1 (SentenceVerifierResult.confidence r) = true.
Proof.
  unfold SentenceVerifierResult.validate.
  destruct (as_str label) as [l|]; [|discriminate]. cbn [mbind option_bind].
  destruct (fullmatch _ l); [|discriminate]. cbn [andb].
  destruct (in_range 0 1 confidence) eqn:E; [|discriminate].
  destruct (validate_spans spans); [|discriminate]. cbn. by intros [= <-].
Qed.

Lemma verified_sound n src :
  Sentence.weight (verified n src) = 1%Q ∧
  in_range 0 1 (SentenceVerifierResult.confidence (Sentence.verifier (verified n src))) = true.
Proof.
  split; [reflexivity|]. unfold verified. cbn [Sentence.make Sentence.verifier].
  unfold try_verify. destruct (verifier_post n _) as [|status_code body]; [reflexivity|].
  destruct (raises_for_status status_code); [reflexivity|].
  destruct body as [j|]; [|reflexivity]. cbn [mbind option_bind].
  unfold build_result. destruct (as_dict j) as [items|]; [|reflexivity].
  cbn [mbind option_bind]. destruct (py_float _) as [c|]; [|reflexivity].
  cbn [mbind option_bind].
  destruct (SentenceVerifierResult.validate _ c _) as [r|] eqn:E; [|reflexivity].
  cbn [default]. by eapply validate_in_range.
Qed.

Lemma Forall_verified_from n srcs :
  Forall (λ s, Sentence.weight s = 1%Q ∧
               in_range 0 1 (SentenceVerifierResult.confidence (Sentence.verifier s)) = true)
         (verified_from n srcs).
Proof.
  revert n. induction srcs as [|src rest IH]; intros n; cbn [verified_from];
    constructor; [apply verified_sound|apply IH].
Qed.

Lemma in_range_spec lo hi x : in_range lo hi x = true ↔ (lo <= x <= hi)%Q.
Proof. unfold in_range. by rewrite andb_true_iff, !Qle_bool_iff. Qed.

(** Whatever the verifier does, the composition of the answer goes
    through. *)
Lemma compose_succeeds trace_id sources :
  ∃ resp, compose trace_id sources = Ok resp ∧
    AnswerResponse.trace_id resp = trace_id ∧
    AnswerResponse.sources resp = sources ∧
    AnswerResponse.sentences resp = verified_from 0 (kept sources) ∧
    AnswerResponse.answer_html resp =
      ("<p>" ++ String.concat " " (answer_html_parts (fold_left step sources initial))
       ++ "</p>")%string.
Proof.
  unfold compose.
  pose proof (sentences_fold sources initial) as Hs. cbn [initial sentences app length] in Hs.
  rewrite Hs.
  set (dicts := map sentence_dict _).
  pose proof (Forall_verified_from 0 (kept sources)) as Hall.
  destruct (Metrics.calibration_error_returns dicts 10) as [ece ->]; [lia| |].
  { unfold dicts. apply Forall_map. eapply Forall_impl; [exact Hall|].
    intros s [_ Hc]. by apply in_range_spec in Hc as [Hc _]. }
  unfold AnswerResponse.validate. cbn [AnswerResponse.confidence_overall].
  assert (Hswa : in_range 0 1 (Metrics.support_weighted_accuracy dicts) = true).
  { apply in_range_spec, Metrics.support_weighted_accuracy_range.
    unfold dicts. apply Forall_map. eapply Forall_impl; [exact Hall|].
    intros s [Hw _]. unfold Metrics.get_weight. cbn. rewrite Hw. discriminate. }
  rewrite Hswa. eexists. split; [reflexivity|]. cbn. by repeat split.
Qed.

Lemma validate_spans_bad (spans : list json) (sp : json) :
  sp ∈ spans →
  (∀ a b x y, ¬ (sp = JArr [a; b] ∧ pydantic_int a = Some x ∧ pydantic_int b = Some y)) →
  validate_spans (JArr spans) = None.
Proof.
  intros Hin Hbad. cbn [validate_spans].
  destruct (mapM validate_span spans) as [k|] eqn:Hk; [|reflexivity].
  apply mapM_Some in Hk.
  apply list_elem_of_lookup in Hin as [i Hi].
  destruct (Forall2_lookup_l _ _ _ i sp Hk Hi) as (y & _ & Hy).
  destruct sp as [| | | | |[|a [|b [|c rest]]]|]; try discriminate.
  cbn [validate_span] in Hy.
  destruct (pydantic_int a) as [x|] eqn:Ha; [|discriminate].
  destruct (pydantic_int b) as [z|] eqn:Hb; [|discriminate].
  destruct (Hbad a b x z). by repeat split.
Qed.

(** A body whose label, confidence or spans are outside the contract makes
    no [SentenceVerifierResult]. *)
Lemma build_result_bad (items : list (string * json)) :
  match assoc "label" items with
  | None => False
  | Some (JStr l) => l ∉ ["entailed"; "weak"; "unsupported"; "contradicted"]%string
  | Some _ => True
  end ∨
  match assoc "confidence" items with
  | None => False
  | Some c => match py_float c with
              | None => True
              | Some q => ¬ (0 <= q <= 1)%Q
              end
  end ∨
  match assoc "unsupported_spans" items with
  | None => False
  | Some (JArr spans) =>
      ∃ sp, sp ∈ spans ∧
        ∀ a b x y, ¬ (sp = JArr [a; b] ∧ pydantic_int a = Some x ∧ pydantic_int b = Some y)
  | Some _ => True
  end →
  build_result (JObj items) = None.
Proof.
  intros Hbad. unfold build_result. cbn [as_dict mbind option_bind].
  destruct (py_float (default (JFloat (1 # 2)) (assoc "confidence" items))) as [q|] eqn:Hq;
    [|reflexivity].
  cbn [mbind option_bind]. unfold SentenceVerifierResult.validate.
  destruct (as_str (default (JStr "unsupported") (assoc "label" items))) as [l|] eqn:Hl;
    [|reflexivity].
  cbn [mbind option_bind].
  destruct (fullmatch SentenceVerifierResult.label_pattern l) eqn:Hm; [|reflexivity].
  destruct (in_range 0 1 q) eqn:Hr; [|reflexivity]. cbn [andb].
  destruct (validate_spans (default (JArr []) (assoc "unsupported_spans" items)))
    as [spans|] eqn:Hs; [|reflexivity].
  exfalso. destruct Hbad as [Hb|[Hb|Hb]].
  - destruct (assoc "label" items) as [[| | | |l'| |]|]; try done; try discriminate.
    cbn [from_option id as_str] in Hl. injection Hl as ->.
    apply fullmatch_elem_of in Hm. contradiction.
  - destruct (assoc "confidence" items) as [c|]; [|done]. cbn [from_option id] in Hq.
    rewrite Hq in Hb. by apply in_range_spec in Hr.
  - destruct (assoc "unsupported_spans" items) as [[| | | | |l'|]|]; try done;
      try discriminate.
    cbn [from_option id] in Hs. destruct Hb as (sp & Hin & Hbad).
    by rewrite (validate_spans_bad l' sp Hin Hbad) in Hs.
Qed.

(** C4.  Once the retriever has delivered sources, [POST /v1/answer]
    answers successfully whatever the verifier does: every source with a
    non-empty first sentence gives one sentence, in order.  The sentence
    whose verifier call fails carries [unsupported], confidence 0 and the
    full-sentence span [(0, len first_sent)]; a call fails when
    [requests.post] raises, when the status is a 4xx or a 5xx, when the body
    is not JSON or not an object, when its [label] is not one of the four
    labels, when its [confidence] is not a number between 0 and 1, or when
    its [unsupported_spans] is not a list of pairs of integers. *)
Theorem verifier_failure_degrades (request : AnswerRequest.t) (sources : list Source.t) :
  fetch_sources request (effective_trace_id request) = Ok sources →
  let first src := strip (before_sep "." (Source.snippet src)) in
  let kept_sources := List.filter (λ src, negb (is_empty (first src))) sources in
  let sent_json src :=
    {| Verifier.sentence := Some (JStr (first src));
       Verifier.evidence :=
         Some (JArr [ JObj [("text", JStr (Source.snippet src));
                            ("url", JStr (Source.url src))]%string ]) |} in
  let bad_label items :=
    match assoc "label" items with
    | None => False
    | Some (JStr l) => l ∉ ["entailed"; "weak"; "unsupported"; "contradicted"]%string
    | Some _ => True
    end in
  let bad_confidence items :=
    match assoc "confidence" items with
    | None => False
    | Some c => match py_float c with
                | None => True
                | Some q => ¬ (0 <= q <= 1)%Q
                end
    end in
  let bad_spans items :=
    match assoc "unsupported_spans" items with
    | None => False
    | Some (JArr spans) =>
        ∃ sp, sp ∈ spans ∧
          ∀ a b x y, ¬ (sp = JArr [a; b] ∧ pydantic_int a = Some x ∧ pydantic_int b = Some y)
    | Some _ => True
    end in
  let failed n src :=
    match verifier_post n (sent_json src) with
    | RequestException => True
    | Response status_code body =>
        400 ≤ status_code < 600 ∨
        match body with
        | Some (JObj items) => bad_label items ∨ bad_confidence items ∨ bad_spans items
        | _ => True
        end
    end in
  ∃ resp, answer request = Ok resp ∧
    length (AnswerResponse.sentences resp) = length kept_sources ∧
    ∀ n src, kept_sources !! n = Some src →
      ∃ sent, AnswerResponse.sentences resp !! n = Some sent ∧
        Sentence.text sent = (first src ++ ".")%string ∧
        (failed n src →
           SentenceVerifierResult.label (Sentence.verifier sent) = "unsupported"%string ∧
           SentenceVerifierResult.confidence (Sentence.verifier sent) = 0%Q ∧
           SentenceVerifierResult.unsupported_spans (Sentence.verifier sent)
             = [(0, len (first src))]).
Proof.
  intros Hfetch first kept_sources sent_json bad_label bad_confidence bad_spans failed.
  unfold answer. rewrite Hfetch.
  destruct (compose_succeeds (effective_trace_id request) sources)
    as (resp & -> & _ & _ & Hsent & _).
  exists resp. split; [reflexivity|]. rewrite Hsent. split; [apply length_verified_from|].
  intros n src Hn. change (kept sources !! n = Some src) in Hn. exists (verified n src).
  split; [by rewrite (lookup_verified_from 0 _ n src Hn)|].
  split; [reflexivity|]. intros Hfail.
  assert (try_verify n (first_sentence src) src = None) as Htry.
  { unfold try_verify. unfold failed in Hfail.
    change (verifier_body (first_sentence src) src) with (sent_json src).
    destruct (verifier_post n (sent_json src)) as [|status_code body]; [reflexivity|].
    destruct (raises_for_status status_code) eqn:Hst; [reflexivity|].
    destruct Hfail as [Hfail|Hbody].
    { unfold raises_for_status in Hst. apply andb_false_iff in Hst as [Hst|Hst];
        [apply Z.leb_gt in Hst|apply Z.ltb_ge in Hst]; lia. }
    destruct body as [[| | | | | |items]|]; try reflexivity.
    cbn [mbind option_bind]. apply build_result_bad.
    destruct Hbody as [Hl|[Hc|Hs]]; [left|right; left|right; right]; assumption. }
  unfold verified. cbn [Sentence.make Sentence.verifier]. rewrite Htry.
  by repeat split.
Qed.

(** *** The citation markers *)

(** The dictionary and the counter after the identifiers [seen] have been
    met, in that order. *)
Definition cite_inv (seen : list string) (st : compose_state) : Prop :=
  citation_counter st = Z.of_nat (length seen) + 1 ∧
  ∀ sid, citations_map st !! sid =
         if bool_decide (sid ∈ seen) then Some (citation_index seen sid) else None.

(** The fragment of a kept source under a given order of first use. *)
Definition fragment (order : list string) (src : Source.t) : string :=
  sent_html (first_sentence src) (citation_index order (Source.source_id src)).

Lemma citation_index_prefix seen ids sid :
  sid ∈ seen → citation_index (first_uses_go seen ids) sid = citation_index seen sid.
Proof.
  intros Hin. unfold citation_index. rewrite first_uses_go_spec.
  by rewrite position_of_app.
Qed.

Lemma step_seen seen st src :
  cite_inv seen st → is_empty (first_sentence src) = false →
  Source.source_id src ∈ seen →
  cite_inv seen (step st src) ∧
  answer_html_parts (step st src) = answer_html_parts st ++ [fragment seen src].
Proof.
  intros [Hc Hm] Hfs Hin. unfold step. rewrite Hfs.
  pose proof (Hm (Source.source_id src)) as Hl.
  rewrite bool_decide_eq_true_2 in Hl by exact Hin. rewrite Hl.
  cbn [citations_map citation_counter answer_html_parts].
  split; [by split|]. cbn [citations_map citation_counter answer_html_parts].
  unfold fragment. by rewrite lookup_total_alt, Hl.
Qed.

Lemma step_fresh seen st src :
  cite_inv seen st → is_empty (first_sentence src) = false →
  Source.source_id src ∉ seen →
  cite_inv (seen ++ [Source.source_id src]) (step st src) ∧
  answer_html_parts (step st src) =
    answer_html_parts st ++ [fragment (seen ++ [Source.source_id src]) src].
Proof.
  intros [Hc Hm] Hfs Hnin. unfold step. rewrite Hfs.
  pose proof (Hm (Source.source_id src)) as Hl.
  rewrite bool_decide_eq_false_2 in Hl by exact Hnin. rewrite Hl.
  cbn [citations_map citation_counter answer_html_parts].
  assert (Hidx : citation_index (seen ++ [Source.source_id src]) (Source.source_id src)
                 = citation_counter st).
  { unfold citation_index. rewrite position_of_fresh by exact Hnin. by rewrite Hc. }
  split; [split|]; cbn [citations_map citation_counter answer_html_parts].
  - rewrite length_app. cbn [length]. lia.
  - intros sid. destruct (decide (sid = Source.source_id src)) as [->|Hne].
    + rewrite lookup_insert_eq, bool_decide_eq_true_2, Hidx; [reflexivity|].
      apply elem_of_app. right. by left.
    + rewrite lookup_insert_ne by congruence. rewrite Hm, elem_of_app_bool.
      rewrite (bool_decide_eq_false_2 (sid ∈ [Source.source_id src]))
        by (by intros ?%list_elem_of_singleton).
      rewrite orb_false_r. case_bool_decide as Hin; [|reflexivity].
      unfold citation_index. by rewrite position_of_app.
  - unfold fragment. by rewrite lookup_total_alt, lookup_insert_eq, Hidx.
Qed.

Lemma parts_fold sources seen st :
  cite_inv seen st →
  answer_html_parts (fold_left step sources st) =
    answer_html_parts st ++
    map (fragment (first_uses_go seen (map Source.source_id (kept sources))))
        (kept sources).
Proof.
  revert seen st. induction sources as [|src rest IH]; intros seen st Hinv;
    cbn [fold_left kept List.filter].
  - by rewrite app_nil_r.
  - fold (kept rest). destruct (is_empty (first_sentence src)) eqn:Hfs; cbn [negb].
    + assert (step st src = st) as -> by (unfold step; by rewrite Hfs).
      by apply IH.
    + cbn [map first_uses_go].
      destruct (decide (Source.source_id src ∈ seen)) as [Hin|Hnin].
      * rewrite bool_decide_eq_true_2 by exact Hin.
        destruct (step_seen seen st src Hinv Hfs Hin) as [Hinv' Hparts].
        rewrite (IH seen _ Hinv'), Hparts, <- app_assoc. cbn [app].
        do 2 f_equal. unfold fragment. by rewrite citation_index_prefix.
      * rewrite bool_decide_eq_false_2 by exact Hnin.
        destruct (step_fresh seen st src Hinv Hfs Hnin) as [Hinv' Hparts].
        rewrite (IH _ _ Hinv'), Hparts, <- app_assoc. cbn [app].
        do 2 f_equal. unfold fragment. rewrite citation_index_prefix; [reflexivity|].
        apply elem_of_app. right. by left.
Qed.

Lemma map_text_verified_from n srcs :
  map Sentence.text (verified_from n srcs) =
    map (λ src, first_sentence src ++ ".")%string srcs.
Proof.
  revert n. induction srcs as [|src rest IH]; intros n; cbn [verified_from map];
    [reflexivity|rewrite IH; reflexivity].
Qed.

Lemma cite_inv_initial : cite_inv [] initial.
Proof.
  split; [reflexivity|]. intros sid. cbn [initial citations_map].
  rewrite lookup_empty, bool_decide_eq_false_2; [reflexivity|apply not_elem_of_nil].
Qed.

(** C6.  In a successful answer the sentences come from the
    sources whose snippet, cut at the first period and stripped of
    surrounding whitespace, is not empty.  The identifiers of these sources,
    taken in order of first use, are numbered 1, 2, ... without gap, an
    identifier that recurs keeping its number; each kept sentence gives the
    fragment ["{sentence} <sup>[{index}]</sup>."], and [answer_html] is the
    fragments joined by single spaces inside one paragraph tag. *)
Theorem answer_html_citations (request : AnswerRequest.t) (resp : AnswerResponse.t) :
  answer request = Ok resp →
  let srcs := kept (AnswerResponse.sources resp) in
  let order := first_uses (map Source.source_id srcs) in
  AnswerResponse.answer_html resp =
    ("<p>" ++
     String.concat " "
       (map (λ src, first_sentence src ++ " <sup>[" ++
                    pretty (citation_index order (Source.source_id src)) ++ "]</sup>.")
            srcs)
     ++ "</p>")%string ∧
  map Sentence.text (AnswerResponse.sentences resp) =
    map (λ src, first_sentence src ++ ".")%string srcs ∧
  NoDup order ∧
  (∀ sid, sid ∈ order ↔ ∃ src, src ∈ srcs ∧ Source.source_id src = sid) ∧
  (∀ k sid, order !! k = Some sid → citation_index order sid = Z.of_nat k + 1).
Proof.
  unfold answer.
  destruct (fetch_sources request _) as [sources| | |]; try discriminate.
  destruct (compose_succeeds (effective_trace_id request) sources)
    as (resp' & -> & _ & Hsrc & Hsent & Hhtml).
  intros [= <-]. rewrite Hsrc, Hhtml, Hsent. cbn zeta.
  rewrite (parts_fold sources [] initial cite_inv_initial), first_uses_go_nil.
  cbn [initial answer_html_parts app].
  split; [reflexivity|]. split; [|split; [|split]].
  - apply map_text_verified_from.
  - apply NoDup_first_uses.
  - intros sid. rewrite elem_of_first_uses, list_elem_of_fmap. split.
    + intros (src & -> & Hin). by exists src.
    + intros (src & Hin & <-). by exists src.
  - intros k sid Hk. unfold citation_index.
    by rewrite (position_of_lookup _ k sid (NoDup_first_uses _) Hk).
Qed.

(** The handler uses the caller's identifier when it is not empty and draws
    one otherwise; the answer carries the identifier used. *)
Lemma answer_trace_id (request : AnswerRequest.t) (resp : AnswerResponse.t) :
  answer request = Ok resp →
  AnswerResponse.trace_id resp =
    if is_empty (AnswerRequest.trace_id request) then uuid4
    else AnswerRequest.trace_id request.
Proof.
  unfold answer.
  destruct (fetch_sources request _) as [sources| | |]; try discriminate.
  destruct (compose_succeeds (effective_trace_id request) sources)
    as (resp' & -> & Htr & _).
  by intros [= <-].
Qed.

Lemma validate_requires_trace_id (items : list (string * json)) :
  assoc "trace_id" items = None → AnswerRequest.validate (JObj items) = None.
Proof.
  intros Hno. unfold AnswerRequest.validate. cbn [as_dict mbind option_bind].
  destruct (assoc "query" items ≫= as_str); [|reflexivity]. cbn [mbind option_bind].
  destruct (AnswerRequest.validate_mode _); [|reflexivity]. cbn [mbind option_bind].
  destruct (AnswerRequest.validate_top_k _); [|reflexivity]. cbn [mbind option_bind].
  by rewrite Hno.
Qed.

End Service.

(** *** Concrete surroundings, for the examples below *)

(** Integers are taken as they are, URLs are accepted unchanged, and no
    string is read as a float. *)
Definition plain_library : Library :=
  {| float_of_str := λ _, None;
     pydantic_int := λ j, match j with JInt z => Some z | _ => None end;
     http_url := λ u, Some u |}.

Definition raw_source (source_id snippet : string) : json :=
  JObj [("source_id", JStr source_id); ("title", JStr "T");
        ("url", JStr "http://example.org/"); ("snippet", JStr snippet)]%string.

(** A retriever that returns four results and one stray string, and a
    verifier that answers [weak] once, then fails with status 500, then
    sends a label outside the contract. *)
Definition flaky_world : World :=
  {| uuid4 := "3f2b6c1e-0d4a-4b7e-9a51-6c2f8e1d7a90";
     retriever_post := λ _,
       Response 200 (Some (JObj [("trace_id", JStr "t");
         ("results", JArr [ raw_source "a" " Paris is big. Yes.";
                            raw_source "b" " . nothing";
                            raw_source "c" "Lima is far";
                            raw_source "a" "Again a. b";
                            JStr "junk" ])]))%string;
     verifier_post := λ n _,
       match n with
       | 0%nat => Response 200 (Some (JObj [("label", JStr "weak");
                    ("confidence", JFloat (1 # 2));
                    ("unsupported_spans", JArr [JArr [JInt 0; JInt 5]])]))%string
       | 1%nat => Response 500 None
       | _ => Response 200 (Some (JObj [("label", JStr "maybe")]))%string
       end |}.

Definition source (source_id snippet : string) : Source.t :=
  {| Source.source_id := source_id; Source.title := "T";
     Source.url := "http://example.org/"; Source.snippet := snippet |}.

(** Three sentences are kept; the second verifier call fails with status
    500, the third sends a label outside the contract, and both sentences
    are marked unsupported with confidence 0 and their full span. *)
Lemma verifier_failure_degrades_witness :
  let request := {| AnswerRequest.query := "capital"; AnswerRequest.mode := fast;
                    AnswerRequest.top_k := 6; AnswerRequest.trace_id := "t-1" |} in
  let sources := [ source "a" " Paris is big. Yes."; source "b" " . nothing";
                   source "c" "Lima is far"; source "a" "Again a. b" ]%string in
  let unsupported n := {| SentenceVerifierResult.label := "unsupported";
                          SentenceVerifierResult.confidence := 0;
                          SentenceVerifierResult.unsupported_spans := [(0, n)] |} in
  @fetch_sources plain_library flaky_world request
     (@effective_trace_id flaky_world request) = Ok sources ∧
  ∃ resp, @answer plain_library flaky_world request = Ok resp ∧
    length (AnswerResponse.sentences resp) = 3%nat ∧
    Sentence.verifier <$> (AnswerResponse.sentences resp !! 1%nat) = Some (unsupported 11) ∧
    Sentence.verifier <$> (AnswerResponse.sentences resp !! 2%nat) = Some (unsupported 7).
Proof.
  intros request sources unsupported.
  assert (Hf : @fetch_sources plain_library flaky_world request
                 (@effective_trace_id flaky_world request) = Ok sources)
    by (vm_compute; reflexivity).
  split; [exact Hf|].
  destruct (@verifier_failure_degrades plain_library flaky_world request sources Hf)
    as (resp & Hresp & Hlen & Hall).
  exists resp. split; [exact Hresp|]. split; [rewrite Hlen; vm_compute; reflexivity|].
  split.
  - destruct (Hall 1%nat (source "c" "Lima is far") ltac:(vm_compute; reflexivity))
      as (sent & -> & _ & Hfail).
    cbn [fmap option_fmap option_map]. f_equal.
    destruct Hfail as (Hl & Hc & Hs); [left; lia|].
    destruct (Sentence.verifier sent) as [l c sp]. cbn in Hl, Hc, Hs. by subst.
  - destruct (Hall 2%nat (source "a" "Again a. b") ltac:(vm_compute; reflexivity))
      as (sent & -> & _ & Hfail).
    cbn [fmap option_fmap option_map]. f_equal.
    destruct Hfail as (Hl & Hc & Hs).
    { right. left. cbn [assoc String.eqb Ascii.eqb Bool.eqb].
      intros Hin. repeat (apply elem_of_cons in Hin as [Hin|Hin]; [discriminate|]).
      by apply elem_of_nil in Hin. }
    destruct (Sentence.verifier sent) as [l c sp]. cbn in Hl, Hc, Hs. by subst.
Defined.

(** A verifier that answers every call with status 300 and a well-formed
    body. *)
Definition redirecting_world : World :=
  {| uuid4 := @uuid4 flaky_world;
     retriever_post := @retriever_post flaky_world;
     verifier_post := λ _ _,
       Response 300 (Some (JObj [("label", JStr "entailed");
                                 ("confidence", JFloat (9 # 10));
                                 ("unsupported_spans", JArr [])]))%string |}.

(** C4.  A status that is not a success is not always a failure: 300 is
    outside 200..299, yet [raise_for_status] lets it pass, the body is read,
    and the sentence carries [entailed] with confidence 0.9 instead of the
    default. *)
Lemma verifier_status_300_is_read :
  let request := {| AnswerRequest.query := "capital"; AnswerRequest.mode := fast;
                    AnswerRequest.top_k := 6; AnswerRequest.trace_id := "t-1" |} in
  ¬ (200 ≤ 300 < 300) ∧
  ∃ resp, @answer plain_library redirecting_world request = Ok resp ∧
    Sentence.verifier <$> (AnswerResponse.sentences resp !! 0%nat) =
      Some {| SentenceVerifierResult.label := "entailed";
              SentenceVerifierResult.confidence := 9 # 10;
              SentenceVerifierResult.unsupported_spans := [] |} ∧
    SentenceVerifierResult.label <$>
      (Sentence.verifier <$> (AnswerResponse.sentences resp !! 0%nat))
      ≠ Some "unsupported"%string.
Proof.
  intros request. split; [lia|]. eexists. split; [vm_compute; reflexivity|].
  split; [vm_compute; reflexivity|]. vm_compute. discriminate.
Qed.

(** The same request: identifier [a] is used first and gets 1, [c] gets 2,
    and the second use of [a] shows 1 again. *)
Lemma answer_html_citations_witness :
  let request := {| AnswerRequest.query := "capital"; AnswerRequest.mode := fast;
                    AnswerRequest.top_k := 6; AnswerRequest.trace_id := "t-1" |} in
  ∃ resp, @answer plain_library flaky_world request = Ok resp ∧
    AnswerResponse.answer_html resp =
      "<p>Paris is big <sup>[1]</sup>. Lima is far <sup>[2]</sup>. Again a <sup>[1]</sup>.</p>"%string.
Proof.
  intros request.
  destruct (@answer plain_library flaky_world request) as [resp| | |] eqn:Hresp;
    [|vm_compute in Hresp; discriminate..].
  exists resp. split; [reflexivity|].
  destruct (@answer_html_citations plain_library flaky_world request resp Hresp)
    as (Hhtml & _).
  rewrite Hhtml.
  assert (Hsrc : AnswerResponse.sources resp =
                 [ source "a" " Paris is big. Yes."; source "b" " . nothing";
                   source "c" "Lima is far"; source "a" "Again a. b" ]%string).
  { vm_compute in Hresp. injection Hresp as <-. reflexivity. }
  rewrite Hsrc. vm_compute. reflexivity.
Defined.

(** The answer there would be without [strip]: the sentence of a source
    is the text before the first period as it stands, kept when not empty. *)
Definition unstripped_html (sources : list Source.t) : string :=
  let text src := before_sep "." (Source.snippet src) in
  let srcs := List.filter (λ src, negb (is_empty (text src))) sources in
  let order := first_uses (map Source.source_id srcs) in
  ("<p>" ++
   String.concat " "
     (map (λ src, sent_html (text src) (citation_index order (Source.source_id src))) srcs)
   ++ "</p>")%string.

(** The snippet [" Paris is big. Yes."] gives the sentence ["Paris is big"],
    without the leading blank, and the snippet [" . nothing"], whose text
    before the first period is one blank, gives no sentence at all. *)
Lemma answer_html_strips_whitespace :
  let request := {| AnswerRequest.query := "capital"; AnswerRequest.mode := fast;
                    AnswerRequest.top_k := 6; AnswerRequest.trace_id := "t-1" |} in
  ∃ resp, @answer plain_library flaky_world request = Ok resp ∧
    AnswerResponse.answer_html resp =
      "<p>Paris is big <sup>[1]</sup>. Lima is far <sup>[2]</sup>. Again a <sup>[1]</sup>.</p>"%string ∧
    unstripped_html (AnswerResponse.sources resp) =
      "<p> Paris is big <sup>[1]</sup>.   <sup>[2]</sup>. Lima is far <sup>[3]</sup>. Again a <sup>[1]</sup>.</p>"%string ∧
    AnswerResponse.answer_html resp ≠ unstripped_html (AnswerResponse.sources resp).
Proof.
  intros request. eexists. split; [vm_compute; reflexivity|].
  split; [vm_compute; reflexivity|]. split; [vm_compute; reflexivity|].
  vm_compute. discriminate.
Qed.

(** C5.  A body without [trace_id] does not validate
    against [AnswerRequest], whose [trace_id] is a required string, so the
    endpoint answers 422 and the handler, which would draw a fresh
    identifier for an empty one, is never reached. *)
Theorem post_answer_without_trace_id `{Library} `{World} :
  post_answer (JObj [("query", JStr "What is ARGOS?")]%string) = RequestValidationError ∧
  post_answer (JObj [("query", JStr "What is ARGOS?"); ("mode", JStr "fast");
                     ("top_k", JInt 6)]%string) = RequestValidationError ∧
  (∀ request, AnswerRequest.trace_id request = EmptyString →
              effective_trace_id request = uuid4).
Proof.
  split; [|split].
  - unfold post_answer. by rewrite validate_requires_trace_id.
  - unfold post_answer. by rewrite validate_requires_trace_id.
  - intros request Hid. unfold effective_trace_id. by rewrite Hid.
Qed.

End AnswerApi.

(** ** The nightly report: [eval/nightly_report.py] *)
Module NightlyReport.
Import Py Json.

(** The log directory: [None] when it does not exist, otherwise the files
    [log_dir.glob("*.json")] yields, each with the outcome of opening it and
    running [json.load] ([None] when either raises). *)
Definition directory := option (list (option json)).

Definition load_snapshots (log_dir : directory) : list json :=
  match log_dir with
  | None => []
  | Some files => omap id files
  end.

Record aggregate := { swa : Q; ner : Q; cr : Q; ece : Q }.

(** The running total of [sum]: an [int] while only integers have been
    added, a [float] (read as a rational) afterwards. *)
Inductive number :=
| PyInt (z : Z)
| PyFloat (x : Q).

(** The integers of this magnitude and above round to [2 ** 1024] and do
    not convert to a float. *)
Definition float_limit : Z := 2 ^ 1024 - 2 ^ 970.

(** [float(z)], as the addition of an [int] and a [float] does it. *)
Definition float_of_int (z : Z) : result Q :=
  if Z.abs z <? float_limit then Return (inject_Z z) else Raise OverflowError.

(** [total + v] for a decoded JSON value [v]; a [bool] counts as the
    integer it is. *)
Definition add (total : number) (v : json) : result number :=
  match v, total with
  | JInt z, PyInt a => Return (PyInt (a + z))
  | JBool b, PyInt a => Return (PyInt (a + (if b then 1 else 0)))
  | JInt z, PyFloat x => y ← float_of_int z; Return (PyFloat (x + y))
  | JBool b, PyFloat x => Return (PyFloat (x + (if b then 1 else 0)))
  | JFloat y, PyInt a => x ← float_of_int a; Return (PyFloat (x + y))
  | JFloat y, PyFloat x => Return (PyFloat (x + y))
  | (JNull | JStr _ | JArr _ | JObj _), _ => Raise TypeError
  end.

(** [s.get(key, 0.0)] *)
Definition get_field (key : string) (s : json) : result json :=
  match as_dict s with
  | Some items => Return (default (JFloat 0) (assoc key items))
  | None => Raise AttributeError
  end.

(** [sum(s.get(key, 0.0) for s in snapshots)], from the total so far on. *)
Fixpoint sum_field (key : string) (snapshots : list json) (total : number)
    : result number :=
  match snapshots with
  | [] => Return total
  | s :: rest =>
      v ← get_field key s;
      total' ← add total v;
      sum_field key rest total'
  end.

(** [total / n]: the quotient of two integers is rounded once and raises
    when it is too large for a float. *)
Definition true_div (total : number) (n : Z) : result Q :=
  if n =? 0 then Raise ZeroDivisionError
  else match total with
       | PyInt a =>
           if Z.abs a <? float_limit * n then Return (inject_Z a / inject_Z n)%Q
           else Raise OverflowError
       | PyFloat x => Return (x / inject_Z n)%Q
       end.

Definition mean_field (key : string) (snapshots : list json) : result Q :=
  total ← sum_field key snapshots (PyInt 0);
  true_div total (Z.of_nat (length snapshots)).

Definition aggregate_metrics (snapshots : list json) : result aggregate :=
  match snapshots with
  | [] => Return {| swa := 0; ner := 0; cr := 0; ece := 0 |}
  | _ =>
      swa ← mean_field "support_rate" snapshots;
      ner ← mean_field "ner" snapshots;
      cr ← mean_field "cr" snapshots;
      ece ← mean_field "ece" snapshots;
      Return {| swa := swa; ner := ner; cr := cr; ece := ece |}
  end.

(** [main], up to the point where the report is written. *)
Definition main (log_dir : directory) : result aggregate :=
  aggregate_metrics (load_snapshots log_dir).

Lemma load_snapshots_missing_directory : load_snapshots None = [].
Proof. reflexivity. Qed.

(** Files that cannot be opened or parsed are skipped; the others are kept,
    in order, whatever their JSON is. *)
Lemma load_snapshots_skips_unparsable (files : list (option json)) (j : json) :
  j ∈ load_snapshots (Some files) ↔ Some j ∈ files.
Proof.
  unfold load_snapshots. rewrite list_elem_of_omap. split.
  - intros (f & Hf & Heq). cbn in Heq. by subst f.
  - intros Hin. by exists (Some j).
Qed.

(** C8.  A file that holds valid JSON which is not an
    object, or an object with a field that is not a number, is loaded like
    any snapshot and makes the aggregation raise: the run aborts.  A missing
    directory and an unparsable file are handled: the aggregates are 0. *)
Theorem main_aborts_on_non_snapshot_json :
  main (Some [Some (JArr [])]) = Raise AttributeError ∧
  main (Some [Some (JObj [("support_rate", JFloat (1 # 2))]%string); Some (JInt 3)])
    = Raise AttributeError ∧
  main (Some [Some (JObj [("support_rate", JStr "high")]%string)]) = Raise TypeError ∧
  main None = Return {| swa := 0; ner := 0; cr := 0; ece := 0 |} ∧
  main (Some [None]) = Return {| swa := 0; ner := 0; cr := 0; ece := 0 |}.
Proof. repeat split; reflexivity. Qed.

End NightlyReport.

(** * Further properties of the code *)


(** ** More on the verifier service *)
Module VerifierFacts.
Import PyStr StrFacts Json Http Verifier.

Lemma existsb_perm {A} (f : A → bool) (l l' : list A) :
  Permutation l l' → existsb f l = existsb f l'.
Proof.
  intros Hp. induction Hp as [|x l l' _ IH|x y l|l l' l'' _ IH1 _ IH2]; cbn [existsb].
  - reflexivity.
  - by rewrite IH.
  - by rewrite !orb_assoc, (orb_comm (f y)).
  - by rewrite IH1.
Qed.

(** The label and the confidence go together, and [contradicted] is never
    returned. *)
Theorem verify_label_confidence (body : VerifyBody) (r : VerifyResult) :
  verify body = Ok r →
  (label r = "entailed"%string ∧ confidence r = 9 # 10) ∨
  (label r = "weak"%string ∧ confidence r = 1 # 2) ∨
  (label r = "unsupported"%string ∧ confidence r = 1 # 10).
Proof.
  intros Hr. destruct (verify_ok body r Hr) as (s & evs & l & c & _ & _ & _ & Hscan & ->).
  cbn [label confidence].
  apply scan_some in Hscan as [[[= -> ->] _]|(_ & _ & Hst)]; [by left|].
  destruct (existsb _ evs); injection Hst as -> ->; auto.
Qed.

Lemma verify_label_confidence_witness :
  let body := {| sentence := Some (JStr "Lima");
                 evidence := Some (JArr [ JObj [("text", JStr "Lima is far")] ]) |}%string in
  let r := {| label := "entailed"; confidence := 9 # 10; unsupported_spans := [] |} in
  verify body = Ok r ∧
  ((label r = "entailed"%string ∧ confidence r = 9 # 10) ∨
   (label r = "weak"%string ∧ confidence r = 1 # 2) ∨
   (label r = "unsupported"%string ∧ confidence r = 1 # 10)).
Proof.
  intros body r. assert (Hr : verify body = Ok r) by (vm_compute; reflexivity).
  split; [exact Hr|]. exact (verify_label_confidence body r Hr).
Defined.

(** The item is an object whose [text], when it has one, is a string. *)
Definition well_typed (e : json) : Prop :=
  ∃ items, e = JObj items ∧
    (assoc "text" items = None ∨ ∃ t, assoc "text" items = Some (JStr t)).

Lemma well_typed_readable (e : json) : well_typed e → readable e.
Proof.
  intros (items & -> & [Hn|[t Ht]]); unfold readable; cbn [evidence_text];
    [rewrite Hn|rewrite Ht]; by eexists.
Qed.

Lemma Forall_well_typed_readable (evs : list json) :
  Forall well_typed evs → Forall readable evs.
Proof. intros H. eapply Forall_impl; [exact H|exact well_typed_readable]. Qed.

(** What [verify] does with a list of evidence items, once the sentence
    [s] has been read. *)
Lemma verify_list (sentence : option json) (evs evs' : list json) :
  (evs = [] ↔ evs' = []) →
  (∀ s st, scan (lower s) (token_set (lower s)) evs st
           = scan (lower s) (token_set (lower s)) evs' st) →
  verify {| sentence := sentence; evidence := Some (JArr evs) |} =
  verify {| sentence := sentence; evidence := Some (JArr evs') |}.
Proof.
  intros Hnil Hscan. unfold verify. cbn [Verifier.sentence evidence from_option id].
  assert (truthy (JArr evs) = truthy (JArr evs')) as ->.
  { destruct evs as [|e evs], evs' as [|e' evs']; try reflexivity.
    - by destruct (proj1 Hnil eq_refl).
    - by destruct (proj2 Hnil eq_refl). }
  destruct (negb _ || negb _); [reflexivity|].
  destruct (default (JStr "") sentence); try reflexivity.
  cbn [elements mbind option_bind]. by rewrite Hscan.
Qed.

(** Over evidence items that are objects with string texts, the answer
    does not depend on the order of the list. *)
Theorem verify_evidence_order (sentence : option json) (evs evs' : list json) :
  Forall well_typed evs → Permutation evs evs' →
  verify {| sentence := sentence; evidence := Some (JArr evs) |} =
  verify {| sentence := sentence; evidence := Some (JArr evs') |}.
Proof.
  intros Htyped Hp. apply verify_list.
  - split; intros ->; [by apply Permutation_nil|].
    symmetry in Hp. by apply Permutation_nil.
  - intros s st.
    assert (Hr : Forall readable evs) by (by apply Forall_well_typed_readable).
    assert (Hr' : Forall readable evs') by (by rewrite <- Hp).
    rewrite (scan_readable _ _ evs st Hr), (scan_readable _ _ evs' st Hr').
    by rewrite (existsb_perm _ _ _ Hp), (existsb_perm (item_shares _) _ _ Hp).
Qed.

Lemma verify_evidence_order_witness :
  let e1 := JObj [("text", JStr "Lima is far")]%string in
  let e2 := JObj [("url", JStr "http://a")]%string in
  (Forall well_typed [e1; e2] ∧ Permutation [e1; e2] [e2; e1]) ∧
  verify {| sentence := Some (JStr "the sky"); evidence := Some (JArr [e1; e2]) |} =
  verify {| sentence := Some (JStr "the sky"); evidence := Some (JArr [e2; e1]) |}.
Proof.
  intros e1 e2.
  assert (Ht : Forall well_typed [e1; e2]).
  { repeat constructor; eexists; (split; [reflexivity|]); [right; by eexists|by left]. }
  assert (Hp : Permutation [e1; e2] [e2; e1]) by constructor.
  split; [by split|]. exact (verify_evidence_order _ _ _ Ht Hp).
Defined.

(** How strong a label is. *)
Definition strength (label : string) : nat :=
  if String.eqb label "entailed" then 2
  else if String.eqb label "weak" then 1
  else 0.

(** More evidence never weakens the label: when a request is answered and
    further items that are objects with string texts are appended to its
    evidence, the new request is answered too, with a label at least as
    strong. *)
Theorem verify_more_evidence (sentence : json) (evs more : list json)
    (r : VerifyResult) :
  verify {| Verifier.sentence := Some sentence; Verifier.evidence := Some (JArr evs) |}
    = Ok r →
  Forall well_typed more →
  ∃ r', verify {| Verifier.sentence := Some sentence;
                  Verifier.evidence := Some (JArr (evs ++ more)) |} = Ok r' ∧
        (strength (label r) ≤ strength (label r'))%nat.
Proof.
  intros Hr Hmore.
  destruct (verify_ok _ r Hr) as (s & evs0 & l & c & [= ->] & Hs & [= <-] & Hscan & ->).
  assert (Hne : evs ≠ []).
  { intros ->. unfold verify in Hr. cbn in Hr. rewrite orb_true_r in Hr. discriminate. }
  rewrite verify_accepted by (try done; by destruct evs).
  cbn [label].
  apply Forall_well_typed_readable in Hmore.
  apply scan_some in Hscan as [([= -> ->] & pre & e & post & -> & Hpre & He)
                              |(Hall & Hnv & Hst)].
  - rewrite <- app_assoc. cbn [app]. rewrite (scan_break _ _ pre e _ _ Hpre He).
    eexists. split; [reflexivity|]. reflexivity.
  - rewrite scan_readable by (by apply Forall_app).
    rewrite !existsb_app, Hnv. cbn [orb].
    destruct (existsb (item_shares (token_set (lower s))) evs);
      injection Hst as -> ->; cbn [orb];
      destruct (existsb (item_verbatim (lower s)) more),
               (existsb (item_shares (token_set (lower s))) more);
      eexists; (split; [reflexivity|]); cbn; lia.
Qed.

Lemma verify_more_evidence_witness :
  let e1 := JObj [("text", JStr "the capital")]%string in
  let e2 := JObj [("text", JStr "Under THE SKY.")]%string in
  let r := {| label := "weak"; confidence := 1 # 2; unsupported_spans := [(0, 7)] |} in
  (verify {| sentence := Some (JStr "the sky"); evidence := Some (JArr [e1]) |} = Ok r ∧
   Forall well_typed [e2]) ∧
  ∃ r', verify {| sentence := Some (JStr "the sky"); evidence := Some (JArr ([e1] ++ [e2])) |}
          = Ok r' ∧
        (strength (label r) ≤ strength (label r'))%nat.
Proof.
  intros e1 e2 r.
  assert (Hr : verify {| sentence := Some (JStr "the sky"); evidence := Some (JArr [e1]) |}
               = Ok r)
    by (vm_compute; reflexivity).
  assert (Ht : Forall well_typed [e2]).
  { repeat constructor. eexists. split; [reflexivity|]. right. by eexists. }
  split; [by split|]. exact (verify_more_evidence _ _ [e2] r Hr Ht).
Defined.

Lemma scan_same_texts sl words evs evs' st :
  Forall2 (λ e e', evidence_text e = evidence_text e') evs evs' →
  scan sl words evs st = scan sl words evs' st.
Proof.
  intros Hall. revert st. induction Hall as [|e e' evs evs' He _ IH]; intros st;
    cbn [scan]; [reflexivity|].
  rewrite He. destruct (evidence_text e') as [text|]; [|reflexivity].
  destruct (contains sl text); [reflexivity|].
  destruct (bool_decide _); apply IH.
Qed.

(** The service is case-insensitive and looks at the texts only: two
    requests whose sentences have the same length and the same lowercase
    form, and whose evidence items are objects with string texts that agree
    up to case, one by one, get the same answer. *)
Theorem verify_case_insensitive (s s' : string) (evs evs' : list json) :
  lower s = lower s' → len s = len s' →
  Forall2 (λ e e', ∃ t t', has_text e t ∧ has_text e' t' ∧ lower t = lower t') evs evs' →
  verify {| sentence := Some (JStr s); evidence := Some (JArr evs) |} =
  verify {| sentence := Some (JStr s'); evidence := Some (JArr evs') |}.
Proof.
  intros Hs Hlen Hevs.
  assert (Hscan : ∀ sl words st, scan sl words evs st = scan sl words evs' st).
  { intros sl words st. apply scan_same_texts. eapply Forall2_impl; [exact Hevs|].
    intros e e' (t & t' & Ht & Ht' & Heq). cbn beta.
    by rewrite (has_text_evidence_text e t Ht), (has_text_evidence_text e' t' Ht'), Heq. }
  unfold verify. cbn [sentence evidence from_option id truthy].
  assert (is_empty s = is_empty s') as ->.
  { unfold len in Hlen. destruct s, s'; cbn [String.length] in Hlen; try reflexivity; lia. }
  assert ((match evs with [] => false | _ => true end)
          = (match evs' with [] => false | _ => true end)) as ->
    by (by destruct Hevs).
  destruct (negb _ || negb _); [reflexivity|].
  cbn [elements mbind option_bind]. by rewrite Hs, Hscan, Hlen.
Qed.

Lemma verify_case_insensitive_witness :
  let e := JObj [("text", JStr "Lima is FAR"); ("url", JStr "http://a")]%string in
  let e' := JObj [("text", JStr "LIMA is far")]%string in
  (lower "lima IS" = lower "Lima is" ∧ len "lima IS" = len "Lima is" ∧
   Forall2 (λ e e', ∃ t t', has_text e t ∧ has_text e' t' ∧ lower t = lower t') [e] [e']) ∧
  verify {| sentence := Some (JStr "lima IS"); evidence := Some (JArr [e]) |} =
  verify {| sentence := Some (JStr "Lima is"); evidence := Some (JArr [e']) |}.
Proof.
  intros e e'.
  assert (H1 : lower "lima IS" = lower "Lima is") by (vm_compute; reflexivity).
  assert (H2 : len "lima IS" = len "Lima is") by reflexivity.
  assert (H3 : Forall2 (λ e e', ∃ t t', has_text e t ∧ has_text e' t' ∧ lower t = lower t')
                 [e] [e']).
  { repeat constructor. exists "Lima is FAR"%string, "LIMA is far"%string.
    split; [eexists; split; [reflexivity|by left]|].
    split; [eexists; split; [reflexivity|by left]|]. vm_compute. reflexivity. }
  split; [by repeat split|]. exact (verify_case_insensitive _ _ _ _ H1 H2 H3).
Defined.

End VerifierFacts.

(** ** More on the retrieval engine *)
Module RetrieverFacts.
Import PyStr PyList Retriever StrFacts.

Lemma elem_of_slice_to {A} (x : A) (l : list A) (k : Z) : x ∈ slice_to l k → x ∈ l.
Proof.
  unfold slice_to. destruct (k <? 0); apply subseteq_take.
Qed.

Lemma length_slice_to {A} (l : list A) (k : Z) : (length (slice_to l k) ≤ length l)%nat.
Proof. unfold slice_to. destruct (k <? 0); rewrite length_firstn; lia. Qed.

Lemma descending_firstn {A} (key : A → Q) (n : nat) (l : list A) :
  descending key l → descending key (firstn n l).
Proof.
  unfold descending. intros Hs. revert n.
  induction Hs as [|x l Hs IH Hx]; intros [|n]; cbn [firstn]; try constructor.
  - apply IH.
  - apply Forall_forall. intros y Hy%subseteq_take.
    by apply (proj1 (Forall_forall _ _) Hx).
Qed.

Lemma descending_slice_to {A} (key : A → Q) (l : list A) (k : Z) :
  descending key l → descending key (slice_to l k).
Proof. unfold slice_to. destruct (k <? 0); apply descending_firstn. Qed.

Lemma descending_zero (docs : list Document) :
  descending snd (map (λ d, (d, 0%Q)) docs).
Proof.
  unfold descending. induction docs as [|d docs IH]; cbn [map]; constructor; [exact IH|].
  apply Forall_forall. intros [d' sc] Hin%list_elem_of_fmap.
  destruct Hin as (d'' & [= -> ->] & _). cbn. apply Qle_refl.
Qed.

Lemma elem_of_candidates docs query d sc :
  (d, sc) ∈ candidates docs query ↔
  d ∈ docs ∧ sc = _score (tokens d) (token_set (lower query)) ∧ (0 < sc)%Q.
Proof.
  unfold candidates. rewrite list_elem_of_In, in_map_iff. split.
  - intros (d' & [= <- <-] & Hin). apply filter_In in Hin as [Hin Hpos].
    split; [by apply list_elem_of_In|]. split; [reflexivity|by apply Qltb_lt].
  - intros (Hin & -> & Hpos). exists d. split; [reflexivity|].
    apply filter_In. split; [by apply list_elem_of_In|by apply Qltb_lt].
Qed.

(** Every result is a document of the corpus, paired with its overlap score
    or, on the fallback path, with 0; the score lies between 0 and 1, and
    there are never more results than documents. *)
Theorem search_results_sound (documents : list Document) (query : string) (top_k : Z) :
  (∀ d sc, (d, sc) ∈ search documents query top_k →
     d ∈ documents ∧ (0 <= sc <= 1)%Q ∧
     (sc = _score (tokens d) (token_set (lower query)) ∨ sc = 0%Q)) ∧
  (length (search documents query top_k) ≤ length documents)%nat.
Proof.
  rewrite search_unfold. destruct (candidates documents query) as [|c cs] eqn:Hc.
  - split.
    + intros d sc Hin%list_elem_of_fmap. destruct Hin as (d' & [= -> ->] & Hin).
      apply elem_of_slice_to in Hin. split; [exact Hin|]. split; [split; discriminate|by right].
    + rewrite length_map. apply length_slice_to.
  - rewrite <- Hc. split.
    + intros d sc Hin%elem_of_slice_to.
      rewrite (sort_desc_perm snd (candidates documents query)) in Hin.
      apply elem_of_candidates in Hin as (Hin & -> & Hpos).
      split; [exact Hin|]. split; [apply _score_range|by left].
    + etrans; [apply length_slice_to|].
      rewrite (Permutation_length (sort_desc_perm snd _)).
      unfold candidates. rewrite length_map. apply filter_length_le.
Qed.

(** The results are in descending order of score, for every [top_k]. *)
Theorem search_descending (documents : list Document) (query : string) (top_k : Z) :
  descending snd (search documents query top_k).
Proof.
  rewrite search_unfold. destruct (candidates documents query) as [|c cs] eqn:Hc.
  - unfold slice_to. destruct (top_k <? 0); apply descending_zero.
  - apply descending_slice_to, sort_desc_descending.
Qed.

(** The first result is a best match: no document of the corpus has a
    higher overlap score than the score the first result carries. *)
Theorem search_best_first (documents : list Document) (query : string) (top_k : Z)
    (d : Document) (sc : Q) (rest : list (Document * Q)) :
  search documents query top_k = (d, sc) :: rest →
  ∀ d', d' ∈ documents → (_score (tokens d') (token_set (lower query)) <= sc)%Q.
Proof.
  rewrite search_unfold. destruct (candidates documents query) as [|c cs] eqn:Hc.
  - intros Hs d' Hd'.
    assert (sc = 0%Q) as ->.
    { assert ((d, sc) ∈ map (λ d, (d, 0%Q)) (slice_to documents top_k)) as Hin
        by (rewrite Hs; by left).
      apply list_elem_of_fmap in Hin as (d'' & [= -> ->] & _). reflexivity. }
    apply Qnot_lt_le. intros Hpos.
    assert ((d', _score (tokens d') (token_set (lower query))) ∈ candidates documents query)
      as Hin by (by apply elem_of_candidates).
    rewrite Hc in Hin. by apply elem_of_nil in Hin.
  - rewrite <- Hc. intros Hs d' Hd'.
    pose proof (sort_desc_descending snd (candidates documents query)) as Hsorted.
    pose proof (sort_desc_perm snd (candidates documents query)) as Hperm.
    set (ranked := sort_desc snd (candidates documents query)) in *.
    assert (Hhd : ∃ tl, ranked = (d, sc) :: tl).
    { unfold slice_to in Hs. destruct (top_k <? 0), ranked as [|x tl];
        try (by rewrite firstn_nil in Hs);
        match type of Hs with firstn ?n _ = _ => destruct n end;
        cbn [firstn] in Hs; try discriminate; injection Hs as -> _; by eexists. }
    destruct Hhd as [tl Hr]. rewrite Hr in Hsorted, Hperm.
    destruct (Qlt_le_dec 0 (_score (tokens d') (token_set (lower query)))) as [Hpos|Hz].
    + assert ((d', _score (tokens d') (token_set (lower query))) ∈ (d, sc) :: tl) as Hin.
      { rewrite Hperm. by apply elem_of_candidates. }
      apply elem_of_cons in Hin as [[= -> ->]|Hin]; [apply Qle_refl|].
      apply StronglySorted_inv in Hsorted as [_ Hall].
      by apply (proj1 (Forall_forall _ _) Hall _ Hin).
    + assert ((d, sc) ∈ candidates documents query) as Hin
        by (rewrite <- Hperm; by left).
      apply elem_of_candidates in Hin as (_ & _ & Hpos).
      apply Qlt_le_weak. by eapply Qle_lt_trans.
Qed.

Lemma search_best_first_witness :
  let d1 := {| source_id := "fr"; title := "France"; url := "http://fr";
               content := "Paris is the capital of France" |} in
  let d2 := {| source_id := "pe"; title := "Peru"; url := "http://pe";
               content := "the capital of Peru is Lima" |} in
  search [d1; d2] "capital of Peru" 1 = [(d2, (3 # 3)%Q)] ∧
  ∀ d', d' ∈ [d1; d2] → (_score (tokens d') (token_set (lower "capital of Peru")) <= 3 # 3)%Q.
Proof.
  intros d1 d2.
  assert (Hs : search [d1; d2] "capital of Peru" 1 = [(d2, (3 # 3)%Q)])
    by (vm_compute; reflexivity).
  split; [exact Hs|]. exact (search_best_first _ _ _ _ _ _ Hs).
Defined.

Lemma isspace_lower_char (c : ascii) : isspace (lower_char c) = isspace c.
Proof. destruct c as [[] [] [] [] [] [] [] []]; vm_compute; reflexivity. Qed.

Lemma remove_ws_lower (s : string) : remove_ws (lower s) = lower (remove_ws s).
Proof.
  induction s as [|c s IH]; cbn [lower remove_ws]; [reflexivity|].
  rewrite isspace_lower_char. destruct (isspace c); cbn [lower]; by rewrite IH.
Qed.

Lemma split_blank (s : string) : remove_ws s = EmptyString → split s = [].
Proof.
  unfold split. induction s as [|c s IH]; cbn [remove_ws split_go]; [reflexivity|].
  destruct (isspace c); [exact IH|discriminate].
Qed.

(** A query without any token (empty, or whitespace only) takes the
    fallback: the slice [[:top_k]] of the corpus, each document with 0. *)
Theorem search_blank_query (documents : list Document) (query : string) (top_k : Z) :
  remove_ws query = EmptyString →
  search documents query top_k = map (λ d, (d, 0%Q)) (slice_to documents top_k).
Proof.
  intros Hblank. rewrite search_unfold.
  assert (token_set (lower query) = ∅) as Hq.
  { unfold token_set. rewrite split_blank; [reflexivity|].
    by rewrite remove_ws_lower, Hblank. }
  assert (candidates documents query = []) as ->; [|reflexivity].
  unfold candidates. rewrite Hq.
  induction documents as [|d docs IH]; [reflexivity|]. cbn [List.filter].
  unfold _score at 1. rewrite bool_decide_eq_true_2 by reflexivity. exact IH.
Qed.

Lemma search_blank_query_witness :
  let d1 := {| source_id := "fr"; title := "France"; url := "http://fr";
               content := "Paris is the capital of France" |} in
  remove_ws "  " = EmptyString ∧
  search [d1] "  " 6 = map (λ d, (d, 0%Q)) (slice_to [d1] 6).
Proof.
  intros d1. assert (H : remove_ws "  " = EmptyString) by reflexivity.
  split; [exact H|]. exact (search_blank_query [d1] "  " 6 H).
Defined.

(** A document holds every token of a non-empty query exactly when its
    score is 1. *)
Theorem _score_full (doc_tokens query_tokens : gset string) :
  query_tokens ≠ ∅ →
  (_score doc_tokens query_tokens == 1)%Q ↔ query_tokens ⊆ doc_tokens.
Proof.
  intros Hq. rewrite (_score_eq _ _ Hq). unfold Qeq. cbn [Qnum Qden].
  assert (size query_tokens ≠ 0%nat) as Hn.
  { intros Hz. apply size_empty_iff in Hz. apply Hq. by apply leibniz_equiv. }
  assert (query_tokens ∩ doc_tokens ⊆ query_tokens) as Hsub
    by apply intersection_subseteq_l.
  split.
  - intros Heq. assert (size (query_tokens ∩ doc_tokens) = size query_tokens) as Hs by lia.
    assert (query_tokens ∩ doc_tokens ≡ query_tokens) as Hi.
    { apply set_subseteq_size_equiv; [exact Hsub|lia]. }
    intros x Hx. apply Hi in Hx. by apply elem_of_intersection in Hx as [_ Hx].
  - intros Hsubset.
    assert (query_tokens ∩ doc_tokens = query_tokens) as ->.
    { apply leibniz_equiv. apply (anti_symm (⊆)); [exact Hsub|].
      intros x Hx. apply elem_of_intersection. split; [exact Hx|by apply Hsubset]. }
    lia.
Qed.

Lemma _score_full_witness :
  let q : gset string := {[ "lima"%string ]} in
  let d : gset string := {[ "lima"%string; "peru"%string ]} in
  q ≠ ∅ ∧ ((_score d q == 1)%Q ↔ q ⊆ d).
Proof.
  intros q d. assert (H : q ≠ ∅) by (vm_compute; discriminate).
  split; [exact H|]. exact (_score_full d q H).
Defined.

End RetrieverFacts.

(** ** More on the metrics: where the tokens are found *)
Module TokenFacts.
Import PyStr Py Metrics StrFacts.

(** The tokens stand in [s] one after the other, in order. *)
Fixpoint occurs_in_order (tokens : list string) (s : string) : Prop :=
  match tokens with
  | [] => True
  | t :: rest => ∃ pre post, s = (pre ++ t ++ post)%string ∧ occurs_in_order rest post
  end.

(** Each span starts at or after the end of the one before. *)
Fixpoint chained (offset : Z) (spans : list (Z * Z)) : Prop :=
  match spans with
  | [] => True
  | sp :: rest => offset ≤ sp.1 ∧ sp.1 < sp.2 ∧ chained sp.2 rest
  end.

Lemma length_append (a b : string) :
  String.length (a ++ b) = (String.length a + String.length b)%nat.
Proof.
  induction a as [|c a IH]; [reflexivity|].
  rewrite append_cons. cbn [String.length]. by rewrite IH.
Qed.

Lemma occurs_cons c tokens s : occurs_in_order tokens s → occurs_in_order tokens (String c s).
Proof.
  destruct tokens as [|t rest]; [done|]. intros (pre & post & -> & Hrest).
  by exists (String c pre), post.
Qed.

Lemma occurs_app_l pre tokens s :
  occurs_in_order tokens s → occurs_in_order tokens (pre ++ s).
Proof.
  intros Hs. induction pre as [|c pre IH]; [exact Hs|].
  rewrite append_cons. by apply occurs_cons.
Qed.

Lemma occurs_app_r tokens s post :
  occurs_in_order tokens s → occurs_in_order tokens (s ++ post).
Proof.
  revert s. induction tokens as [|t rest IH]; intros s; [done|].
  intros (p & q & -> & Hrest). exists p, (q ++ post)%string.
  split; [by rewrite !append_assoc|by apply IH].
Qed.

Lemma occurs_drop n tokens s :
  occurs_in_order tokens (drop_chars n s) → occurs_in_order tokens s.
Proof.
  revert s. induction n as [|n IH]; intros [|c s]; cbn [drop_chars]; try done.
  intros Hs. by apply occurs_cons, IH.
Qed.

Lemma drop_chars_app (a b : string) : drop_chars (String.length a) (a ++ b) = b.
Proof.
  induction a as [|c a IH]; [by destruct b|].
  rewrite append_cons. cbn [String.length drop_chars]. exact IH.
Qed.

Lemma drop_chars_add (n m : nat) (s : string) :
  drop_chars (n + m) s = drop_chars m (drop_chars n s).
Proof.
  revert s. induction n as [|n IH]; intros s; [reflexivity|].
  destruct s as [|c s]; cbn [Nat.add drop_chars]; [by destruct m|apply IH].
Qed.

Lemma take_drop_chars (n : nat) (s : string) :
  (n ≤ String.length s)%nat →
  ∃ pre, s = (pre ++ drop_chars n s)%string ∧ String.length pre = n.
Proof.
  revert s. induction n as [|n IH]; intros s Hn.
  - by exists ""%string.
  - destruct s as [|c s]; cbn [String.length] in Hn; [lia|].
    destruct (IH s ltac:(lia)) as (pre & Hpre & Hlen).
    exists (String c pre). cbn [drop_chars String.length].
    split; [by rewrite append_cons, <- Hpre|by rewrite Hlen].
Qed.

(** The first occurrence of the first token exists, and the other tokens
    follow it. *)
Lemma index_of_occurs (t : string) (rest : list string) (s : string) :
  occurs_in_order (t :: rest) s →
  ∃ i pre post, index_of t s = Some i ∧ s = (pre ++ t ++ post)%string ∧
    String.length pre = i ∧ occurs_in_order rest post.
Proof.
  induction s as [|c s IH]; intros (pre & post & Hs & Hrest).
  - destruct pre; [|by rewrite append_cons in Hs].
    destruct t; [|by rewrite append_nil_l, append_cons in Hs].
    exists 0%nat, ""%string, post. by destruct post.
  - cbn [index_of]. destruct (String.prefix t (String c s)) eqn:Hp.
    + apply prefix_spec in Hp as [post0 Hp].
      exists 0%nat, ""%string, post0. split; [reflexivity|]. split; [exact Hp|].
      split; [reflexivity|].
      apply (occurs_drop (String.length pre)).
      assert (drop_chars (String.length t) (String c s) = post0) as H0
        by (rewrite Hp; apply drop_chars_app).
      assert (drop_chars (String.length pre + String.length t) (String c s) = post) as H1.
      { rewrite Hs, drop_chars_add, drop_chars_app. apply drop_chars_app. }
      rewrite Nat.add_comm, drop_chars_add, H0 in H1. by rewrite H1.
    + destruct pre as [|c' pre].
      { rewrite append_nil_l in Hs.
        assert (String.prefix t (String c s) = true) by (apply prefix_spec; by exists post).
        congruence. }
      rewrite append_cons in Hs. injection Hs as -> ->.
      destruct IH as (i & pre' & post' & -> & Hs' & Hlen & Hrest').
      { by exists pre, post. }
      exists (S i), (String c' pre'), post'. cbn [fmap option_fmap option_map].
      split; [reflexivity|]. split; [by rewrite append_cons, <- Hs'|].
      split; [cbn [String.length]; by rewrite Hlen|exact Hrest'].
Qed.

Lemma length_rev (s : string) : String.length (String.rev s) = String.length s.
Proof.
  induction s as [|c s IH]; [reflexivity|].
  rewrite rev_cons, length_append, IH. cbn [String.length]. lia.
Qed.

Lemma split_go_occurs (cur s : string) :
  occurs_in_order (split_go cur s) (String.rev cur ++ s) ∧
  Forall (λ t, t ≠ EmptyString) (split_go cur s).
Proof.
  revert cur. induction s as [|c s IH]; intros cur; cbn [split_go].
  - unfold flush. destruct cur as [|d cur]; cbn [is_empty]; [by split|].
    split.
    + exists ""%string, ""%string. split; [by rewrite append_nil_l|done].
    + constructor; [|constructor]. intros Hr.
      pose proof (length_rev (String d cur)) as Hl. rewrite Hr in Hl. discriminate.
  - destruct (isspace c).
    + destruct (IH EmptyString) as [Ho Hne]. rewrite append_nil_l in Ho.
      unfold flush. destruct cur as [|d cur]; cbn [is_empty app].
      * split; [by apply occurs_cons|exact Hne].
      * split.
        -- exists ""%string, (String c s). split; [by rewrite append_nil_l|].
           by apply occurs_cons.
        -- constructor; [|exact Hne]. intros Hr.
           pose proof (length_rev (String d cur)) as Hl. rewrite Hr in Hl. discriminate.
    + destruct (IH (String c cur)) as [Ho Hne].
      rewrite rev_cons, append_assoc, append_cons, append_nil_l in Ho. by split.
Qed.

Lemma tokenize_occurs (text : string) :
  occurs_in_order (_tokenize text) text ∧
  Forall (λ t, t ≠ EmptyString) (_tokenize text).
Proof.
  unfold _tokenize, split.
  destruct (split_go_occurs EmptyString (strip text)) as [Ho Hne].
  split; [|exact Hne]. rewrite append_nil_l in Ho.
  destruct (infix_strip text) as (pre & post & Heq). rewrite Heq at 2.
  by apply occurs_app_l, occurs_app_r.
Qed.

Lemma substring_prefix (t post : string) :
  String.substring 0 (String.length t) (t ++ post) = t.
Proof.
  induction t as [|d t IHt]; [by destruct post|].
  rewrite append_cons. simpl. by rewrite IHt.
Qed.

Lemma substring_middle (pre t post : string) :
  String.substring (String.length pre) (String.length t) (pre ++ t ++ post) = t.
Proof.
  induction pre as [|c pre IH].
  - rewrite append_nil_l. apply substring_prefix.
  - rewrite append_cons. simpl. exact IH.
Qed.

(** What [locate] returns from [offset] on, when the tokens stand in order
    in the rest of the text. *)
Lemma locate_sound (text : string) (tokens : list string) (offset : nat) :
  (offset ≤ String.length text)%nat →
  occurs_in_order tokens (drop_chars offset text) →
  Forall (λ t, t ≠ EmptyString) tokens →
  Forall2 (λ tok sp, 0 ≤ sp.1 ∧ sp.2 = sp.1 + len tok ∧ sp.2 ≤ len text ∧
                     String.substring (Z.to_nat sp.1) (String.length tok) text = tok)
          tokens (locate text tokens (Z.of_nat offset)) ∧
  chained (Z.of_nat offset) (locate text tokens (Z.of_nat offset)).
Proof.
  revert offset. induction tokens as [|t rest IH]; intros offset Hoff Hocc Hne;
    cbn [locate]; [by split; constructor|].
  apply Forall_cons in Hne as [Ht Hne].
  destruct (index_of_occurs t rest _ Hocc) as (i & pre & post & Hi & Hs & Hlen & Hrest).
  destruct (take_drop_chars offset text Hoff) as (pre0 & Htext & Hlen0).
  assert (Hfind : find text t (Z.of_nat offset) = Z.of_nat (offset + i)).
  { unfold find, len. destruct (Z.ltb_spec (Z.of_nat offset) 0); [lia|].
    destruct (Z.ltb_spec (Z.of_nat (String.length text)) (Z.of_nat offset)); [lia|].
    rewrite Nat2Z.id, Hi. lia. }
  assert (Htlen : (0 < String.length t)%nat) by (destruct t; [done|cbn; lia]).
  assert (Hdecomp : text = ((pre0 ++ pre) ++ t ++ post)%string)
    by (by rewrite append_assoc, <- Hs).
  assert (Hplen : String.length (pre0 ++ pre) = (offset + i)%nat)
    by (by rewrite length_append, Hlen0, Hlen).
  assert (Htotal : String.length text
                   = (offset + i + String.length t + String.length post)%nat).
  { rewrite Hdecomp at 1. rewrite !length_append, Hlen0, Hlen. lia. }
  rewrite Hfind.
  replace (Z.of_nat (offset + i) + len t)
    with (Z.of_nat (offset + i + String.length t)) by (unfold len; lia).
  destruct (IH (offset + i + String.length t)%nat) as [Hall Hch].
  { lia. }
  { replace (offset + i + String.length t)%nat
      with (String.length (pre0 ++ pre) + String.length t)%nat by lia.
    rewrite Hdecomp at 1. rewrite drop_chars_add, drop_chars_app, drop_chars_app.
    exact Hrest. }
  { exact Hne. }
  split.
  - constructor; [|exact Hall]. cbn [fst snd]. unfold len.
    split; [lia|]. split; [lia|]. split; [lia|].
    rewrite Nat2Z.id, <- Hplen. rewrite Hdecomp at 1. apply substring_middle.
  - cbn [chained fst snd]. split; [lia|]. split; [lia|exact Hch].
Qed.

Lemma located_nonempty (text : string) (tokens : list string) (spans : list (Z * Z)) :
  Forall (λ t, t ≠ EmptyString) tokens →
  Forall2 (λ tok sp, 0 ≤ sp.1 ∧ sp.2 = sp.1 + len tok ∧ sp.2 ≤ len text ∧
                     String.substring (Z.to_nat sp.1) (String.length tok) text = tok)
          tokens spans →
  Forall2 (λ tok sp, 0 ≤ sp.1 ∧ sp.1 < sp.2 ∧ sp.2 = sp.1 + len tok ∧ sp.2 ≤ len text ∧
                     String.substring (Z.to_nat sp.1) (String.length tok) text = tok)
          tokens spans.
Proof.
  intros Hne Hall. induction Hall as [|t sp rest spans' (H0 & H1 & H2 & H3) _ IH];
    constructor.
  - apply Forall_cons in Hne as [Ht _].
    assert (0 < len t) by (unfold len; destruct t; [congruence|cbn [String.length]; lia]).
    repeat split; [lia..|exact H3].
  - apply Forall_cons in Hne as [_ Hne]. by apply IH.
Qed.

Lemma token_spans_located (text : string) :
  Forall2 (λ tok sp, 0 ≤ sp.1 ∧ sp.1 < sp.2 ∧ sp.2 = sp.1 + len tok ∧ sp.2 ≤ len text ∧
                     String.substring (Z.to_nat sp.1) (String.length tok) text = tok)
          (_tokenize text) (token_spans text).
Proof.
  destruct (tokenize_occurs text) as [Ho Hne].
  destruct (locate_sound text (_tokenize text) 0 ltac:(lia) Ho Hne) as [Hall _].
  by apply located_nonempty.
Qed.

(** The search for each token never fails: every token of a text is
    located where it stands (the characters of its span are the token), its
    span is not empty and lies within the text, and the spans follow one
    another without overlap. *)
Theorem token_spans_sound (text : string) :
  Forall2 (λ tok sp, 0 ≤ sp.1 ∧ sp.1 < sp.2 ∧ sp.2 = sp.1 + len tok ∧ sp.2 ≤ len text ∧
                     String.substring (Z.to_nat sp.1) (String.length tok) text = tok)
          (_tokenize text) (token_spans text) ∧
  chained 0 (token_spans text).
Proof.
  destruct (tokenize_occurs text) as [Ho Hne].
  destruct (locate_sound text (_tokenize text) 0 ltac:(lia) Ho Hne) as [Hall Hch].
  split; [|exact Hch]. by apply located_nonempty.
Qed.

End TokenFacts.

(** ** The support-weighted accuracy, as the specification words it *)
Module MetricsSpec.
Import PyStr StrFacts Py Metrics TokenFacts.








End MetricsSpec.

(** ** More on the metrics: rates and their relations *)
Module MetricsFacts.
Import PyStr Py Metrics StrFacts TokenFacts.

Fixpoint sumZ {A} (f : A → Z) (l : list A) : Z :=
  match l with
  | [] => 0
  | x :: xs => f x + sumZ f xs
  end.

Lemma supported_count_spec s :
  supported_count s = total_count s - Z.of_nat (unsupported_tokens s).
Proof. unfold supported_count, total_count. by rewrite size_unsupported_token_idxs. Qed.

Lemma length_token_spans text : length (token_spans text) = length (_tokenize text).
Proof. apply length_locate. Qed.

(** A span that reaches from the start of the text to its end (or beyond)
    leaves no token supported. *)
Theorem whole_text_span_supports_nothing (s : SentenceDict) (a b : Z) :
  (a, b) ∈ get_spans s → a ≤ 0 → len (get_text s) ≤ b →
  supported_count s = 0.
Proof.
  intros Hin Ha Hb. rewrite supported_count_spec.
  unfold unsupported_tokens, total_count. rewrite <- (length_token_spans (get_text s)).
  pose proof (token_spans_located (get_text s)) as Hall.
  assert (List.filter (λ tok, existsb (overlaps tok) (get_spans s)) (token_spans (get_text s))
          = token_spans (get_text s)) as ->; [|lia].
  induction Hall as [|t sp toks sps (H0 & H1 & H2 & H3 & _) _ IH]; [reflexivity|].
  cbn [List.filter].
  assert (existsb (overlaps sp) (get_spans s) = true) as ->; [|by rewrite IH].
  apply existsb_exists. exists (a, b). split; [by apply list_elem_of_In|].
  unfold overlaps. cbn [fst snd]. apply andb_true_iff. split; [apply Z.ltb_lt|apply Z.gtb_lt]; lia.
Qed.

Lemma whole_text_span_supports_nothing_witness :
  let s := {| text := Some "Lima is far."%string; weight := None;
              verifier := Some {| confidence := Some 0%Q;
                                  unsupported_spans := Some [(0, 12)] |} |} in
  ((0, 12) ∈ get_spans s ∧ 0 ≤ 0 ∧ len (get_text s) ≤ 12) ∧ supported_count s = 0.
Proof.
  intros s.
  assert (H1 : (0, 12) ∈ get_spans s) by (apply list_elem_of_In; left; reflexivity).
  assert (H2 : 0 ≤ 0) by lia.
  assert (H3 : len (get_text s) ≤ 12) by (vm_compute; discriminate).
  split; [by repeat split|]. exact (whole_text_span_supports_nothing s 0 12 H1 H2 H3).
Defined.

Lemma ner_fold sentences (acc : Z * Z) :
  fold_left ner_step sentences acc =
    (acc.1 + sumZ (λ s, Z.of_nat (unsupported_tokens s)) sentences,
     acc.2 + sumZ total_count sentences).
Proof.
  revert acc. induction sentences as [|s rest IH]; intros [u t]; cbn [fold_left sumZ fst snd].
  - by rewrite !Z.add_0_r.
  - rewrite IH. unfold ner_step. cbn [fst snd].
    rewrite size_unsupported_token_idxs. f_equal; lia.
Qed.

Lemma sumZ_bounds {A} (f g : A → Z) (l : list A) :
  (∀ x, 0 ≤ f x ≤ g x) → 0 ≤ sumZ f l ≤ sumZ g l.
Proof.
  intros H. induction l as [|x l IH]; cbn [sumZ]; [lia|]. specialize (H x). lia.
Qed.

Lemma unsupported_le_total s : 0 ≤ Z.of_nat (unsupported_tokens s) ≤ total_count s.
Proof. pose proof (unsupported_tokens_le s). unfold total_count. lia. Qed.

Lemma ner_value (sentences : list SentenceDict) :
  let unsupported := sumZ (λ s, Z.of_nat (unsupported_tokens s)) sentences in
  let total := sumZ total_count sentences in
  no_evidence_rate sentences =
    (if total =? 0 then 0 else inject_Z unsupported / inject_Z total)%Q.
Proof.
  intros unsupported total. unfold no_evidence_rate. rewrite ner_fold.
  cbn [fst snd]. by rewrite !Z.add_0_l.
Qed.

(** [no_evidence_rate] is the number of unsupported tokens over the number
    of tokens, taken over all sentences ([0] when there is no token), and
    lies between 0 and 1. *)
Theorem no_evidence_rate_spec (sentences : list SentenceDict) :
  let unsupported := sumZ (λ s, Z.of_nat (unsupported_tokens s)) sentences in
  let total := sumZ total_count sentences in
  no_evidence_rate sentences =
    (if total =? 0 then 0 else inject_Z unsupported / inject_Z total)%Q ∧
  (0 <= no_evidence_rate sentences <= 1)%Q.
Proof.
  intros unsupported total. rewrite ner_value. fold unsupported total.
  split; [reflexivity|].
  destruct (sumZ_bounds (λ s, Z.of_nat (unsupported_tokens s)) total_count sentences
              unsupported_le_total) as [H0 H1].
  fold unsupported total in H0, H1.
  destruct (Z.eqb_spec total 0) as [_|Hne]; [split; discriminate|].
  assert (Hpos : (0 < inject_Z total)%Q)
    by (change 0%Q with (inject_Z 0); rewrite <- Zlt_Qlt; lia).
  split.
  - apply Qle_shift_div_l; [exact Hpos|]. rewrite Qmult_0_l.
    change 0%Q with (inject_Z 0). by rewrite <- Zle_Qle.
  - apply Qle_shift_div_r; [exact Hpos|]. rewrite Qmult_1_l. by rewrite <- Zle_Qle.
Qed.

Lemma sumQ_unit_weights (f : SentenceDict → Z) (sentences : list SentenceDict) :
  Forall (λ s, get_weight s == 1)%Q sentences →
  (sumQ (λ s, get_weight s * inject_Z (f s))%Q sentences == inject_Z (sumZ f sentences))%Q.
Proof.
  intros Hall. induction Hall as [|s rest Hw _ IH]; cbn [sumQ sumZ]; [reflexivity|].
  rewrite IH, Hw, Qmult_1_l, <- inject_Z_plus. reflexivity.
Qed.

Lemma swa_ner_sum (sentences : list SentenceDict) :
  Forall (λ s, get_weight s == 1)%Q sentences →
  (support_weighted_accuracy sentences + no_evidence_rate sentences ==
     if sumZ total_count sentences =? 0 then 0 else 1)%Q.
Proof.
  intros Hall.
  pose proof (swa_value sentences) as Hswa. cbn zeta in Hswa.
  pose proof (ner_value sentences) as Hner. cbn zeta in Hner.
  rewrite Hswa, Hner. clear Hswa Hner.
  set (U := sumZ (λ s, Z.of_nat (unsupported_tokens s)) sentences).
  set (T := sumZ total_count sentences).
  assert (Hden : (sumQ (λ s, get_weight s *
                    inject_Z (Z.of_nat (length (_tokenize (get_text s)))))%Q sentences
                  == inject_Z T)%Q) by apply (sumQ_unit_weights total_count _ Hall).
  assert (Hnum : (sumQ (λ s, get_weight s *
                    inject_Z (Z.of_nat (length (_tokenize (get_text s)))
                              - Z.of_nat (unsupported_tokens s)))%Q sentences
                  == inject_Z (T - U))%Q).
  { rewrite (sumQ_unit_weights
               (λ s, total_count s - Z.of_nat (unsupported_tokens s)) _ Hall).
    apply inject_Z_injective. unfold T, U. clear.
    induction sentences as [|s rest IH]; cbn [sumZ]; [reflexivity|]. rewrite IH. lia. }
  destruct (Z.eqb_spec T 0) as [HT|HT].
  - assert (Qeq_bool (sumQ (λ s, get_weight s *
               inject_Z (Z.of_nat (length (_tokenize (get_text s)))))%Q sentences) 0 = true)
      as -> by (apply Qeq_bool_iff; by rewrite Hden, HT).
    reflexivity.
  - assert (Hd0 : ¬ (inject_Z T == 0)%Q).
    { intros H. apply (inject_Z_injective T 0) in H. contradiction. }
    assert (Qeq_bool (sumQ (λ s, get_weight s *
               inject_Z (Z.of_nat (length (_tokenize (get_text s)))))%Q sentences) 0 = false)
      as ->.
    { destruct (Qeq_bool _ 0) eqn:E; [|reflexivity].
      apply Qeq_bool_iff in E. rewrite Hden in E. contradiction. }
    rewrite Hnum, Hden. unfold Z.sub. rewrite inject_Z_plus, inject_Z_opp.
    field. exact Hd0.
Qed.

(** With unit weights, as the answer service has them, supported and
    unsupported tokens share the whole: on a list with at least one token
    [support_weighted_accuracy] and [no_evidence_rate] add up to 1, and
    without any token both are 0. *)
Theorem swa_plus_ner (sentences : list SentenceDict) :
  Forall (λ s, get_weight s == 1)%Q sentences →
  (support_weighted_accuracy sentences + no_evidence_rate sentences ==
     if sumZ total_count sentences =? 0 then 0 else 1)%Q ∧
  (sumZ total_count sentences = 0 →
     (support_weighted_accuracy sentences == 0)%Q ∧ no_evidence_rate sentences = 0%Q).
Proof.
  intros Hall. split; [by apply swa_ner_sum|]. intros Hz.
  pose proof (swa_ner_sum sentences Hall) as Hsum.
  pose proof (ner_value sentences) as Hner. cbn zeta in Hner.
  rewrite Hz in Hner, Hsum. cbn [Z.eqb] in Hner, Hsum.
  rewrite Hner in Hsum |- *. rewrite Qplus_0_r in Hsum. by split.
Qed.

Lemma swa_plus_ner_witness :
  let mk t sp := {| text := Some t; weight := Some 1%Q;
                    verifier := Some {| confidence := Some (1 # 2)%Q;
                                        unsupported_spans := Some sp |} |} in
  let sentences := [ mk "Paris is big."%string [(0, 5)]; mk "Lima"%string [] ] in
  Forall (λ s, get_weight s == 1)%Q sentences ∧
  (support_weighted_accuracy sentences + no_evidence_rate sentences ==
     if sumZ total_count sentences =? 0 then 0 else 1)%Q.
Proof.
  intros mk sentences.
  assert (H : Forall (λ s, get_weight s == 1)%Q sentences) by (repeat constructor).
  split; [exact H|]. exact (proj1 (swa_plus_ner sentences H)).
Defined.

End MetricsFacts.

(** ** More on the answer service *)
Module AnswerApiFacts.
Import PyStr Py Json Http Schemas AnswerApi StrFacts.

Section Service.
Context `{Library} `{World}.

Lemma answer_ok (request : AnswerRequest.t) (resp : AnswerResponse.t) :
  answer request = Ok resp →
  ∃ sources, fetch_sources request (effective_trace_id request) = Ok sources ∧
    sources ≠ [] ∧
    AnswerResponse.sources resp = sources ∧
    AnswerResponse.sentences resp = verified_from 0 (kept sources) ∧
    compose (effective_trace_id request) sources = Ok resp.
Proof.
  unfold answer.
  destruct (fetch_sources request _) as [sources| | |] eqn:Hf; try discriminate.
  intros Hc. exists sources.
  destruct (compose_succeeds (effective_trace_id request) sources)
    as (resp' & Hc' & _ & Hsrc & Hsent & _).
  rewrite Hc in Hc'. injection Hc' as <-.
  repeat split; try done.
  intros ->. unfold fetch_sources in Hf.
  destruct (retriever_post _) as [|st body]; [discriminate|].
  destruct (raises_for_status st); [discriminate|].
  destruct (body ≫= as_dict) as [data|]; [|discriminate].
  destruct (iterate _) as [raws|]; [|discriminate].
  destruct (omap parse_source raws); discriminate.
Qed.

(** Every sentence of an answer is the stripped first sentence of a source
    of that answer followed by a period, has weight 1 and carries exactly
    one citation: to that source, from 0 to the length of the sentence
    without its period.  There are at most as many sentences as sources, and
    at least one source. *)
Theorem answer_sentences_cite_their_source
    (request : AnswerRequest.t) (resp : AnswerResponse.t) :
  answer request = Ok resp →
  Forall2 (λ sent src,
             Sentence.text sent = (first_sentence src ++ ".")%string ∧
             Sentence.weight sent = 1%Q ∧
             Sentence.citations sent =
               [ {| Citation.source_id := Source.source_id src; Citation.start := 0;
                    Citation.end_ := len (Sentence.text sent) - 1 |} ])
          (AnswerResponse.sentences resp) (kept (AnswerResponse.sources resp)) ∧
  (∀ src, src ∈ kept (AnswerResponse.sources resp) →
          src ∈ AnswerResponse.sources resp ∧ first_sentence src ≠ EmptyString) ∧
  (length (AnswerResponse.sentences resp) ≤ length (AnswerResponse.sources resp))%nat ∧
  AnswerResponse.sources resp ≠ [].
Proof.
  intros Hresp. destruct (answer_ok request resp Hresp) as (sources & _ & Hne & -> & -> & _).
  split; [|split; [|split]].
  - generalize 0%nat. induction (kept sources) as [|src rest IH]; intros n;
      cbn [verified_from]; constructor; [|apply IH].
    split; [reflexivity|]. split; [reflexivity|].
    unfold verified. cbn [Sentence.make Sentence.citations Sentence.text].
    do 3 f_equal. unfold len. rewrite TokenFacts.length_append. cbn [String.length]. lia.
  - intros src Hin. unfold kept in Hin.
    apply list_elem_of_In, filter_In in Hin as [Hin Hfs]. split; [by apply list_elem_of_In|].
    intros Hempty. rewrite Hempty in Hfs. discriminate.
  - rewrite length_verified_from. apply filter_length_le.
  - exact Hne.
Qed.

(** Whatever the verifier service replies, the result attached to a
    sentence satisfies the contract: its label is one of the four labels and
    its confidence lies between 0 and 1. *)
Theorem answer_verifier_results_valid
    (request : AnswerRequest.t) (resp : AnswerResponse.t) :
  answer request = Ok resp →
  Forall (λ sent,
            let r := Sentence.verifier sent in
            fullmatch SentenceVerifierResult.label_pattern (SentenceVerifierResult.label r)
              = true ∧
            (0 <= SentenceVerifierResult.confidence r <= 1)%Q)
         (AnswerResponse.sentences resp).
Proof.
  intros Hresp. destruct (answer_ok request resp Hresp) as (sources & _ & _ & _ & -> & _).
  generalize 0%nat. induction (kept sources) as [|src rest IH]; intros n;
    cbn [verified_from]; constructor; [|apply IH].
  cbn zeta. unfold verified. cbn [Sentence.make Sentence.verifier].
  unfold try_verify. destruct (verifier_post n _) as [|st body]; [by split|].
  destruct (raises_for_status st); [by split|].
  destruct body as [j|]; [|by split]. cbn [mbind option_bind].
  unfold build_result. destruct (as_dict j) as [items|]; [|by split].
  cbn [mbind option_bind]. destruct (py_float _) as [c|]; [|by split].
  cbn [mbind option_bind]. unfold SentenceVerifierResult.validate.
  destruct (as_str _) as [l|]; [|by split]. cbn [mbind option_bind].
  destruct (fullmatch _ l) eqn:Hl; [|by split]. cbn [andb].
  destruct (in_range 0 1 c) eqn:Hc; [|by split].
  destruct (validate_spans _) as [sp|]; [|by split].
  cbn. split; [exact Hl|by apply in_range_spec].
Qed.

Lemma answer_confidence (request : AnswerRequest.t) (resp : AnswerResponse.t) :
  answer request = Ok resp →
  AnswerResponse.confidence_overall resp =
    Metrics.support_weighted_accuracy (map sentence_dict (AnswerResponse.sentences resp)).
Proof.
  intros Hresp. destruct (answer_ok request resp Hresp) as (sources & _ & _ & _ & Hs & Hc).
  rewrite Hs. unfold compose in Hc.
  pose proof (sentences_fold sources initial) as Hsf.
  cbn [initial sentences app length] in Hsf. rewrite Hsf in Hc.
  destruct (Metrics.calibration_error _ 10) as [ece|]; [|discriminate].
  unfold AnswerResponse.validate in Hc. cbn [AnswerResponse.confidence_overall] in Hc.
  destruct (in_range 0 1 _) eqn:Hr; [|discriminate]. by injection Hc as <-.
Qed.

(** The confidence of the answer is the support-weighted accuracy of its
    sentences and lies between 0 and 1; the snapshot repeats it under
    [support_rate] and reports a contradiction rate of 0. *)
Theorem answer_confidence_overall (request : AnswerRequest.t) (resp : AnswerResponse.t) :
  answer request = Ok resp →
  let dicts := map sentence_dict (AnswerResponse.sentences resp) in
  AnswerResponse.confidence_overall resp = Metrics.support_weighted_accuracy dicts ∧
  (0 <= AnswerResponse.confidence_overall resp <= 1)%Q ∧
  ∃ ece, Metrics.calibration_error dicts 10 = Return ece ∧
    AnswerResponse.metrics_snapshot resp =
      Some [("support_rate", AnswerResponse.confidence_overall resp);
            ("ner", Metrics.no_evidence_rate dicts);
            ("cr", 0%Q); ("ece", ece)]%string.
Proof.
  intros Hresp. destruct (answer_ok request resp Hresp) as (sources & _ & _ & _ & Hs & Hc).
  cbn zeta. rewrite Hs. unfold compose in Hc.
  pose proof (sentences_fold sources initial) as Hsf.
  cbn [initial sentences app length] in Hsf. rewrite Hsf in Hc.
  destruct (Metrics.calibration_error _ 10) as [ece|]; [|discriminate].
  unfold AnswerResponse.validate in Hc. cbn [AnswerResponse.confidence_overall] in Hc.
  destruct (in_range 0 1 _) eqn:Hr; [|discriminate]. injection Hc as <-.
  cbn [AnswerResponse.confidence_overall AnswerResponse.metrics_snapshot].
  split; [reflexivity|]. split; [by apply in_range_spec|].
  exists ece. by split.
Qed.

Lemma raises_for_status_spec (status_code : Z) :
  raises_for_status status_code = true ↔ 400 ≤ status_code < 600.
Proof. unfold raises_for_status. rewrite andb_true_iff, Z.leb_le, Z.ltb_lt. tauto. Qed.

Lemma omap_nil {A B} (f : A → option B) (l : list A) :
  omap f l = [] ↔ ∀ x, x ∈ l → f x = None.
Proof.
  induction l as [|x l IH]; cbn [omap list_omap].
  - split; [intros _ x Hx; by apply elem_of_nil in Hx|done].
  - destruct (f x) eqn:Hx.
    + split; [discriminate|]. intros Hall. rewrite (Hall x) in Hx by (by left). discriminate.
    + rewrite IH. split.
      * intros Hall y Hy. apply elem_of_cons in Hy as [->|Hy]; [exact Hx|by apply Hall].
      * intros Hall y Hy. apply Hall. by right.
Qed.

(** The failure modes of the handler.  It answers 502 exactly when the
    retriever call raises or comes back with a 4xx or 5xx status; 404
    exactly when the retriever's reply is an object whose results can be
    iterated and none of them makes a valid [Source]; it never answers with
    a validation error or any other [HTTPException]; and it fails with an
    unhandled exception exactly when the retriever's body is not a JSON
    object or its results cannot be iterated. *)
Theorem answer_failure_modes (request : AnswerRequest.t) :
  let reply := retriever_post {| query := AnswerRequest.query request;
                                 top_k := AnswerRequest.top_k request;
                                 trace_id := effective_trace_id request;
                                 mode := AnswerRequest.mode request |} in
  let results data := default (JArr []) (assoc "results" data) in
  (answer request = HTTPException 502 "Retriever error" ↔
     match reply with
     | RequestException => True
     | Response status_code _ => 400 ≤ status_code < 600
     end) ∧
  (answer request = HTTPException 404 "No sources found" ↔
     ∃ status_code data raws,
       reply = Response status_code (Some (JObj data)) ∧
       ¬ (400 ≤ status_code < 600) ∧
       iterate (results data) = Some raws ∧
       ∀ raw, raw ∈ raws → parse_source raw = None) ∧
  answer request ≠ RequestValidationError ∧
  (∀ status_code detail, answer request = HTTPException status_code detail →
     (status_code = 502 ∧ detail = "Retriever error"%string) ∨
     (status_code = 404 ∧ detail = "No sources found"%string)) ∧
  (answer request = InternalServerError ↔
     ∃ status_code body, reply = Response status_code body ∧
       ¬ (400 ≤ status_code < 600) ∧
       match body with
       | Some (JObj data) => iterate (results data) = None
       | _ => True
       end).
Proof.
  cbn zeta. unfold answer, fetch_sources.
  destruct (retriever_post _) as [|st body].
  { split; [done|]. split; [split; [discriminate|by intros (? & ? & ? & ? & _)]|].
    split; [done|]. split; [intros ?? [= <- <-]; by left|].
    split; [discriminate|by intros (? & ? & ? & _)]. }
  destruct (raises_for_status st) eqn:Hst.
  { apply raises_for_status_spec in Hst.
    split; [done|]. split; [split; [discriminate|]|].
    { intros (? & ? & ? & [= <- _] & Hn & _). contradiction. }
    split; [done|]. split; [intros ?? [= <- <-]; by left|].
    split; [discriminate|]. intros (? & ? & [= <- _] & Hn & _). contradiction. }
  assert (Hok : ¬ (400 ≤ st < 600)).
  { intros Hr. apply raises_for_status_spec in Hr. congruence. }
  destruct body as [[| | | | | |data]|]; cbn [mbind option_bind as_dict].
  1-6,8: (split; [split; [discriminate|done]|]);
         (split; [split; [discriminate|by intros (? & ? & ? & [= ] & _)]|]);
         (split; [done|]); (split; [discriminate|]);
         (split; [intros _; eexists _, _; by repeat split|done]).
  destruct (iterate _) as [raws|] eqn:Hit.
  2:{ split; [split; [discriminate|done]|].
      split; [split; [discriminate|]|].
      { intros (? & ? & ? & [= <- <-] & _ & Hit' & _). congruence. }
      split; [done|]. split; [discriminate|].
      split; [intros _; eexists _, _; by repeat split|done]. }
  destruct (omap parse_source raws) as [|src srcs] eqn:Hs.
  { pose proof (proj1 (omap_nil parse_source raws) Hs) as Hnone.
    split; [split; [discriminate|done]|].
    split; [split; [intros _; by eexists _, _, _|done]|].
    split; [done|]. split; [intros ?? [= <- <-]; by right|].
    split; [discriminate|]. intros (? & ? & [= <- <-] & _ & Hx). congruence. }
  assert (Hne : ¬ ∀ raw, raw ∈ raws → parse_source raw = None).
  { intros Hall. pose proof (proj2 (omap_nil parse_source raws) Hall). congruence. }
  destruct (compose_succeeds (effective_trace_id request) (src :: srcs)) as (resp & -> & _).
  split; [split; [discriminate|done]|].
  split; [split; [discriminate|]|].
  { intros (? & ? & ? & [= <- <-] & _ & Hit' & Hall). rewrite Hit in Hit'.
    injection Hit' as <-. contradiction. }
  split; [done|]. split; [discriminate|].
  split; [discriminate|]. intros (? & ? & [= <- <-] & _ & Hx). congruence.
Qed.

End Service.

Definition sample_request : AnswerRequest.t :=
  {| AnswerRequest.query := "capital"; AnswerRequest.mode := fast;
     AnswerRequest.top_k := 6; AnswerRequest.trace_id := "t-1" |}.

Lemma sample_answer :
  ∃ resp, @answer plain_library flaky_world sample_request = Ok resp.
Proof.
  destruct (@answer plain_library flaky_world sample_request) as [resp| | |] eqn:Hresp;
    [by exists resp|vm_compute in Hresp; discriminate..].
Defined.

Lemma answer_sentences_cite_their_source_witness :
  ∃ resp, @answer plain_library flaky_world sample_request = Ok resp ∧
    Forall2 (λ sent src,
               Sentence.text sent = (@first_sentence src ++ ".")%string ∧
               Sentence.weight sent = 1%Q ∧
               Sentence.citations sent =
                 [ {| Citation.source_id := Source.source_id src; Citation.start := 0;
                      Citation.end_ := len (Sentence.text sent) - 1 |} ])
            (AnswerResponse.sentences resp) (kept (AnswerResponse.sources resp)) ∧
    (∀ src, src ∈ kept (AnswerResponse.sources resp) →
            src ∈ AnswerResponse.sources resp ∧ first_sentence src ≠ EmptyString) ∧
    (length (AnswerResponse.sentences resp) ≤ length (AnswerResponse.sources resp))%nat ∧
    AnswerResponse.sources resp ≠ [].
Proof.
  destruct sample_answer as [resp Hresp]. exists resp. split; [exact Hresp|].
  exact (@answer_sentences_cite_their_source plain_library flaky_world _ _ Hresp).
Defined.

Lemma answer_verifier_results_valid_witness :
  ∃ resp, @answer plain_library flaky_world sample_request = Ok resp ∧
    Forall (λ sent,
              let r := Sentence.verifier sent in
              fullmatch SentenceVerifierResult.label_pattern (SentenceVerifierResult.label r)
                = true ∧
              (0 <= SentenceVerifierResult.confidence r <= 1)%Q)
           (AnswerResponse.sentences resp).
Proof.
  destruct sample_answer as [resp Hresp]. exists resp. split; [exact Hresp|].
  exact (@answer_verifier_results_valid plain_library flaky_world _ _ Hresp).
Defined.

Lemma answer_confidence_overall_witness :
  ∃ resp, @answer plain_library flaky_world sample_request = Ok resp ∧
    (0 <= AnswerResponse.confidence_overall resp <= 1)%Q.
Proof.
  destruct sample_answer as [resp Hresp]. exists resp. split; [exact Hresp|].
  exact (proj1 (proj2 (@answer_confidence_overall plain_library flaky_world _ _ Hresp))).
Defined.

(** The caller's identifier comes back when it is not empty. *)
Lemma answer_trace_id_witness :
  ∃ resp, @answer plain_library flaky_world sample_request = Ok resp ∧
    AnswerResponse.trace_id resp = "t-1"%string.
Proof.
  destruct sample_answer as [resp Hresp]. exists resp. split; [exact Hresp|].
  exact (@answer_trace_id plain_library flaky_world _ _ Hresp).
Defined.

End AnswerApiFacts.

(** ** The answer service in front of the repository's own verifier *)
Module EndToEnd.
Import PyStr Py Json Http Schemas AnswerApi StrFacts.

(** The JSON the verifier handler returns. *)
Definition encode_result (r : Verifier.VerifyResult) : json :=
  JObj [("label", JStr (Verifier.label r));
        ("confidence", JFloat (Verifier.confidence r));
        ("unsupported_spans",
           JArr (map (λ sp : Z * Z, JArr [JInt sp.1; JInt sp.2])
                     (Verifier.unsupported_spans r)))]%string.

(** The verifier service as [requests.post] sees it: the handler's result
    with status 200, or the status of the exception it raises, with the
    detail as body. *)
Definition verifier_service (body : Verifier.VerifyBody) : reply :=
  match Verifier.verify body with
  | Ok r => Response 200 (Some (encode_result r))
  | HTTPException status_code detail =>
      Response status_code (Some (JObj [("detail", JStr detail)]%string))
  | RequestValidationError => Response 422 None
  | InternalServerError => Response 500 None
  end.

Definition entailed : SentenceVerifierResult.t :=
  {| SentenceVerifierResult.label := "entailed";
     SentenceVerifierResult.confidence := 9 # 10;
     SentenceVerifierResult.unsupported_spans := [] |}.

Lemma remove_ws_app (a b : string) :
  remove_ws (a ++ b) = (remove_ws a ++ remove_ws b)%string.
Proof.
  induction a as [|c a IH]; [reflexivity|].
  rewrite append_cons. cbn [remove_ws]. destruct (isspace c); [exact IH|].
  by rewrite append_cons, IH.
Qed.

Lemma tokenize_sentence (first_sent : string) :
  Metrics._tokenize (first_sent ++ ".") ≠ [].
Proof.
  intros Hnil. pose proof (concat_split_strip (first_sent ++ ".")) as Hc.
  fold (Metrics._tokenize (first_sent ++ ".")) in Hc. rewrite Hnil, remove_ws_app in Hc.
  cbn [String.concat] in Hc.
  assert (String.length (remove_ws first_sent ++ remove_ws ".") = 0%nat) as Hl
    by (by rewrite <- Hc).
  rewrite TokenFacts.length_append in Hl.
  change (remove_ws ".") with "."%string in Hl. cbn [String.length] in Hl. lia.
Qed.

Section Service.
Context `{Library} `{World}.

(** The lowercased sentence stands in the lowercased snippet. *)
Definition found_in_snippet (src : Source.t) : Prop :=
  ∃ pre post,
    lower (Source.snippet src) = (pre ++ lower (first_sentence src) ++ post)%string.

(** Where [lower] works character by character, as it does on the strings
    of this development, the sentence cut from a snippet is always found in
    it. *)
Lemma first_sentence_found (src : Source.t) : found_in_snippet src.
Proof.
  apply (infix_lower (first_sentence src) (Source.snippet src)).
  eapply infix_trans; [apply infix_strip|apply infix_before_sep].
Qed.

Lemma verify_first_sentence (src : Source.t) :
  first_sentence src ≠ EmptyString → found_in_snippet src →
  Verifier.verify (verifier_body (first_sentence src) src) =
    Ok {| Verifier.label := "entailed"; Verifier.confidence := 9 # 10;
          Verifier.unsupported_spans := [] |}.
Proof.
  intros Hne Hfound. unfold verifier_body.
  rewrite Verifier.verify_accepted by done.
  set (e := JObj _).
  assert (Verifier.item_verbatim (lower (first_sentence src)) e = true) as Hv.
  { unfold Verifier.item_verbatim.
    change (Verifier.evidence_text e) with (Some (lower (Source.snippet src))).
    apply contains_spec. exact Hfound. }
  by rewrite (Verifier.scan_break _ _ [] e [] _ (Forall_nil_2 _) Hv).
Qed.

Lemma try_verify_own (n : nat) (src : Source.t) :
  (∀ n body, verifier_post n body = verifier_service body) →
  first_sentence src ≠ EmptyString → found_in_snippet src →
  try_verify n (first_sentence src) src = Some entailed.
Proof.
  intros Hwired Hne Hfound. unfold try_verify, verifier_service.
  rewrite Hwired. unfold verifier_service.
  rewrite (verify_first_sentence src Hne Hfound). reflexivity.
Qed.

Lemma verified_from_own (n : nat) (srcs : list Source.t) :
  (∀ n body, verifier_post n body = verifier_service body) →
  Forall (λ src, first_sentence src ≠ EmptyString ∧ found_in_snippet src) srcs →
  Forall (λ sent, Sentence.verifier sent = entailed ∧ Sentence.weight sent = 1%Q ∧
                  Metrics._tokenize (Sentence.text sent) ≠ [])
         (verified_from n srcs).
Proof.
  intros Hwired Hall. revert n.
  induction Hall as [|src rest [Hne Hfound] _ IH]; intros n; cbn [verified_from];
    constructor; [|apply IH].
  unfold verified. cbn [Sentence.make Sentence.verifier Sentence.weight Sentence.text].
  rewrite (try_verify_own n src Hwired Hne Hfound). repeat split. apply tokenize_sentence.
Qed.

Lemma unsupported_none (s : Metrics.SentenceDict) :
  Metrics.get_spans s = [] → Metrics.unsupported_tokens s = 0%nat.
Proof.
  intros Hs. unfold Metrics.unsupported_tokens. rewrite Hs.
  induction (Metrics.token_spans _) as [|sp l IH]; [reflexivity|exact IH].
Qed.

(** With the repository's verifier behind [VERIFIER_URL], and sources whose
    lowercased snippet holds the lowercased sentence cut from it (as every
    snippet does where [lower] works character by character), every
    sentence of an answer comes back [entailed] with confidence 0.9 and no
    unsupported span, and an answer that has a sentence has overall
    confidence 1 and a no-evidence rate of 0. *)
Theorem answer_with_own_verifier (request : AnswerRequest.t) (resp : AnswerResponse.t) :
  (∀ n body, verifier_post n body = verifier_service body) →
  answer request = Ok resp →
  (∀ src, src ∈ AnswerResponse.sources resp →
     ∃ pre post,
       lower (Source.snippet src)
       = (pre ++ lower (strip (before_sep "." (Source.snippet src))) ++ post)%string) →
  Forall (λ sent, Sentence.verifier sent = entailed) (AnswerResponse.sentences resp) ∧
  (AnswerResponse.sentences resp ≠ [] →
     (AnswerResponse.confidence_overall resp == 1)%Q ∧
     (Metrics.no_evidence_rate (map sentence_dict (AnswerResponse.sentences resp)) == 0)%Q).
Proof.
  intros Hwired Hresp Hfound.
  rewrite (AnswerApiFacts.answer_confidence request resp Hresp).
  destruct (AnswerApiFacts.answer_ok request resp Hresp)
    as (sources & _ & _ & Hsrc & -> & _).
  rewrite Hsrc in Hfound.
  assert (Hall : Forall (λ sent, Sentence.verifier sent = entailed ∧
                                 Sentence.weight sent = 1%Q ∧
                                 Metrics._tokenize (Sentence.text sent) ≠ [])
                        (verified_from 0 (kept sources))).
  { apply verified_from_own; [exact Hwired|]. apply Forall_forall.
    intros src Hin%list_elem_of_In. apply filter_In in Hin as [Hin Hfs].
    split; [|apply Hfound; by apply list_elem_of_In].
    intros Hempty. rewrite Hempty in Hfs. discriminate. }
  split; [eapply Forall_impl; [exact Hall|]; by intros ? [? _]|].
  set (sents := verified_from 0 (kept sources)) in *. intros Hne.
  set (dicts := map sentence_dict sents).
  assert (Hw : Forall (λ s, Metrics.get_weight s == 1)%Q dicts).
  { apply Forall_map. eapply Forall_impl; [exact Hall|]. intros s (_ & Hw & _).
    unfold Metrics.get_weight. cbn. by rewrite Hw. }
  assert (Hu : MetricsFacts.sumZ (λ s, Z.of_nat (Metrics.unsupported_tokens s)) dicts = 0).
  { unfold dicts. clear Hne Hw. induction Hall as [|s rest (Hv & _) _ IH]; [reflexivity|].
    cbn [map MetricsFacts.sumZ]. rewrite IH, unsupported_none; [reflexivity|].
    unfold Metrics.get_spans. cbn. by rewrite Hv. }
  assert (Ht : 0 < MetricsFacts.sumZ Metrics.total_count dicts).
  { unfold dicts. destruct Hall as [|s rest (_ & _ & Htok) Hrest]; [done|].
    cbn [map MetricsFacts.sumZ].
    assert (0 < Metrics.total_count (sentence_dict s)).
    { unfold Metrics.total_count.
      assert (Metrics.get_text (sentence_dict s) = Sentence.text s) as -> by reflexivity.
      destruct (Metrics._tokenize (Sentence.text s)); [done|cbn [length]; lia]. }
    assert (0 ≤ MetricsFacts.sumZ Metrics.total_count (map sentence_dict rest)).
    { clear. induction (map sentence_dict rest) as [|x l IHl]; cbn [MetricsFacts.sumZ];
        [lia|]. unfold Metrics.total_count at 1. lia. }
    lia. }
  pose proof (MetricsFacts.ner_value dicts) as Hner. cbn zeta in Hner.
  rewrite Hu in Hner. destruct (Z.eqb_spec (MetricsFacts.sumZ Metrics.total_count dicts) 0)
    as [Hz|_]; [lia|].
  pose proof (MetricsFacts.swa_ner_sum dicts Hw) as Hsum.
  destruct (Z.eqb_spec (MetricsFacts.sumZ Metrics.total_count dicts) 0) as [Hz|_]; [lia|].
  rewrite Hner in Hsum.
  assert (Hzero : (inject_Z 0 / inject_Z (MetricsFacts.sumZ Metrics.total_count dicts) == 0)%Q)
    by (unfold Qdiv; apply Qmult_0_l).
  rewrite Hzero, Qplus_0_r in Hsum. split; [exact Hsum|].
  by rewrite Hner.
Qed.

End Service.

(** The retriever of [flaky_world] in front of the repository's verifier. *)
Definition own_world : World :=
  {| uuid4 := @uuid4 flaky_world;
     retriever_post := @retriever_post flaky_world;
     verifier_post := λ _ body, verifier_service body |}.

Lemma answer_with_own_verifier_witness :
  ∃ resp, @answer plain_library own_world AnswerApiFacts.sample_request = Ok resp ∧
    Forall (λ sent, Sentence.verifier sent = entailed) (AnswerResponse.sentences resp) ∧
    (AnswerResponse.confidence_overall resp == 1)%Q.
Proof.
  destruct (@answer plain_library own_world AnswerApiFacts.sample_request)
    as [resp| | |] eqn:Hresp; [|vm_compute in Hresp; discriminate..].
  exists resp. split; [reflexivity|].
  destruct (@answer_with_own_verifier plain_library own_world _ resp
              (λ _ _, eq_refl) Hresp (λ src _, first_sentence_found src))
    as [Hall Hrates].
  split; [exact Hall|]. apply Hrates.
  intros Hnil. apply (f_equal (@length _)) in Hnil.
  destruct (AnswerApiFacts.answer_ok _ _ Hresp) as (sources & Hf & _ & _ & Hs & _).
  rewrite Hs in Hnil. vm_compute in Hf. injection Hf as <-. vm_compute in Hnil. discriminate.
Defined.

End EndToEnd.

(** ** More on the nightly report *)
Module ReportFacts.
Import Py Json NightlyReport.

(** The four fields [aggregate_metrics] reads. *)
Definition keys : list string := ["support_rate"; "ner"; "cr"; "ece"]%string.

(** What stands under a key is absent, or a number between 0 and 1. *)
Definition is_rate (v : option json) : Prop :=
  match v with
  | None => True
  | Some (JInt z) => 0 ≤ z ≤ 1
  | Some (JFloat x) => (0 <= x <= 1)%Q
  | Some (JBool _) => True
  | Some (JNull | JStr _ | JArr _ | JObj _) => False
  end.

(** The number it stands for; an absent field counts as 0. *)
Definition rate_value (v : option json) : Q :=
  match v with
  | Some (JInt z) => inject_Z z
  | Some (JFloat x) => x
  | Some (JBool b) => if b then 1 else 0
  | _ => 0
  end.

Definition number_value (total : number) : Q :=
  match total with PyInt a => inject_Z a | PyFloat x => x end.

Lemma is_rate_value (v : option json) : is_rate v → (0 <= rate_value v <= 1)%Q.
Proof.
  destruct v as [[| [] |z|x| | |]|]; cbn [is_rate rate_value]; try done.
  intros [H0 H1]. split.
  - change 0%Q with (inject_Z 0). by rewrite <- Zle_Qle.
  - change 1%Q with (inject_Z 1). by rewrite <- Zle_Qle.
Qed.

Lemma float_of_int_small (z : Z) :
  Z.abs z < float_limit → float_of_int z = Return (inject_Z z).
Proof.
  intros Hz. unfold float_of_int. by destruct (Z.ltb_spec (Z.abs z) float_limit); [|lia].
Qed.

Lemma float_limit_large : 2 ^ 1023 < float_limit.
Proof. vm_compute. reflexivity. Qed.

Lemma number_value_int_bounds (a k : Z) :
  (0 <= inject_Z a <= inject_Z k)%Q → 0 ≤ a ≤ k.
Proof.
  intros [H0 H1]. change 0%Q with (inject_Z 0) in H0.
  rewrite <- Zle_Qle in H0, H1. lia.
Qed.

(** Adding a rate keeps the total between 0 and the number of values added,
    and raises nothing as long as that number can be a float. *)
Lemma add_rate (total : number) (v : option json) (k : Z) :
  is_rate v → k + 1 < float_limit →
  (0 <= number_value total <= inject_Z k)%Q →
  ∃ total', add total (default (JFloat 0) v) = Return total' ∧
    (number_value total' == number_value total + rate_value v)%Q ∧
    (0 <= number_value total' <= inject_Z (k + 1))%Q.
Proof.
  intros Hv Hk Hb. pose proof (is_rate_value v Hv) as Hval.
  assert (Hnext : ∀ x, (x == number_value total + rate_value v)%Q →
            (0 <= x <= inject_Z (k + 1))%Q).
  { intros x ->. rewrite inject_Z_plus. change (inject_Z 1) with 1%Q.
    destruct Hb, Hval. split; lra. }
  destruct total as [a|x]; cbn [number_value] in *.
  - apply number_value_int_bounds in Hb as Ha.
    destruct v as [[| b |z|y| | |]|]; cbn [is_rate rate_value from_option id add] in *;
      try done.
    + eexists. split; [reflexivity|]. cbn [number_value].
      assert (inject_Z (a + (if b then 1 else 0)) == inject_Z a + (if b then 1 else 0))%Q
        as He by (rewrite inject_Z_plus; by destruct b).
      split; [exact He|by apply Hnext].
    + eexists. split; [reflexivity|]. cbn [number_value].
      assert (inject_Z (a + z) == inject_Z a + inject_Z z)%Q as He
        by (by rewrite inject_Z_plus).
      split; [exact He|by apply Hnext].
    + rewrite float_of_int_small by lia. cbn [mbind result_bind].
      eexists. split; [reflexivity|]. cbn [number_value].
      split; [reflexivity|by apply Hnext].
    + rewrite float_of_int_small by lia. cbn [mbind result_bind].
      eexists. split; [reflexivity|]. cbn [number_value].
      split; [reflexivity|by apply Hnext].
  - destruct v as [[| b |z|y| | |]|]; cbn [is_rate rate_value from_option id add] in *;
      try done.
    + eexists. split; [reflexivity|]. cbn [number_value].
      split; [reflexivity|by apply Hnext].
    + assert (0 ≤ k) by (apply (number_value_int_bounds 0 k); destruct Hb; split;
                          [apply Qle_refl|by eapply Qle_trans]).
      rewrite float_of_int_small by lia. cbn [mbind result_bind].
      eexists. split; [reflexivity|]. cbn [number_value].
      split; [reflexivity|by apply Hnext].
    + eexists. split; [reflexivity|]. cbn [number_value].
      split; [reflexivity|by apply Hnext].
    + eexists. split; [reflexivity|]. cbn [number_value].
      split; [reflexivity|by apply Hnext].
Qed.

Lemma sum_field_rates (key : string) (snapshots : list (list (string * json)))
    (total : number) (k : Z) :
  Forall (λ items, is_rate (assoc key items)) snapshots →
  k + Z.of_nat (length snapshots) < float_limit →
  (0 <= number_value total <= inject_Z k)%Q →
  ∃ total', sum_field key (map JObj snapshots) total = Return total' ∧
    (number_value total' ==
       fold_left Qplus (map (λ items, rate_value (assoc key items)) snapshots)
                 (number_value total))%Q ∧
    (0 <= number_value total' <= inject_Z (k + Z.of_nat (length snapshots)))%Q.
Proof.
  intros Hall. revert total k.
  induction Hall as [|items rest Hv _ IH]; intros total k Hk Hb;
    cbn [map sum_field fold_left length].
  - exists total. split; [reflexivity|]. split; [reflexivity|].
    by rewrite Z.add_0_r.
  - cbn [length] in Hk. unfold get_field. cbn [as_dict mbind result_bind].
    destruct (add_rate total (assoc key items) k Hv ltac:(lia) Hb)
      as (total1 & -> & Hval & Hb1).
    cbn [mbind result_bind].
    destruct (IH total1 (k + 1) ltac:(lia) Hb1) as (total' & -> & Hval' & Hb').
    exists total'. split; [reflexivity|]. split.
    + rewrite Hval'. clear -Hval. revert Hval.
      generalize (number_value total1), (number_value total + rate_value (assoc key items))%Q.
      induction (map _ rest) as [|x l IHl]; intros a b Hab; cbn [fold_left]; [exact Hab|].
      apply IHl. by rewrite Hab.
    + replace (k + Z.of_nat (S (length rest))) with (k + 1 + Z.of_nat (length rest)) by lia.
      exact Hb'.
Qed.

(** Over a non-empty list of snapshots that are objects whose values under
    the four fields read are absent or numbers between 0 and 1, whatever
    else they hold, the report is computed: each aggregate is the mean of
    its field, an absent value counting as 0, and lies between 0 and 1. *)
Theorem aggregate_metrics_rates (snapshots : list (list (string * json))) :
  snapshots ≠ [] →
  Z.of_nat (length snapshots) < 2 ^ 1023 →
  (∀ items key, items ∈ snapshots → key ∈ keys → is_rate (assoc key items)) →
  let mean key :=
    (Qsum (map (λ items, rate_value (assoc key items)) snapshots)
     / inject_Z (Z.of_nat (length snapshots)))%Q in
  ∃ agg, aggregate_metrics (map JObj snapshots) = Return agg ∧
    (swa agg == mean "support_rate"%string ∧ 0 <= swa agg <= 1)%Q ∧
    (ner agg == mean "ner"%string ∧ 0 <= ner agg <= 1)%Q ∧
    (cr agg == mean "cr"%string ∧ 0 <= cr agg <= 1)%Q ∧
    (ece agg == mean "ece"%string ∧ 0 <= ece agg <= 1)%Q.
Proof.
  intros Hne Hlen Hrates mean.
  set (n := Z.of_nat (length snapshots)) in *.
  assert (Hn : 0 < n) by (unfold n; destruct snapshots; [done|cbn [length]; lia]).
  pose proof float_limit_large as Hlim.
  assert (Hmean : ∀ key, key ∈ keys →
            ∃ m, mean_field key (map JObj snapshots) = Return m ∧
                 (m == mean key ∧ 0 <= m <= 1)%Q).
  { intros key Hkey. unfold mean_field.
    destruct (sum_field_rates key snapshots (PyInt 0) 0) as (total & -> & Hval & Hb).
    { apply Forall_forall. intros items Hin. by apply Hrates. }
    { fold n. lia. }
    { cbn. split; apply Qle_refl. }
    cbn [mbind result_bind]. rewrite length_map. fold n. rewrite Z.add_0_l in Hb.
    assert (Hpos : (0 < inject_Z n)%Q)
      by (change 0%Q with (inject_Z 0); by rewrite <- Zlt_Qlt).
    assert (Hbounds : ∀ x, (0 <= x <= inject_Z n)%Q → (0 <= x / inject_Z n <= 1)%Q).
    { intros x [H0 H1]. split.
      - apply Qle_shift_div_l; [exact Hpos|]. by rewrite Qmult_0_l.
      - apply Qle_shift_div_r; [exact Hpos|]. by rewrite Qmult_1_l. }
    unfold true_div. destruct (Z.eqb_spec n 0) as [|_]; [lia|].
    assert (Heq : (number_value total / inject_Z n == mean key)%Q).
    { unfold mean, Qsum. by rewrite Hval. }
    destruct total as [a|x]; cbn [number_value] in *.
    - apply number_value_int_bounds in Hb as Ha.
      destruct (Z.ltb_spec (Z.abs a) (float_limit * n)) as [_|Hbig]; [|nia].
      eexists. split; [reflexivity|]. split; [exact Heq|by apply Hbounds].
    - eexists. split; [reflexivity|]. split; [exact Heq|by apply Hbounds]. }
  unfold aggregate_metrics.
  destruct (map JObj snapshots) as [|s0 rest] eqn:Hmap; [by destruct snapshots|].
  destruct (Hmean "support_rate"%string) as (m1 & -> & B1); [by left|].
  destruct (Hmean "ner"%string) as (m2 & -> & B2); [right; by left|].
  destruct (Hmean "cr"%string) as (m3 & -> & B3); [right; right; by left|].
  destruct (Hmean "ece"%string) as (m4 & -> & B4); [right; right; right; by left|].
  eexists. split; [reflexivity|]. cbn [swa ner cr ece].
  exact (conj B1 (conj B2 (conj B3 B4))).
Qed.

(** Two snapshots: one with a field the report does not read, one with a
    boolean and without three of the fields. *)
Definition sample_snapshots : list (list (string * json)) :=
  [ [("support_rate", JFloat (1 # 2)); ("ner", JFloat (1 # 2)); ("cr", JInt 0);
     ("run", JStr "nightly")];
    [("support_rate", JInt 1); ("ece", JBool true)] ]%string.

Lemma aggregate_metrics_rates_witness :
  ∃ agg, aggregate_metrics (map JObj sample_snapshots) = Return agg ∧
    (swa agg == 3 # 4 ∧ ner agg == 1 # 4 ∧ cr agg == 0 ∧ ece agg == 1 # 2)%Q.
Proof.
  destruct (aggregate_metrics_rates sample_snapshots) as (agg & Hagg & H1 & H2 & H3 & H4).
  - discriminate.
  - vm_compute. reflexivity.
  - unfold sample_snapshots, keys. intros items key Hi Hk.
    repeat (apply elem_of_cons in Hi as [->|Hi]);
      [| |by apply elem_of_nil in Hi];
      repeat (apply elem_of_cons in Hk as [->|Hk]);
      try (by apply elem_of_nil in Hk); cbn; try done; split; discriminate.
  - exists agg. split; [exact Hagg|].
    destruct H1 as [-> _], H2 as [-> _], H3 as [-> _], H4 as [-> _].
    by repeat split.
Defined.

End ReportFacts.
